(** * bird-tracker: the reporting core and the record operations of [birdapp]

    A shallow embedding of the Django application under [src/birdapp]:
    the models of [models.py] as records, the tables of the database as
    lists of rows in the order the database yields them, and the views of
    [views/] as functions from a request and a database to a response and
    a database.  Querysets are list operations on the tables; Python sets
    are [gset]s; a Python [while] loop or recursion whose termination
    depends on the stored data takes a fuel argument and returns [None]
    when the fuel runs out. *)

From Stdlib Require Import Ascii.
From stdpp Require Import base option list sorting gmap sets strings pretty.

Local Open Scope Z_scope.

(** ** Data model ([models.py]) *)

(** [datetime.date]: a calendar date.  Python compares dates by
    (year, month, day), lexicographically. *)
Record date := Date { year : Z; month : Z; day : Z }.

Record Location := mkLocation {
  loc_id : Z;
  location_name : string;
  parent_location : option Z
}.

Record Bird := mkBird {
  bird_id : Z;
  english_name : string
}.

Record Trip := mkTrip {
  trip_id : Z;
  trip_name : string;
  start_date : date;
  end_date : date;
  description : string
}.

Record Sighting := mkSighting {
  sighting_id : Z;
  bird : Z;
  location : Z;
  trip : option Z;
  date_seen : date;
  heard_not_seen : bool;
  count : Z;
  notes : string
}.

(** The database: one table per model, primary keys in the [*_id] fields. *)
Record DB := mkDB {
  birds : list Bird;
  locations : list Location;
  trips : list Trip;
  sightings : list Sighting
}.

Global Instance date_eq_dec : EqDecision date.
Proof. solve_decision. Defined.
Global Instance Location_eq_dec : EqDecision Location.
Proof. solve_decision. Defined.
Global Instance Bird_eq_dec : EqDecision Bird.
Proof. solve_decision. Defined.
Global Instance Trip_eq_dec : EqDecision Trip.
Proof. solve_decision. Defined.
Global Instance Sighting_eq_dec : EqDecision Sighting.
Proof. solve_decision. Defined.

(** Closes a decidable goal on closed terms by evaluating its decision
    procedure. *)
Ltac decide_by_compute :=
  lazymatch goal with
  | |- ?P => apply (bool_decide_unpack P); vm_compute; exact I
  end.

(** ** Python values and built-ins the views rely on *)

Module Py.

(** What [request.GET.get(key, default)] can hand to the views: [None],
    a query-string value, or an integer default. *)
Inductive value :=
  | PyNone
  | PyStr (s : string)
  | PyInt (n : Z).

(** [str.isspace] on the ASCII range. *)
Definition is_space (c : ascii) : bool :=
  let n := nat_of_ascii c in
  ((9 <=? n)%nat && (n <=? 13)%nat) || ((28 <=? n)%nat && (n <=? 32)%nat).

Definition digit_of (c : ascii) : option Z :=
  let n := Z.of_nat (nat_of_ascii c) in
  if (48 <=? n) && (n <=? 57) then Some (n - 48) else None.

Fixpoint lstrip (cs : list ascii) : list ascii :=
  match cs with
  | c :: cs' => if is_space c then lstrip cs' else cs
  | [] => []
  end.

Definition strip (cs : list ascii) : list ascii :=
  reverse (lstrip (reverse (lstrip cs))).

(** Decimal digits, single underscores allowed between two digits. *)
Fixpoint digits (acc : Z) (after_digit : bool) (cs : list ascii) : option Z :=
  match cs with
  | [] => if after_digit then Some acc else None
  | c :: cs' =>
      match digit_of c with
      | Some d => digits (10 * acc + d) true cs'
      | None =>
          if bool_decide (c = "_"%char) && after_digit
          then digits acc false cs' else None
      end
  end.

(** [int(s)] for a [str] of ASCII text: surrounding whitespace, an
    optional sign, decimal digits.  [None] is [ValueError].  (Digits and
    whitespace outside ASCII, which Python also accepts, are not in the
    model.) *)
Definition int_of_str (s : string) : option Z :=
  match strip (String.list_ascii_of_string s) with
  | "+"%char :: cs => digits 0 false cs
  | "-"%char :: cs => Z.opp <$> digits 0 false cs
  | cs => digits 0 false cs
  end.

(** [int(v)]: [None] is [TypeError] (for [None]) or [ValueError]. *)
Definition int (v : value) : option Z :=
  match v with
  | PyNone => None
  | PyStr s => int_of_str s
  | PyInt n => Some n
  end.

(** Truth value of a query parameter: [None] and the empty string are
    false, zero is false. *)
Definition truthy (v : value) : bool :=
  match v with
  | PyNone => false
  | PyStr s => negb (bool_decide (s = ""%string))
  | PyInt n => negb (n =? 0)
  end.

(** [datetime.date(y, m, d)]: [None] is the [ValueError] raised outside
    [MINYEAR..MAXYEAR], months 1-12 and the days of the month. *)
Definition is_leap (y : Z) : bool :=
  (y mod 4 =? 0) && (negb (y mod 100 =? 0) || (y mod 400 =? 0)).

Definition days_in_month (y m : Z) : Z :=
  if m =? 2 then (if is_leap y then 29 else 28)
  else if (m =? 4) || (m =? 6) || (m =? 9) || (m =? 11) then 30 else 31.

Definition valid_date (d : date) : Prop :=
  1 ≤ year d ≤ 9999 ∧ 1 ≤ month d ≤ 12 ∧ 1 ≤ day d ≤ days_in_month (year d) (month d).

Global Instance valid_date_dec d : Decision (valid_date d).
Proof. unfold valid_date. apply _. Defined.

Definition mk_date (y m d : Z) : option date :=
  if decide (valid_date (Date y m d)) then Some (Date y m d) else None.

(** Comparison of dates. *)
Definition date_lt (a b : date) : Prop :=
  year a < year b
  ∨ (year a = year b
     ∧ (month a < month b ∨ (month a = month b ∧ day a < day b))).

Definition date_le (a b : date) : Prop :=
  year a < year b
  ∨ (year a = year b
     ∧ (month a < month b ∨ (month a = month b ∧ day a ≤ day b))).

Global Instance date_lt_dec a b : Decision (date_lt a b).
Proof. unfold date_lt. apply _. Defined.
Global Instance date_le_dec a b : Decision (date_le a b).
Proof. unfold date_le. apply _. Defined.

End Py.

(** ** Location hierarchy ([views/location_views.py], [models.py]) *)

Module Hierarchy.

(** [Location.objects.filter(parent_location=location)]: the rows whose
    foreign key equals the primary key of [location], in the order of the
    table ([Meta.ordering], by name). *)
Definition children_of (locs : list Location) (l : Location) : list Location :=
  filter (λ c, parent_location c = Some (loc_id l)) locs.

(** [get_all_child_locations(location)], lines 15-23.  The recursion has no
    bound of its own: [fuel] is the depth of recursion the interpreter
    grants, and [None] is the call that never returns a list. *)
Fixpoint get_all_child_locations (fuel : nat) (locs : list Location)
    (l : Location) : option (list Location) :=
  match fuel with
  | O => None
  | S f =>
      let children := children_of locs l in
      rest ← mapM (get_all_child_locations f locs) children;
      Some (children ++ concat rest)
  end.

(** [Location.objects.get(pk=i)], the row an attribute access
    [x.parent_location] loads. *)
Definition get_location (locs : list Location) (i : Z) : option Location :=
  snd <$> list_find (λ l, loc_id l = i) locs.

(** The number of parent links above a location, walking as
    [get_ancestors] does ([while parent: ... parent = parent.parent_location]);
    a link to a row that does not exist ends the walk. *)
Fixpoint depth (fuel : nat) (locs : list Location) (l : Location) : option nat :=
  match fuel with
  | O => None
  | S f =>
      match parent_location l with
      | None => Some O
      | Some p =>
          match get_location locs p with
          | None => Some O
          | Some q => S <$> depth f locs q
          end
      end
  end.

(** The parent links hold no cycle: from every row the upward walk ends.
    A walk that ends visits each row at most once, so it ends within
    [length locs] steps. *)
Definition parent_links_acyclic (locs : list Location) : Prop :=
  Forall (λ l, is_Some (depth (length locs) locs l)) locs.

(** Primary keys are unique. *)
Definition pk_unique (locs : list Location) : Prop :=
  NoDup (loc_id <$> locs).

Global Instance parent_links_acyclic_dec locs : Decision (parent_links_acyclic locs).
Proof. unfold parent_links_acyclic. apply _. Defined.
Global Instance pk_unique_dec locs : Decision (pk_unique locs).
Proof. unfold pk_unique. apply _. Defined.

(** A store whose parent links were set out-of-band into a cycle. *)
Definition cyclic_locs : list Location :=
  [ mkLocation 1 "A" (Some 2); mkLocation 2 "B" (Some 1) ].

(** A small forest: Canada > Quebec > Montreal, and a second root. *)
Definition forest_locs : list Location :=
  [ mkLocation 1 "Canada" None; mkLocation 2 "Quebec" (Some 1);
    mkLocation 3 "Montreal" (Some 2); mkLocation 4 "France" None ].

End Hierarchy.

(** ** [django.core.paginator]

    The views paginate with Django's [Paginator], which is library code
    and not part of the repository; it is written out here as the views
    use it ([orphans = 0], [allow_empty_first_page = True]). *)

(** The outcome of a call that may raise. *)
Inductive result (E A : Type) :=
  | Ok (a : A)
  | Raise (e : E).
Arguments Ok {E A} a.
Arguments Raise {E A} e.

Module Paginator.

Inductive error :=
  | PageNotAnInteger
  | EmptyPage.

Record t (A : Type) := mk {
  object_list : list A;
  per_page : Z
}.
Arguments mk {A} object_list per_page.
Arguments object_list {A} _.
Arguments per_page {A} _.

Record Page (A : Type) := mkPage {
  page_object_list : list A;
  number : Z;
  page_num_pages : Z
}.
Arguments mkPage {A} page_object_list number page_num_pages.
Arguments page_object_list {A} _.
Arguments number {A} _.
Arguments page_num_pages {A} _.

Section Paginator.
Context {A : Type}.

Definition count (p : t A) : Z := Z.of_nat (length (object_list p)).

(** [hits = max(1, count - orphans); ceil(hits / per_page)]. *)
Definition num_pages (p : t A) : Z :=
  - ((- Z.max 1 (count p)) `div` per_page p).

(** [validate_number]: [int(number)] or [PageNotAnInteger]; then
    [EmptyPage] below 1 and above [num_pages]. *)
Definition validate_number (p : t A) (v : Py.value) : result error Z :=
  match Py.int v with
  | None => Raise PageNotAnInteger
  | Some n =>
      if decide (n < 1) then Raise EmptyPage
      else if decide (num_pages p < n) then Raise EmptyPage
      else Ok n
  end.

(** [object_list[bottom:top]] for [0 <= bottom]. *)
Definition slice (l : list A) (bottom top : Z) : list A :=
  take (Z.to_nat (top - bottom)) (drop (Z.to_nat bottom) l).

(** [page(number)]. *)
Definition page (p : t A) (v : Py.value) : result error (Page A) :=
  match validate_number p v with
  | Raise e => Raise e
  | Ok n =>
      let bottom := (n - 1) * per_page p in
      let top := bottom + per_page p in
      let top := if decide (count p ≤ top) then count p else top in
      Ok (mkPage (slice (object_list p) bottom top) n (num_pages p))
  end.

(** [get_page(number)]: page 1 on [PageNotAnInteger], the last page on
    [EmptyPage]. *)
Definition get_page (p : t A) (v : Py.value) : result error (Page A) :=
  match validate_number p v with
  | Ok n => page p (Py.PyInt n)
  | Raise PageNotAnInteger => page p (Py.PyInt 1)
  | Raise EmptyPage => page p (Py.PyInt (num_pages p))
  end.

End Paginator.
End Paginator.

(** ** Sighting aggregation ([views/list_views.py]) *)

Module Aggregator.
Export Py.

(** SQL [MIN] and [MAX] on two dates. *)
Definition date_min (a b : date) : date := if decide (date_le a b) then a else b.
Definition date_max (a b : date) : date := if decide (date_le a b) then b else a.

(** A row of [.values('bird').annotate(first_seen=Min('date_seen'),
    last_seen=Max('date_seen'))]. *)
Record annotated := mkAnnotated {
  ann_bird : Z;
  first_seen : date;
  last_seen : date
}.

(** The bird ids of a queryset, each once. *)
Fixpoint distinct (l : list Z) : list Z :=
  match l with
  | [] => []
  | x :: l' => x :: filter (λ y, y ≠ x) (distinct l')
  end.

(** One group of the [GROUP BY]: no rows, no group. *)
Definition annotate (b : Z) (rows : list Sighting) : option annotated :=
  match date_seen <$> rows with
  | [] => None
  | d :: ds => Some (mkAnnotated b (foldl date_min d ds) (foldl date_max d ds))
  end.

Definition values_bird_annotate (qs : list Sighting) : list annotated :=
  omap (λ b, annotate b (filter (λ s, bird s = b) qs)) (distinct (bird <$> qs)).

(** [.order_by('-last_seen')] is carried out by the database.  What SQL
    promises of it: the same rows, in descending order of [last_seen];
    the order of rows with equal [last_seen] is the database's choice. *)
Definition desc_last_seen (a b : annotated) : Prop := date_le (last_seen b) (last_seen a).

Definition order_by_contract (order_by : list annotated → list annotated) : Prop :=
  ∀ l, order_by l ≡ₚ l ∧ Sorted desc_last_seen (order_by l).

(** One order that honours the contract, for the examples: a stable
    insertion sort of the groups as [values_bird_annotate] lists them.
    (Among equal [last_seen] a database need not agree with it.) *)
Fixpoint insert_desc (x : annotated) (l : list annotated) : list annotated :=
  match l with
  | [] => [x]
  | y :: l' =>
      if decide (date_lt (last_seen x) (last_seen y))
      then y :: insert_desc x l' else x :: y :: l'
  end.

Definition stable_order_by (l : list annotated) : list annotated :=
  foldr insert_desc [] l.

(** [.first()] on a queryset without ordering: the row of least primary key. *)
Definition first_by_pk (rows : list Sighting) : option Sighting :=
  match rows with
  | [] => None
  | s :: rest =>
      Some (foldl (λ m x, if decide (sighting_id x < sighting_id m) then x else m)
              s rest)
  end.

(** An element of [lifelist_entries]. *)
Record entry := mkEntry {
  entry_bird : Z;
  first_sighting : Sighting;
  first_seen_date : date;
  last_seen_date : date;
  total_sightings : Z;
  is_recent : bool
}.

(** The body of [for entry in bird_sightings], lines 255-277 (and
    133-155 for the year list). *)
Definition build_entry (qs : list Sighting) (a : annotated) : option entry :=
  fs ← first_by_pk
         (filter (λ s, bird s = ann_bird a ∧ date_seen s = first_seen a) qs);
  Some (mkEntry (bird fs) fs (first_seen a) (last_seen a)
          (Z.of_nat (length (filter (λ s, bird s = ann_bird a) qs)))
          (bool_decide (first_seen a = last_seen a))).

Section Views.
Variable order_by : list annotated → list annotated.

Definition bird_sightings (qs : list Sighting) : list annotated :=
  order_by (values_bird_annotate qs).

Definition lifelist_entries (qs : list Sighting) : list entry :=
  omap (build_entry qs) (bird_sightings qs).

End Views.

(** The order [.order_by('-last_seen')] gives the entries. *)
Definition entries_desc_last_seen (e1 e2 : entry) : Prop :=
  date_le (last_seen_date e2) (last_seen_date e1).

(** [set(qs.values_list('bird', flat=True))]. *)
Definition bird_set (qs : list Sighting) : gset Z := list_to_set (bird <$> qs).

(** [year_stats], lines 183-205 of [yearlist]. *)
Record stats := mkStats {
  stat_total_sightings : Z;
  unique_species : Z;
  new_species : Z
}.

Definition year_new_species (base : list Sighting) (y : Z) : Z :=
  let filtered := filter (λ s, year (date_seen s) = y) base in
  let this_year_species := bird_set filtered in
  let previous_years_species :=
    bird_set (filter (λ s, year (date_seen s) < y) base) in
  Z.of_nat (size (this_year_species ∖ previous_years_species)).

(** [month_stats], lines 412-435 of [monthlist]; [date(year, month, 1)]
    may raise. *)
Definition month_new_species (base : list Sighting) (y m : Z) : option Z :=
  let filtered :=
    filter (λ s, year (date_seen s) = y ∧ month (date_seen s) = m) base in
  let this_month_species := bird_set filtered in
  month_start ← mk_date y m 1;
  let previous_species :=
    bird_set (filter (λ s, date_lt (date_seen s) month_start) base) in
  Some (Z.of_nat (size (this_month_species ∖ previous_species))).

(** [newSpeciesDelta] in the words of the specification: the size of the
    difference between the birds of the current window and the birds of
    any record dated strictly before the window start. *)
Definition newSpeciesDelta (window_start : date)
    (currentWindowSightings allSightings : list Sighting) : Z :=
  Z.of_nat (size (bird_set currentWindowSightings
                  ∖ bird_set (filter (λ s, date_lt (date_seen s) window_start)
                                allSightings))).

End Aggregator.

(** ** The list views ([views/list_views.py]) *)

Module ListViews.
Export Aggregator.

(** [request.GET]. *)
Abbreviation query := (gmap string string).

(** [request.GET.get(key)] and [request.GET.get(key, default)]. *)
Definition get (q : query) (k : string) : Py.value :=
  from_option Py.PyStr Py.PyNone (q !! k).
Definition get_default (q : query) (k : string) (d : Py.value) : Py.value :=
  from_option Py.PyStr d (q !! k).

(** What a view can raise past its own handlers.  [YearOutOfRange] is
    the [ValueError] (beyond the range of a C [int], the [OverflowError])
    of [datetime.date(year, 1, 1)], which the [date_seen__year] lookup
    computes when the query is run, for a year outside 1..9999. *)
Inductive exception :=
  | ValueError
  | PaginatorError (e : Paginator.error)
  | YearOutOfRange.

Definition lift_page {A} (r : result Paginator.error (Paginator.Page A))
    : result exception (Paginator.Page A) :=
  match r with
  | Ok p => Ok p
  | Raise e => Raise (PaginatorError e)
  end.

(** *** [locationlist], lines 77-88: the pagination of the species list. *)
Definition locationlist_page {A} (species_list : list A) (q : query)
    : result exception (Paginator.Page A) :=
  let paginator := Paginator.mk species_list 20 in
  let page_number := get q "page" in
  lift_page
    match Paginator.get_page paginator page_number with
    | Ok p => Ok p
    | Raise Paginator.PageNotAnInteger => Paginator.page paginator (Py.PyInt 1)
    | Raise Paginator.EmptyPage =>
        Paginator.page paginator (Py.PyInt (Paginator.num_pages paginator))
    end.

(** *** [lifelist], lines 238-309. *)
Definition valid_page_sizes : list string := ["10"; "20"; "50"; "all"].

Record lifelist_context := mkLifelist {
  ll_lifelist_entries : list entry;
  ll_total_species : Z;
  ll_page_obj : option (Paginator.Page entry);
  ll_current_page_size : string;
  ll_is_paginated : bool
}.

Definition lifelist (order_by : list annotated → list annotated)
    (q : query) (table : list Sighting) : result exception lifelist_context :=
  let page_size := default "20" (q !! "page_size") in
  let page_size :=
    if decide (page_size ∈ valid_page_sizes) then page_size else "20" in
  let entries := lifelist_entries order_by table in
  let total_species := Z.of_nat (length entries) in
  if decide (page_size = "all") then
    Ok (mkLifelist entries total_species None page_size false)
  else
    match Py.int_of_str page_size with
    | None => Raise ValueError
    | Some page_size_int =>
        let paginator := Paginator.mk entries page_size_int in
        let page_number := get_default q "page" (Py.PyInt 1) in
        match
          lift_page
            match Paginator.get_page paginator page_number with
            | Ok p => Ok p
            | Raise _ => Paginator.get_page paginator (Py.PyInt 1)
            end
        with
        | Raise e => Raise e
        | Ok page_obj =>
            Ok (mkLifelist (Paginator.page_object_list page_obj) total_species
                  (Some page_obj) page_size
                  (bool_decide (1 < Paginator.num_pages paginator)))
        end
    end.

(** *** [yearlist], lines 103-236 (without the index of available years,
    lines 207-222). *)
Record yearlist_context := mkYearlist {
  yl_lifelist_entries : list entry;
  yl_total_species : Z;
  yl_year : option Z;
  yl_year_stats : option stats;
  yl_page_obj : option (Paginator.Page entry);
  yl_is_paginated : bool;
  yl_current_page_size : string
}.

(** Lines 162-179, shared in text by [yearlist] and [monthlist]
    (lines 391-408): [paginator.page(page)], and page 1 on any exception. *)
Definition page_or_first {A} (entries : list A) (page_size : string)
    (page : Py.value) : result exception (Paginator.Page A) :=
  let page_size :=
    match Py.int_of_str page_size with
    | Some n => if decide (n ≤ 0) then 20 else n
    | None => 20
    end in
  let paginator := Paginator.mk entries page_size in
  lift_page
    match Paginator.page paginator page with
    | Ok p => Ok p
    | Raise _ => Paginator.page paginator (Py.PyInt 1)
    end.

Definition yearlist (order_by : list annotated → list annotated)
    (q : query) (base_sightings : list Sighting)
    : result exception yearlist_context :=
  let page_size := default "20" (q !! "page_size") in
  let page := get_default q "page" (Py.PyInt 1) in
  let year_param := get q "year" in
  let '(year_val, filtered_sightings) :=
    if Py.truthy year_param then
      match Py.int year_param with
      | Some y => (Some y, filter (λ s, year (date_seen s) = y) base_sightings)
      | None => (None, base_sightings)
      end
    else (None, base_sightings) in
  (* [for entry in bird_sightings] runs the query: the filter of a year
     outside 1..9999 raises here, outside the [try] *)
  if negb (from_option (λ y, bool_decide (1 ≤ y ≤ 9999)) true year_val)
  then Raise YearOutOfRange
  else
  let bird_sightings := bird_sightings order_by filtered_sightings in
  let entries := lifelist_entries order_by filtered_sightings in
  let year_stats :=
    match year_val with
    | Some y =>
        if decide (y = 0) then None
        else Some (mkStats (Z.of_nat (length filtered_sightings))
                     (Z.of_nat (length bird_sightings))
                     (year_new_species base_sightings y))
    | None => None
    end in
  let total := Z.of_nat (length bird_sightings) in
  if decide (page_size = "all") then
    Ok (mkYearlist entries total year_val year_stats None false page_size)
  else
    match page_or_first entries page_size page with
    | Raise e => Raise e
    | Ok page_obj =>
        Ok (mkYearlist (Paginator.page_object_list page_obj) total year_val
              year_stats (Some page_obj)
              (bool_decide (1 < Paginator.page_num_pages page_obj)) page_size)
    end.

(** The out-of-range policies the two families of call sites end up with,
    as functions of [int(page)] and the number of pages. *)
Definition clamp_to_last (num_pages : Z) (n : option Z) : Z :=
  match n with
  | None => 1
  | Some n => if decide (1 ≤ n ≤ num_pages) then n else num_pages
  end.

Definition clamp_to_first (num_pages : Z) (n : option Z) : Z :=
  match n with
  | None => 1
  | Some n => if decide (1 ≤ n ≤ num_pages) then n else 1
  end.

(** The page size [yearlist] and [monthlist] end up with: [int(page_size)]
    where it is a positive number, 20 otherwise. *)
Definition page_size_or_20 (page_size : string) : Z :=
  match Py.int_of_str page_size with
  | Some n => if decide (n ≤ 0) then 20 else n
  | None => 20
  end.

(** Page [n] of a list at [per_page] entries a page: the entries from
    [(n - 1) * per_page] on, at most [per_page] of them, with the number
    of pages of the list. *)
Definition page_at {A} (l : list A) (per_page n : Z) : Paginator.Page A :=
  Paginator.mkPage
    (take (Z.to_nat per_page) (drop (Z.to_nat ((n - 1) * per_page)) l))
    n (Paginator.num_pages (Paginator.mk l per_page)).


Definition first_policy_page {A} (entries : list A) (page_size : string)
    (page : Py.value) : Paginator.Page A :=
  page_at entries (page_size_or_20 page_size)
    (clamp_to_first
       (Paginator.num_pages (Paginator.mk entries (page_size_or_20 page_size)))
       (Py.int page)).


End ListViews.

(** ** The record views ([views/trip_views.py], [views/bird_views.py],
    [views/location_views.py], [views/sighting_views.py]) *)

Module RecordViews.
Export Hierarchy.

Inductive http_method := GET | POST.

(** [request.POST]. *)
Abbreviation form_data := (gmap string string).

(** What a view answers: [get_object_or_404] failing, [require_POST]
    refusing, an uncaught exception, a redirect after [messages.success],
    a rendered template (with the [messages.error] text, if any), or a
    [JsonResponse] with its [success] and [message]. *)
Inductive response :=
  | Http404
  | Http405
  | ServerError
  | Redirect (url_name : string) (message : string)
  | Render (template : string) (message : option string)
  | JsonResponse (success : bool) (message : string).

(** The double quote of the f-strings. *)
Definition dq : string := String (ascii_of_nat 34) EmptyString.
Definition quoted (s : string) : string := dq +:+ s +:+ dq.

(** *** Row lookups *)
Definition get_bird (db : DB) (i : Z) : option Bird :=
  snd <$> list_find (λ b, bird_id b = i) (birds db).
Definition get_trip (db : DB) (i : Z) : option Trip :=
  snd <$> list_find (λ t, trip_id t = i) (trips db).

(** *** [Model.delete()]: the row and, through the [on_delete=CASCADE]
    foreign keys of [models.py], every row that refers to it. *)
Definition Bird_delete (b : Bird) (db : DB) : DB :=
  mkDB (filter (λ x, bird_id x ≠ bird_id b) (birds db))
       (locations db) (trips db)
       (filter (λ s, bird s ≠ bird_id b) (sightings db)).

Definition Trip_delete (t : Trip) (db : DB) : DB :=
  mkDB (birds db) (locations db)
       (filter (λ x, trip_id x ≠ trip_id t) (trips db))
       (filter (λ s, trip s ≠ Some (trip_id t)) (sightings db)).

(** The deletion collector follows [parent_location] downwards, adding
    rows it has not yet seen, until a round adds none; [length locs]
    rounds are enough. *)
Fixpoint collect_locations (rounds : nat) (locs : list Location)
    (ids : list Z) : list Z :=
  match rounds with
  | O => ids
  | S r =>
      let new :=
        filter (λ l, parent_location l ∈ (Some <$> ids) ∧ loc_id l ∉ ids)
          locs in
      collect_locations r locs (ids ++ (loc_id <$> new))
  end.

Definition Location_delete (l : Location) (db : DB) : DB :=
  let ids := collect_locations (length (locations db)) (locations db) [loc_id l] in
  mkDB (birds db)
       (filter (λ x, loc_id x ∉ ids) (locations db))
       (trips db)
       (filter (λ s, location s ∉ ids) (sightings db)).

(** *** [trip_delete], lines 198-231 of [trip_views.py] *)
Definition dereference (i : Z) (s : Sighting) : Sighting :=
  if decide (trip s = Some i)
  then mkSighting (sighting_id s) (bird s) (location s) None (date_seen s)
         (heard_not_seen s) (count s) (notes s)
  else s.

Definition trip_delete (m : http_method) (i : Z) (db : DB) : response * DB :=
  match get_trip db i with
  | None => (Http404, db)
  | Some trip_row =>
      match m with
      | POST =>
          let sighting_count :=
            length (filter (λ s, trip s = Some (trip_id trip_row)) (sightings db)) in
          let name := trip_name trip_row in
          (* Sighting.objects.filter(trip=trip).update(trip=None) *)
          let db1 := mkDB (birds db) (locations db) (trips db)
                       (dereference (trip_id trip_row) <$> sightings db) in
          (* trip.delete() *)
          let db2 := Trip_delete trip_row db1 in
          let message :=
            if decide (0 < sighting_count)%nat
            then "Trip " +:+ quoted name +:+ " deleted successfully. "
                 +:+ pretty sighting_count
                 +:+ " sighting(s) have been dereferenced."
            else "Trip " +:+ quoted name +:+ " deleted successfully." in
          (Redirect "trip_list" message, db2)
      | GET => (Render "birdapp/trip_confirm_delete.html" None, db)
      end
  end.

(** *** [bird_delete], lines 151-172 of [bird_views.py] *)
Definition bird_delete (m : http_method) (i : Z) (db : DB) : response * DB :=
  match m with
  | GET => (Http405, db)
  | POST =>
      match get_bird db i with
      | None => (Http404, db)
      | Some bird_obj =>
          let sighting_count :=
            length (filter (λ s, bird s = bird_id bird_obj) (sightings db)) in
          if decide (0 < sighting_count)%nat then
            (JsonResponse false
               ("Cannot delete " +:+ quoted (english_name bird_obj)
                +:+ " because it has " +:+ pretty sighting_count
                +:+ " sighting(s). Please delete the sightings first."), db)
          else
            (JsonResponse true
               ("Bird " +:+ quoted (english_name bird_obj)
                +:+ " has been deleted successfully."),
             Bird_delete bird_obj db)
      end
  end.

(** *** [location_delete], lines 221-251 of [location_views.py] *)
Definition location_delete (m : http_method) (i : Z) (db : DB) : response * DB :=
  match m with
  | GET => (Http405, db)
  | POST =>
      match get_location (locations db) i with
      | None => (Http404, db)
      | Some location_obj =>
          let sighting_count :=
            length (filter (λ s, location s = loc_id location_obj) (sightings db)) in
          if decide (0 < sighting_count)%nat then
            (JsonResponse false
               ("Cannot delete " +:+ quoted (location_name location_obj)
                +:+ " because it has " +:+ pretty sighting_count
                +:+ " sighting(s). Please delete or reassign the sightings first."),
             db)
          else
            let child_count := length (children_of (locations db) location_obj) in
            if decide (0 < child_count)%nat then
              (JsonResponse false
                 ("Cannot delete " +:+ quoted (location_name location_obj)
                  +:+ " because it has " +:+ pretty child_count
                  +:+ " child location(s). Please delete or reassign the child locations first."),
               db)
            else
              (JsonResponse true
                 ("Location " +:+ quoted (location_name location_obj)
                  +:+ " has been deleted successfully."),
               Location_delete location_obj db)
      end
  end.

End RecordViews.

(** ** Forms and the views that save through them ([forms.py],
    [location_edit], [add_sighting]) *)

Module FormViews.
Export RecordViews.

(** [str.strip()] on a form value. *)
Definition clean_text (raw : string) : string :=
  String.string_of_list_ascii (Py.strip (String.list_ascii_of_string raw)).

(** A [ModelChoiceField]: the empty value is [None]; any other value has
    to be the primary key of a row. *)
Inductive choice (A : Type) :=
  | NoChoice
  | Chosen (a : A)
  | InvalidChoice.
Arguments NoChoice {A}.
Arguments Chosen {A} a.
Arguments InvalidChoice {A}.

Definition model_choice {A} (lookup : Z → option A) (raw : option string) : choice A :=
  match raw with
  | None => NoChoice
  | Some raw =>
      if decide (raw = "") then NoChoice
      else match Py.int_of_str raw ≫= lookup with
           | Some a => Chosen a
           | None => InvalidChoice
           end
  end.

(** *** [LocationForm]: a required name of at most 200 characters and an
    optional parent. *)
Record location_cleaned := mkLocationCleaned {
  cleaned_location_name : string;
  cleaned_parent_location : option Location
}.

Definition LocationForm_clean (locs : list Location) (post : form_data)
    : option location_cleaned :=
  let name := clean_text (default "" (post !! "location_name")) in
  if decide (name = "") then None
  else if decide (200 < String.length name)%nat then None
  else match model_choice (get_location locs) (post !! "parent_location") with
       | NoChoice => Some (mkLocationCleaned name None)
       | Chosen p => Some (mkLocationCleaned name (Some p))
       | InvalidChoice => None
       end.

(** The loop of lines 124-136: [current = new_parent; while current: ...
    current = current.parent_location].  [Dangling] is a parent link to a
    row that does not exist, on which the attribute access raises. *)
Inductive walk := Reached | NotReached | Dangling.

Fixpoint circular_check (fuel : nat) (locs : list Location)
    (current : Location) (target : Z) : option walk :=
  match fuel with
  | O => None
  | S f =>
      if decide (loc_id current = target) then Some Reached
      else match parent_location current with
           | None => Some NotReached
           | Some i =>
               match get_location locs i with
               | None => Some Dangling
               | Some q => circular_check f locs q target
               end
           end
  end.

(** [form.save()] on the instance. *)
Definition save_location (i : Z) (c : location_cleaned) (db : DB) : DB :=
  mkDB (birds db)
       ((λ l, if decide (loc_id l = i)
              then mkLocation i (cleaned_location_name c)
                     (loc_id <$> cleaned_parent_location c)
              else l) <$> locations db)
       (trips db) (sightings db).

Definition circular_message : string :=
  "Cannot set parent location: this would create a circular reference.".
Definition form_template : string := "birdapp/location_form.html".

(** [location_edit], lines 113-154 of [location_views.py]. *)
Definition location_edit (fuel : nat) (m : http_method) (i : Z)
    (post : form_data) (db : DB) : option (response * DB) :=
  match get_location (locations db) i with
  | None => Some (Http404, db)
  | Some location_obj =>
      match m with
      | GET => Some (Render form_template None, db)
      | POST =>
          match LocationForm_clean (locations db) post with
          | None =>
              Some (Render form_template (Some "Please correct the errors below."), db)
          | Some cleaned =>
              let saved :=
                (Redirect "location_detail"
                   ("Location " +:+ quoted (cleaned_location_name cleaned)
                    +:+ " updated successfully!"),
                 save_location (loc_id location_obj) cleaned db) in
              match cleaned_parent_location cleaned with
              | None => Some saved
              | Some new_parent =>
                  match circular_check fuel (locations db) new_parent
                          (loc_id location_obj) with
                  | None => None
                  | Some Reached =>
                      Some (Render form_template (Some circular_message), db)
                  | Some NotReached => Some saved
                  | Some Dangling => Some (ServerError, db)
                  end
              end
          end
      end
  end.

(** Walking upward through parent links from [c] meets the row of
    primary key [target]. *)
Inductive reaches (locs : list Location) (target : Z) : Location → Prop :=
  | reaches_here c : loc_id c = target → reaches locs target c
  | reaches_up c i q :
      parent_location c = Some i → get_location locs i = Some q →
      reaches locs target q → reaches locs target c.

(** *** [SightingForm] (the second class of that name in [forms.py], which
    replaces the first) and [add_sighting] *)

(** The range the database backend gives an [IntegerField]. *)
Record backend := mkBackend { int_min : Z; int_max : Z }.

Fixpoint split_on (sep : ascii) (cs : list ascii) : list (list ascii) :=
  match cs with
  | [] => [[]]
  | c :: cs' =>
      if decide (c = sep) then [] :: split_on sep cs'
      else match split_on sep cs' with
           | [] => [[c]]
           | part :: parts => (c :: part) :: parts
           end
  end.

Fixpoint plain_digits (acc : Z) (cs : list ascii) : option Z :=
  match cs with
  | [] => Some acc
  | c :: cs' => d ← Py.digit_of c; plain_digits (10 * acc + d) cs'
  end.

(** *** [datetime.strptime]

    A format is matched as the regular expression CPython builds for it:
    four digits for [%Y], two for [%y], [1[0-2]|0[1-9]|[1-9]] for [%m],
    [3[0-1]|[1-2]\d|0[1-9]|[1-9]| [1-9]] for [%d]; nothing may remain.
    [None] is [ValueError], which is also what [datetime.date] raises for
    the year 0 and for a day the month does not have.  (Digits outside
    ASCII are not in the model.) *)
Definition re_Y (cs : list ascii) : option Z :=
  if decide (length cs = 4%nat) then plain_digits 0 cs else None.

(** [%y]: 00-68 are 2000-2068, 69-99 are 1969-1999. *)
Definition re_y (cs : list ascii) : option Z :=
  if decide (length cs = 2%nat) then
    n ← plain_digits 0 cs;
    Some (if decide (n ≤ 68) then 2000 + n else 1900 + n)
  else None.

Definition re_m (cs : list ascii) : option Z :=
  match Py.digit_of <$> cs with
  | [Some a; Some b] =>
      if decide (a = 1 ∧ b ≤ 2) then Some (10 + b)
      else if decide (a = 0 ∧ 1 ≤ b) then Some b
      else None
  | [Some a] => if decide (1 ≤ a) then Some a else None
  | _ => None
  end.

Definition re_d (cs : list ascii) : option Z :=
  match cs with
  | [c1; c2] =>
      match Py.digit_of c1, Py.digit_of c2 with
      | Some a, Some b =>
          if decide (a = 3 ∧ b ≤ 1) then Some (30 + b)
          else if decide (1 ≤ a ≤ 2) then Some (10 * a + b)
          else if decide (a = 0 ∧ 1 ≤ b) then Some b
          else None
      | None, Some b =>
          if decide (c1 = " "%char ∧ 1 ≤ b) then Some b else None
      | _, _ => None
      end
  | [c1] =>
      match Py.digit_of c1 with
      | Some a => if decide (1 ≤ a) then Some a else None
      | None => None
      end
  | _ => None
  end.

(** The formats a [DateField] tries, in this order, under Django's
    default language ([en]): ['%Y-%m-%d', '%m/%d/%Y', '%m/%d/%y'].
    ([DATE_INPUT_FORMATS] is a setting, outside the repository.) *)
Inductive date_format := Ymd_dashes | mdY_slashes | mdy_slashes.

Definition DATE_INPUT_FORMATS : list date_format :=
  [Ymd_dashes; mdY_slashes; mdy_slashes].

Definition strptime (format : date_format) (value : list ascii) : option date :=
  match format with
  | Ymd_dashes =>
      match split_on "-"%char value with
      | [Y; m; d] =>
          y' ← re_Y Y; m' ← re_m m; d' ← re_d d; Py.mk_date y' m' d'
      | _ => None
      end
  | mdY_slashes =>
      match split_on "/"%char value with
      | [m; d; Y] =>
          m' ← re_m m; d' ← re_d d; y' ← re_Y Y; Py.mk_date y' m' d'
      | _ => None
      end
  | mdy_slashes =>
      match split_on "/"%char value with
      | [m; d; y] =>
          m' ← re_m m; d' ← re_d d; y' ← re_y y; Py.mk_date y' m' d'
      | _ => None
      end
  end.

(** [DateField.to_python]: [value.strip()], then the first input format
    that [strptime] accepts. *)
Definition parse_date (raw : string) : option date :=
  let value := Py.strip (String.list_ascii_of_string raw) in
  head (omap (λ format, strptime format value) DATE_INPUT_FORMATS).

(** [IntegerField.to_python]: [int(re_decimal.sub('', str(value)))] with
    [re_decimal = r'\.0*\s*$'], which removes a final point followed by
    zeros and whitespace only. *)
Fixpoint lstrip_zeros (cs : list ascii) : list ascii :=
  match cs with
  | c :: cs' => if decide (c = "0"%char) then lstrip_zeros cs' else cs
  | [] => []
  end.

Definition re_decimal_sub (cs : list ascii) : list ascii :=
  match lstrip_zeros (Py.lstrip (reverse cs)) with
  | "."%char :: rest => reverse rest
  | _ => cs
  end.

Definition parse_integer (raw : string) : option Z :=
  Py.int_of_str
    (String.string_of_list_ascii
       (re_decimal_sub (String.list_ascii_of_string raw))).

Definition lower (c : ascii) : ascii :=
  let n := nat_of_ascii c in
  if ((65 <=? n) && (n <=? 90))%nat then ascii_of_nat (n + 32) else c.

(** A checkbox: absent, empty and [false] are false. *)
Definition parse_checkbox (raw : option string) : bool :=
  match raw with
  | None => false
  | Some s =>
      negb (bool_decide (s = "")
            || bool_decide (lower <$> String.list_ascii_of_string s
                            = String.list_ascii_of_string "false"))
  end.

(** [form.is_valid()] and the row [form.save()] would insert, primary key
    apart: bird, location, date and count are required; the count is an
    integer of the backend's range; the notes are stripped and may hold
    no NUL character. *)
Definition SightingForm_clean (be : backend) (db : DB) (post : form_data)
    : option Sighting :=
  match model_choice (get_bird db) (post !! "bird"),
        model_choice (get_location (locations db)) (post !! "location"),
        model_choice (get_trip db) (post !! "trip") with
  | Chosen b, Chosen l, (NoChoice | Chosen _) as t =>
      d ← parse_date (default "" (post !! "date_seen"));
      n ← parse_integer (default "" (post !! "count"));
      let notes := clean_text (default "" (post !! "notes")) in
      if decide (int_min be ≤ n ≤ int_max be
                 ∧ Ascii.zero ∉ String.list_ascii_of_string notes) then
        Some (mkSighting 0 (bird_id b) (loc_id l)
                (match t with Chosen t' => Some (trip_id t') | _ => None end)
                d (parse_checkbox (post !! "heard_not_seen")) n notes)
      else None
  | _, _, _ => None
  end.

(** The primary key the database gives a new row. *)
Definition next_sighting_id (db : DB) : Z :=
  1 + foldr Z.max 0 (sighting_id <$> sightings db).

(** [add_sighting], lines 11-30 of [sighting_views.py]. *)
Definition add_sighting (be : backend) (m : http_method) (post : form_data)
    (db : DB) : response * DB :=
  match m with
  | GET => (Render "birdapp/add_sighting.html" None, db)
  | POST =>
      match SightingForm_clean be db post with
      | None =>
          (Render "birdapp/add_sighting.html"
             (Some "Please correct the errors below."), db)
      | Some s =>
          let sighting :=
            mkSighting (next_sighting_id db) (bird s) (location s) (trip s)
              (date_seen s) (heard_not_seen s) (count s) (notes s) in
          (Redirect "add_sighting"
             ("Sighting of "
              +:+ from_option english_name "" (get_bird db (bird s))
              +:+ " recorded successfully!"),
           mkDB (birds db) (locations db) (trips db) (sightings db ++ [sighting]))
      end
  end.

End FormViews.

(** ** Paths through the hierarchy ([models.py], [location_detail]) *)

Module Paths.
Export FormViews.

(** [x.parent_location] on a row whose parent row is gone raises
    [Location.DoesNotExist]. *)
Inductive lookup_error := DoesNotExist.

Definition result_map {E A B} (f : A → B) (r : result E A) : result E B :=
  match r with
  | Ok a => Ok (f a)
  | Raise e => Raise e
  end.

(** [Location.get_full_path], lines 29-36 of [models.py]: the loop
    [while parent: path.insert(0, parent.location_name);
    parent = parent.parent_location].  [None] is the walk that does not
    end within [fuel] rounds. *)
Fixpoint get_full_path_loop (fuel : nat) (locs : list Location)
    (parent : option Z) (path : list string)
    : option (result lookup_error (list string)) :=
  match fuel with
  | O => None
  | S f =>
      match parent with
      | None => Some (Ok path)
      | Some p =>
          match get_location locs p with
          | None => Some (Raise DoesNotExist)
          | Some q =>
              get_full_path_loop f locs (parent_location q)
                (location_name q :: path)
          end
      end
  end.

Definition get_full_path (fuel : nat) (locs : list Location) (l : Location)
    : option (result lookup_error (list string)) :=
  get_full_path_loop fuel locs (parent_location l) [location_name l].

(** [sep.join(parts)]. *)
Fixpoint join (sep : string) (parts : list string) : string :=
  match parts with
  | [] => ""
  | [s] => s
  | s :: rest => s +:+ sep +:+ join sep rest
  end.

(** [Location.get_full_path_string], lines 38-40. *)
Definition get_full_path_string (fuel : nat) (locs : list Location)
    (l : Location) : option (result lookup_error string) :=
  result_map (join " > ") <$> get_full_path fuel locs l.

(** [Location.get_ancestors], lines 42-49: the same walk, collecting the
    rows. *)
Fixpoint get_ancestors_loop (fuel : nat) (locs : list Location)
    (parent : option Z) (ancestors : list Location)
    : option (result lookup_error (list Location)) :=
  match fuel with
  | O => None
  | S f =>
      match parent with
      | None => Some (Ok ancestors)
      | Some p =>
          match get_location locs p with
          | None => Some (Raise DoesNotExist)
          | Some q =>
              get_ancestors_loop f locs (parent_location q) (q :: ancestors)
          end
      end
  end.

Definition get_ancestors (fuel : nat) (locs : list Location) (l : Location)
    : option (result lookup_error (list Location)) :=
  get_ancestors_loop fuel locs (parent_location l) [].

(** The breadcrumb of [location_detail], lines 161-166 of
    [location_views.py]: [current = location_obj; while current:
    breadcrumb_path.insert(0, current); current = current.parent_location]. *)
Fixpoint breadcrumb_loop (fuel : nat) (locs : list Location)
    (current : Location) (breadcrumb_path : list Location)
    : option (result lookup_error (list Location)) :=
  match fuel with
  | O => None
  | S f =>
      let breadcrumb_path := current :: breadcrumb_path in
      match parent_location current with
      | None => Some (Ok breadcrumb_path)
      | Some p =>
          match get_location locs p with
          | None => Some (Raise DoesNotExist)
          | Some q => breadcrumb_loop f locs q breadcrumb_path
          end
      end
  end.

Definition breadcrumb_path (fuel : nat) (locs : list Location) (l : Location)
    : option (result lookup_error (list Location)) :=
  breadcrumb_loop fuel locs l [].

(** Every parent link points to a row of the table (what the foreign-key
    constraint of the database maintains). *)
Definition parent_links_valid (locs : list Location) : Prop :=
  Forall (λ l, ∀ p, parent_location l = Some p → is_Some (get_location locs p))
    locs.

Global Instance parent_links_valid_dec locs : Decision (parent_links_valid locs).
Proof.
  unfold parent_links_valid. apply Forall_dec. intros l.
  destruct (parent_location l) as [p|].
  - destruct (decide (is_Some (get_location locs p))) as [H|H].
    + left. by intros ? [= <-].
    + right. intros H'. by apply H, H'.
  - left. by intros.
Defined.

(** Each row of the list is the parent of the next. *)
Fixpoint linked (path : list Location) : Prop :=
  match path with
  | a :: (b :: _) as rest => parent_location b = Some (loc_id a) ∧ linked rest
  | _ => True
  end.

(** Row [c] lies strictly below row [a]: the upward walk from the parent
    of [c] meets the row of [a]. *)
Definition descends (locs : list Location) (c a : Location) : Prop :=
  ∃ p q, parent_location c = Some p ∧ get_location locs p = Some q
         ∧ reaches locs (loc_id a) q.

End Paths.

(** Python's [sum] on integers. *)
Definition sum (l : list Z) : Z := foldr Z.add 0 l.

(** ** [monthlist] ([views/list_views.py], lines 311-505) *)

Module MonthList.
Export ListViews.

(** An element of [lifelist_entries] in [monthlist]: the entry of the
    other lists and the flag [is_lifelist_addition]. *)
Record month_entry := mkMonthEntry {
  me_entry : entry;
  is_lifelist_addition : bool
}.

(** The body of [for entry in bird_sightings], lines 355-384. *)
Definition build_month_entry (base_sightings filtered_sightings : list Sighting)
    (a : annotated) : option month_entry :=
  e ← build_entry filtered_sightings a;
  Some (mkMonthEntry e
          (negb (bool_decide
                   (filter (λ s, bird s = ann_bird a
                                 ∧ date_lt (date_seen s) (first_seen a))
                      base_sightings ≠ [])))).

Definition monthlist_entries (order_by : list annotated → list annotated)
    (base_sightings filtered_sightings : list Sighting) : list month_entry :=
  omap (build_month_entry base_sightings filtered_sightings)
    (bird_sightings order_by filtered_sightings).

(** What [monthlist] lets escape: the [ValueError] (or [OverflowError]) of
    [datetime.date(year, 1, 1)], raised by the [date_seen__year=year]
    lookup for a year outside 1..9999 when the query is run; the
    [TypeError] of [calendar.month_name[month]] on a [str]. *)
Inductive exception :=
  | DateRangeError
  | TypeError
  | Uncaught (e : ListViews.exception).

Record monthlist_context := mkMonthlist {
  ml_lifelist_entries : list month_entry;
  ml_total_species : Z;
  ml_year : Py.value;
  ml_month : Py.value;
  ml_month_stats : option stats;
  ml_page_obj : option (Paginator.Page month_entry);
  ml_is_paginated : bool;
  ml_current_page_size : string
}.

(** Lines 325-345: the filter the parameters select, with the values
    [year] and [month] are left with. *)
Inductive selection :=
  | AllTime
  | WholeYear (y : Z)
  | YearMonth (y m : Z).

Definition select (year month : Py.value) : Py.value * Py.value * selection :=
  if Py.truthy year && Py.truthy month then
    match Py.int year, Py.int month with
    | Some y, Some m =>
        if decide (1 ≤ m ≤ 12) then (Py.PyInt y, Py.PyInt m, YearMonth y m)
        else (Py.PyNone, Py.PyNone, AllTime)
    | _, _ => (Py.PyNone, Py.PyNone, AllTime)
    end
  else if Py.truthy year then
    match Py.int year with
    | Some y => (Py.PyInt y, Py.PyNone, WholeYear y)
    | None => (Py.PyNone, Py.PyNone, AllTime)
    end
  else (year, month, AllTime).

(** The rows of the selected queryset; running a [date_seen__year] lookup
    for a year outside 1..9999 raises. *)
Definition run_selection (sel : selection) (base_sightings : list Sighting)
    : result exception (list Sighting) :=
  match sel with
  | AllTime => Ok base_sightings
  | WholeYear y =>
      if decide (1 ≤ y ≤ 9999)
      then Ok (filter (λ s, year (date_seen s) = y) base_sightings)
      else Raise DateRangeError
  | YearMonth y m =>
      if decide (1 ≤ y ≤ 9999)
      then Ok (filter (λ s, year (date_seen s) = y ∧ month (date_seen s) = m)
                 base_sightings)
      else Raise DateRangeError
  end.

(** [monthlist], without the index of available years and months (lines
    437-484) and the text of [month_name]. *)
Definition monthlist (order_by : list annotated → list annotated)
    (q : query) (base_sightings : list Sighting)
    : result exception monthlist_context :=
  let page_size := default "20" (q !! "page_size") in
  let page := get_default q "page" (Py.PyInt 1) in
  let '(year_val, month_val, sel) := select (get q "year") (get q "month") in
  match run_selection sel base_sightings with
  | Raise e => Raise e
  | Ok filtered_sightings =>
      let bird_sightings := bird_sightings order_by filtered_sightings in
      let entries :=
        monthlist_entries order_by base_sightings filtered_sightings in
      let total := Z.of_nat (length bird_sightings) in
      let paginated :=
        if decide (page_size = "all") then Ok (entries, None, false)
        else
          match page_or_first entries page_size page with
          | Raise e => Raise (Uncaught e)
          | Ok page_obj =>
              Ok (Paginator.page_object_list page_obj, Some page_obj,
                  bool_decide (1 < Paginator.page_num_pages page_obj))
          end in
      match paginated with
      | Raise e => Raise e
      | Ok (shown, page_obj, is_paginated) =>
          let month_stats :=
            match sel with
            | YearMonth y m =>
                match month_new_species base_sightings y m with
                | Some n =>
                    Ok (Some (mkStats (Z.of_nat (length filtered_sightings))
                                (Z.of_nat (length bird_sightings)) n))
                | None => Raise DateRangeError
                end
            | _ => Ok None
            end in
          match month_stats with
          | Raise e => Raise e
          | Ok month_stats =>
              (* month_name = calendar.month_name[month] *)
              match month_val with
              | Py.PyStr s =>
                  if Py.truthy month_val then Raise TypeError
                  else Ok (mkMonthlist shown total year_val month_val
                             month_stats page_obj is_paginated page_size)
              | _ =>
                  Ok (mkMonthlist shown total year_val month_val month_stats
                        page_obj is_paginated page_size)
              end
          end
      end
  end.

End MonthList.

(** ** What the views keep true of the database *)

Module Invariants.
Export Paths.

(** The row [form.save()] of [location_edit] leaves in the place of a
    row: the edited row with the cleaned values, every other row as it
    was. *)
Definition saved_row (i : Z) (c : location_cleaned) (l : Location) : Location :=
  if decide (loc_id l = i)
  then mkLocation i (cleaned_location_name c)
         (loc_id <$> cleaned_parent_location c)
  else l.

End Invariants.

(** ** [bird_bulk_delete] ([views/bird_views.py], lines 174-216) and its
    form ([forms.py], lines 160-172) *)

Module BulkViews.
Export Invariants.

(** The range of the primary-key column, and what the database driver
    does with a key outside it in [id__in]: it raises (SQLite's
    [OverflowError]) or finds no row (PostgreSQL). *)
Record key_backend := mkKeyBackend {
  key_min : Z;
  key_max : Z;
  out_of_range_raises : bool
}.

(** [data.split(',')]. *)
Definition split_comma (data : string) : list string :=
  String.string_of_list_ascii
    <$> split_on ","%char (String.list_ascii_of_string data).

(** [BirdBulkDeleteForm]: the required [CharField], stripped, then
    [clean_selected_birds]: [[int(id) for id in data.split(',') if id]],
    refused when an [int] raises [ValueError] or when the list is empty.
    (The interpreter's limit on the number of digits [int] converts is
    not in the model.) *)
Definition clean_selected_birds (raw : option string) : option (list Z) :=
  let data := clean_text (default "" raw) in
  if decide (data = "") then None
  else
    match mapM Py.int_of_str (filter (λ id, id ≠ "") (split_comma data)) with
    | Some [] => None
    | Some bird_ids => Some bird_ids
    | None => None
    end.

(** [Sighting.objects.filter(bird=bird_obj).count()]. *)
Definition bird_sighting_count (db : DB) (bird_obj : Bird) : nat :=
  length (filter (λ s, bird s = bird_id bird_obj) (sightings db)).

(** [f'"{bird_obj.english_name}" ({sighting_count} sightings)']. *)
Definition with_sightings_text (db : DB) (bird_obj : Bird) : string :=
  quoted (english_name bird_obj) +:+ " ("
  +:+ pretty (bird_sighting_count db bird_obj) +:+ " sightings)".

(** [for bird_obj in birds_to_delete: bird_obj.delete()]. *)
Definition delete_birds (birds_to_delete : list Bird) (db : DB) : DB :=
  foldl (λ db bird_obj, Bird_delete bird_obj db) db birds_to_delete.

Definition bird_bulk_delete (be : key_backend) (m : http_method)
    (post : form_data) (db : DB) : response * DB :=
  match m with
  | GET => (Http405, db)
  | POST =>
      match clean_selected_birds (post !! "selected_birds") with
      | None => (JsonResponse false "Invalid request.", db)
      | Some bird_ids =>
          if out_of_range_raises be
             && negb (bool_decide
                        (Forall (λ i, key_min be ≤ i ≤ key_max be) bird_ids))
          then (ServerError, db)
          else
            (* Bird.objects.filter(id__in=bird_ids) *)
            let birds := filter (λ b, bird_id b ∈ bird_ids) (birds db) in
            let birds_with_sightings :=
              with_sightings_text db
                <$> filter (λ b, (0 < bird_sighting_count db b)%nat) birds in
            let birds_to_delete :=
              filter (λ b, ¬ (0 < bird_sighting_count db b)%nat) birds in
            if decide (birds_with_sightings ≠ []) then
              (JsonResponse false
                 ("Cannot delete the following birds because they have sightings: "
                  +:+ join ", " birds_with_sightings
                  +:+ ". Please delete their sightings first."), db)
            else
              let deleted_count := length birds_to_delete in
              let deleted_names := english_name <$> birds_to_delete in
              (JsonResponse true
                 ("Successfully deleted " +:+ pretty deleted_count
                  +:+ " bird(s): " +:+ join ", " deleted_names +:+ "."),
               delete_birds birds_to_delete db)
      end
  end.

End BulkViews.

(** ** [trip_add] and [trip_edit] ([views/trip_views.py], lines 48-98 and
    136-195) and [Trip.duration] ([models.py], lines 60-61) *)

Module TripViews.
Export BulkViews.

(** [datetime.strptime(s, '%Y-%m-%d').date()]: the format [Ymd_dashes]
    of [strptime], on the value as it was posted (the views do not strip
    it).  [None] is [ValueError]. *)
Definition strptime_ymd (s : string) : option date :=
  match split_on "-"%char (String.list_ascii_of_string s) with
  | [Y; m; d] =>
      y' ← re_Y Y; m' ← re_m m; d' ← re_d d; Py.mk_date y' m' d'
  | _ => None
  end.

(** [date.toordinal()], as [datetime.py] computes it. *)
Definition days_before_year (y : Z) : Z :=
  let y := y - 1 in y * 365 + y / 4 - y / 100 + y / 400.

Definition DAYS_BEFORE_MONTH : list Z :=
  [-1; 0; 31; 59; 90; 120; 151; 181; 212; 243; 273; 304; 334].

Definition days_before_month (y m : Z) : Z :=
  DAYS_BEFORE_MONTH !!! Z.to_nat m
  + (if (2 <? m) && Py.is_leap y then 1 else 0).

Definition toordinal (d : date) : Z :=
  days_before_year (year d) + days_before_month (year d) (month d) + day d.

(** [Trip.duration]: [(self.end_date - self.start_date).days + 1]. *)
Definition duration (t : Trip) : Z :=
  toordinal (end_date t) - toordinal (start_date t) + 1.

(** Whether the database stores a row: the views do not check the length
    of [trip_name] against [max_length=200], nor the characters of the
    texts; SQLite stores every row, PostgreSQL refuses some with an error
    the views do not catch. *)
Record storage := mkStorage { stores : Trip → bool }.

Definition trip_template : string := "birdapp/trip_form.html".

(** The validation both views share: the three required values, the two
    dates, their order. *)
Definition validate_trip (post : form_data)
    : result string (string * date * date * string) :=
  let trip_name := post !! "trip_name" in
  let start_date := post !! "start_date" in
  let end_date := post !! "end_date" in
  let description := default "" (post !! "description") in
  match trip_name, start_date, end_date with
  | Some trip_name, Some start_date, Some end_date =>
      if decide (trip_name = "" ∨ start_date = "" ∨ end_date = "") then
        Raise "Trip name, start date, and end date are required."
      else
        match strptime_ymd start_date with
        | None => Raise "Invalid date format."
        | Some start_date_obj =>
            match strptime_ymd end_date with
            | None => Raise "Invalid date format."
            | Some end_date_obj =>
                if decide (Py.date_lt end_date_obj start_date_obj) then
                  Raise "End date cannot be before start date."
                else Ok (trip_name, start_date_obj, end_date_obj, description)
            end
        end
  | _, _, _ => Raise "Trip name, start date, and end date are required."
  end.

(** The primary key the database gives a new row. *)
Definition next_trip_id (db : DB) : Z :=
  1 + foldr Z.max 0 (trip_id <$> trips db).

Definition trip_add (st : storage) (m : http_method) (post : form_data)
    (db : DB) : response * DB :=
  match m with
  | GET => (Render trip_template None, db)
  | POST =>
      match validate_trip post with
      | Raise message => (Render trip_template (Some message), db)
      | Ok (trip_name, start_date_obj, end_date_obj, description) =>
          (* Trip.objects.create(...) *)
          let trip :=
            mkTrip (next_trip_id db) trip_name start_date_obj end_date_obj
              description in
          if stores st trip then
            (Redirect "trip_detail"
               ("Trip " +:+ quoted trip_name +:+ " added successfully!"),
             mkDB (birds db) (locations db) (trips db ++ [trip]) (sightings db))
          else (ServerError, db)
      end
  end.

Definition trip_edit (st : storage) (m : http_method) (i : Z)
    (post : form_data) (db : DB) : response * DB :=
  match get_trip db i with
  | None => (Http404, db)
  | Some trip_row =>
      match m with
      | GET => (Render trip_template None, db)
      | POST =>
          match validate_trip post with
          | Raise message => (Render trip_template (Some message), db)
          | Ok (trip_name, start_date_obj, end_date_obj, description) =>
              (* trip.save() *)
              let trip :=
                mkTrip (trip_id trip_row) trip_name start_date_obj
                  end_date_obj description in
              if stores st trip then
                (Redirect "trip_detail"
                   ("Trip " +:+ quoted trip_name +:+ " updated successfully!"),
                 mkDB (birds db) (locations db)
                   ((λ t, if decide (trip_id t = trip_id trip_row)
                          then trip else t) <$> trips db)
                   (sightings db))
              else (ServerError, db)
          end
      end
  end.

(** A trip as the two views write it: a name, two calendar dates, the
    end not before the start. *)
Definition well_formed_trip (t : Trip) : Prop :=
  trip_name t ≠ "" ∧ Py.valid_date (start_date t) ∧ Py.valid_date (end_date t)
  ∧ Py.date_le (start_date t) (end_date t).

Global Instance well_formed_trip_dec t : Decision (well_formed_trip t).
Proof. unfold well_formed_trip. apply _. Defined.

End TripViews.

(** ** The database under the views *)

Module Requests.
Export TripViews.

(** What the schema and the views together maintain: the locations form a
    forest, every sighting refers to a bird and a location that exist and
    to a trip that exists if it names one, and every trip is as
    [trip_add] writes it. *)

(** The rows a sighting refers to exist. *)
Definition refers (db : DB) (s : Sighting) : Prop :=
  is_Some (get_bird db (bird s))
  ∧ is_Some (get_location (locations db) (location s))
  ∧ match trip s with
    | Some t => is_Some (get_trip db t)
    | None => True
    end.

Global Instance refers_dec db s : Decision (refers db s).
Proof.
  unfold refers. repeat apply and_dec; try apply _. destruct (trip s); apply _.
Defined.

Definition consistent (db : DB) : Prop :=
  pk_unique (locations db) ∧ parent_links_acyclic (locations db)
  ∧ parent_links_valid (locations db)
  ∧ Forall (refers db) (sightings db)
  ∧ Forall well_formed_trip (trips db).

Global Instance consistent_dec db : Decision (consistent db).
Proof. unfold consistent. apply _. Defined.

(** The key of a new row is the database's choice ([AUTOINCREMENT] gives
    a key above every key the table has had, which need not be the
    successor of the greatest key it has now).  [add_sighting] and
    [trip_add] under a given key for the new row: *)
Definition add_sighting_at (k : Z) (be : backend) (m : http_method)
    (post : form_data) (db : DB) : response * DB :=
  match m with
  | GET => (Render "birdapp/add_sighting.html" None, db)
  | POST =>
      match SightingForm_clean be db post with
      | None =>
          (Render "birdapp/add_sighting.html"
             (Some "Please correct the errors below."), db)
      | Some s =>
          let sighting :=
            mkSighting k (bird s) (location s) (trip s)
              (date_seen s) (heard_not_seen s) (count s) (notes s) in
          (Redirect "add_sighting"
             ("Sighting of "
              +:+ from_option english_name "" (get_bird db (bird s))
              +:+ " recorded successfully!"),
           mkDB (birds db) (locations db) (trips db) (sightings db ++ [sighting]))
      end
  end.

Definition trip_add_at (k : Z) (st : storage) (m : http_method)
    (post : form_data) (db : DB) : response * DB :=
  match m with
  | GET => (Render trip_template None, db)
  | POST =>
      match validate_trip post with
      | Raise message => (Render trip_template (Some message), db)
      | Ok (trip_name, start_date_obj, end_date_obj, description) =>
          let trip :=
            mkTrip k trip_name start_date_obj end_date_obj description in
          if stores st trip then
            (Redirect "trip_detail"
               ("Trip " +:+ quoted trip_name +:+ " added successfully!"),
             mkDB (birds db) (locations db) (trips db ++ [trip]) (sightings db))
          else (ServerError, db)
      end
  end.

(** One request to one of these eight views that write to the database:
    the database before and after, a new row under any key the table
    does not hold.  ([bird_add], [bird_edit], [location_add],
    [location_bulk_delete] and the family views write too and are not
    part of the relation.) *)
Inductive serves (be : backend) (kb : key_backend) (st : storage)
    : DB → DB → Prop :=
  | serves_add_sighting k m post db :
      k ∉ sighting_id <$> sightings db →
      serves be kb st db (add_sighting_at k be m post db).2
  | serves_bird_delete m i db :
      serves be kb st db (bird_delete m i db).2
  | serves_bird_bulk_delete m post db :
      serves be kb st db (bird_bulk_delete kb m post db).2
  | serves_location_edit fuel m i post db r db' :
      location_edit fuel m i post db = Some (r, db') →
      serves be kb st db db'
  | serves_location_delete m i db :
      serves be kb st db (location_delete m i db).2
  | serves_trip_add k m post db :
      k ∉ trip_id <$> trips db →
      serves be kb st db (trip_add_at k st m post db).2
  | serves_trip_edit m i post db :
      serves be kb st db (trip_edit st m i post db).2
  | serves_trip_delete m i db :
      serves be kb st db (trip_delete m i db).2.

End Requests.

(** ** [location_detail] ([views/location_views.py], lines 157-218) *)

Module LocationDetail.
Export Requests.

(** What ends the view without a page: [get_object_or_404], or the
    [Location.DoesNotExist] of a parent link to a missing row. *)
Inductive failure :=
  | NotFound
  | Uncaught (e : lookup_error).

(** The context, without the keys that depend on how the database orders
    sightings of the same day ([sightings], [first_sighting],
    [latest_sighting]) and without [unique_species]. *)
Record context := mkContext {
  ctx_location : Location;
  ctx_breadcrumb_path : list Location;
  ctx_child_locations : list (Location * nat);
  direct_children_count : nat;
  total_child_locations : nat;
  total_sightings : nat
}.

(** [Sighting.objects.filter(location_id__in=location_ids)]. *)
Definition sightings_in (db : DB) (location_ids : list Z) : list Sighting :=
  filter (λ s, location s ∈ location_ids) (sightings db).

(** The body of [for child in child_locations]: the child with its
    [sighting_count]. *)
Definition child_with_count (fuel : nat) (db : DB) (child : Location)
    : option (Location * nat) :=
  all_child_descendants ← get_all_child_locations fuel (locations db) child;
  let all_child_location_ids :=
    loc_id child :: (loc_id <$> all_child_descendants) in
  Some (child, length (sightings_in db all_child_location_ids)).

Definition location_detail (fuel : nat) (i : Z) (db : DB)
    : option (result failure context) :=
  match get_location (locations db) i with
  | None => Some (Raise NotFound)
  | Some location_obj =>
      path ← breadcrumb_path fuel (locations db) location_obj;
      match path with
      | Raise e => Some (Raise (Uncaught e))
      | Ok breadcrumb_path =>
          let child_locations := children_of (locations db) location_obj in
          child_locations_with_counts ←
            mapM (child_with_count fuel db) child_locations;
          all_child_locations ←
            get_all_child_locations fuel (locations db) location_obj;
          let all_location_ids :=
            loc_id location_obj :: (loc_id <$> all_child_locations) in
          Some (Ok (mkContext location_obj breadcrumb_path
                      child_locations_with_counts
                      (length child_locations_with_counts)
                      (length all_child_locations)
                      (length (sightings_in db all_location_ids))))
      end
  end.

End LocationDetail.

(** ** Example data *)

(** A small database for the examples: two birds, a three-level chain of
    locations A > B > C, one trip, three sightings. *)
Definition sample_db : DB :=
  mkDB [ mkBird 1 "Robin"; mkBird 2 "Sparrow" ]
       [ mkLocation 1 "A" None; mkLocation 2 "B" (Some 1);
         mkLocation 3 "C" (Some 2); mkLocation 4 "D" None ]
       [ mkTrip 1 "Spring" (Date 2023 3 1) (Date 2023 3 9) "" ]
       [ mkSighting 1 1 3 (Some 1) (Date 2023 3 2) false 2 "";
         mkSighting 2 1 3 None (Date 2023 6 1) true 1 "";
         mkSighting 3 1 2 (Some 1) (Date 2023 3 3) false 4 "garden" ].

(** The edit that would make A (1) a child of C (3) in the chain
    A > B > C of [sample_db]. *)
Definition post_A_under_C : gmap string string :=
  {[ "location_name" := "A"; "parent_location" := "3" ]}.

(** The integer range of PostgreSQL and MySQL. *)
Definition int32_backend : FormViews.backend :=
  FormViews.mkBackend (-2147483648) 2147483647.

(** A submission with a count of zero. *)
Definition post_count_zero : gmap string string :=
  {[ "bird" := "1"; "location" := "3"; "date_seen" := "2023-07-01";
     "count" := "0" ]}.


(** The scenario of the specification: Robin (bird 1) seen on 2023-01-05
    and 2023-06-01, Sparrow (bird 2) seen on 2023-03-01. *)
Definition species_scenario : list Sighting :=
  [ mkSighting 1 1 1 None (Date 2023 1 5) false 1 "";
    mkSighting 2 1 1 None (Date 2023 6 1) false 1 "";
    mkSighting 3 2 1 None (Date 2023 3 1) false 1 "" ].

Definition robin_entry : Aggregator.entry :=
  Aggregator.mkEntry 1 (mkSighting 1 1 1 None (Date 2023 1 5) false 1 "")
    (Date 2023 1 5) (Date 2023 6 1) 2 false.

Definition sparrow_entry : Aggregator.entry :=
  Aggregator.mkEntry 2 (mkSighting 3 2 1 None (Date 2023 3 1) false 1 "")
    (Date 2023 3 1) (Date 2023 3 1) 1 true.

(** The scenario of the specification: Robin (bird 1) seen in 2022 and in
    2023, Sparrow (bird 2) seen in 2023 only. *)
Definition delta_scenario : list Sighting :=
  [ mkSighting 1 1 1 None (Date 2022 5 1) false 1 "";
    mkSighting 2 1 1 None (Date 2023 2 1) false 1 "";
    mkSighting 3 2 1 None (Date 2023 4 1) false 1 "" ].

(** Twenty-three birds, each seen once, on twenty-three consecutive
    days of January 2023. *)
Definition sightings_23 : list Sighting :=
  (λ i, mkSighting i i 1 None (Date 2023 1 i) false 1 "") <$> seqZ 1 23.

(** A submission in the lenient forms the fields accept: a day written
    with a space, a count written with a decimal point. *)
Definition post_lenient : gmap string string :=
  {[ "bird" := "2"; "location" := "3"; "date_seen" := " 2023-07- 1 ";
     "count" := "5.0"; "notes" := " at dusk " ]}.

(** The sample database after the deletion of its trip and the saving
    of that submission under the key 10. *)
Definition db_after_requests : DB :=
  (Requests.add_sighting_at 10 int32_backend RecordViews.POST post_lenient
     (RecordViews.trip_delete RecordViews.POST 1 sample_db).2).2.

(** ** Facts about the Python built-ins *)

Example int_of_str_examples :
  Py.int_of_str "20" = Some 20 ∧ Py.int_of_str " -3 " = Some (-3)
  ∧ Py.int_of_str "1_000" = Some 1000 ∧ Py.int_of_str "abc" = None
  ∧ Py.int_of_str "" = None ∧ Py.int_of_str "2.0" = None ∧ Py.int_of_str "all" = None.
Proof. done. Qed.

(** ** Facts about the location hierarchy *)

Section HierarchyFacts.
Import Hierarchy.

Example get_all_child_locations_forest :
  get_all_child_locations 4 forest_locs (mkLocation 1 "Canada" None)
  = Some [ mkLocation 2 "Quebec" (Some 1); mkLocation 3 "Montreal" (Some 2) ].
Proof. reflexivity. Qed.

Lemma children_of_elem locs l c :
  c ∈ children_of locs l ↔ parent_location c = Some (loc_id l) ∧ c ∈ locs.
Proof. unfold children_of. by rewrite list_elem_of_filter. Qed.

Lemma get_location_elem locs l :
  pk_unique locs → l ∈ locs → get_location locs (loc_id l) = Some l.
Proof.
  unfold pk_unique, get_location. intros Hnd Hin.
  destruct (list_find (λ x, loc_id x = loc_id l) locs) as [[i q]|] eqn:Hf.
  - apply list_find_Some in Hf as (Hq & Heq & _).
    apply list_elem_of_lookup in Hin as [j Hj]. simpl. f_equal.
    assert (i = j) as ->.
    { eapply NoDup_lookup; [exact Hnd| |]; rewrite list_lookup_fmap.
      - by rewrite Hq.
      - rewrite Hj. simpl. by rewrite Heq. }
    congruence.
  - apply list_find_None in Hf. rewrite Forall_forall in Hf.
    by destruct (Hf l Hin).
Qed.

Lemma depth_lt fuel locs l d : depth fuel locs l = Some d → (d < fuel)%nat.
Proof.
  revert l d. induction fuel as [|f IH]; intros l d; simpl; [done|].
  destruct (parent_location l) as [p|]; [|intros [= <-]; lia].
  destruct (get_location locs p) as [q|]; [|intros [= <-]; lia].
  destruct (depth f locs q) as [dq|] eqn:Hq; simpl; [|done].
  intros [= <-]. apply IH in Hq. lia.
Qed.

Lemma depth_mono fuel locs l d :
  depth fuel locs l = Some d → depth (S fuel) locs l = Some d.
Proof.
  revert l d. induction fuel as [|f IH]; intros l d; [done|].
  intros H. simpl in H. change (depth (S (S f)) locs l) with
    (match parent_location l with
     | None => Some O
     | Some p => match get_location locs p with
                 | None => Some O
                 | Some q => S <$> depth (S f) locs q
                 end
     end).
  destruct (parent_location l) as [p|]; [|done].
  destruct (get_location locs p) as [q|]; [|done].
  destruct (depth f locs q) as [dq|] eqn:Hq; simpl in H; [|done].
  by rewrite (IH _ _ Hq).
Qed.

(** A child sits one level below its parent. *)
Lemma depth_child locs l c dl dc :
  pk_unique locs → l ∈ locs →
  parent_location c = Some (loc_id l) →
  depth (length locs) locs l = Some dl →
  depth (length locs) locs c = Some dc →
  dc = S dl.
Proof.
  intros Hpk Hl Hp Hdl Hdc.
  destruct (length locs) as [|n] eqn:Hn; [done|].
  simpl in Hdc. rewrite Hp, (get_location_elem _ _ Hpk Hl) in Hdc.
  destruct (depth n locs l) as [d|] eqn:Hd; simpl in Hdc; [|done].
  apply depth_mono in Hd. congruence.
Qed.

Lemma get_all_child_locations_mono fuel locs l r :
  get_all_child_locations fuel locs l = Some r →
  get_all_child_locations (S fuel) locs l = Some r.
Proof.
  revert l r. induction fuel as [|f IH]; intros l r; [done|].
  intros H.
  change (get_all_child_locations (S (S f)) locs l) with
    (rest ← mapM (get_all_child_locations (S f) locs) (children_of locs l);
     Some (children_of locs l ++ concat rest)).
  simpl in H.
  destruct (mapM (get_all_child_locations f locs) (children_of locs l))
    as [rest|] eqn:Hm; simpl in H; [|done].
  assert (mapM (get_all_child_locations (S f) locs) (children_of locs l)
          = Some rest) as ->; [|done].
  apply mapM_Some. apply mapM_Some in Hm.
  eapply Forall2_impl; [exact Hm|]. intros x y Hxy. by apply IH.
Qed.

Lemma get_all_child_locations_mono_le f1 f2 locs l r :
  (f1 ≤ f2)%nat →
  get_all_child_locations f1 locs l = Some r →
  get_all_child_locations f2 locs l = Some r.
Proof.
  induction 1 as [|f2 _ IH]; [done|].
  intros H. by apply get_all_child_locations_mono, IH.
Qed.

(** Below a row of depth [d] the recursion needs at most
    [length locs - d] nested calls. *)
Lemma get_all_child_locations_row locs :
  pk_unique locs → parent_links_acyclic locs →
  ∀ k l d, l ∈ locs → depth (length locs) locs l = Some d →
    (length locs ≤ d + k)%nat →
    is_Some (get_all_child_locations k locs l).
Proof.
  intros Hpk Hac. induction k as [|k IH]; intros l d Hl Hd Hk.
  { apply depth_lt in Hd. lia. }
  simpl.
  assert (is_Some (mapM (get_all_child_locations k locs) (children_of locs l)))
    as [rest ->]; [|by eexists].
  apply mapM_is_Some, Forall_forall. intros c Hc.
  apply children_of_elem in Hc as [Hp Hcin]. simpl.
  unfold parent_links_acyclic in Hac. rewrite Forall_forall in Hac.
  destruct (Hac c Hcin) as [dc Hdc].
  pose proof (depth_child _ _ _ _ _ Hpk Hl Hp Hd Hdc) as ->.
  apply (IH c (S d)); [done..|lia].
Qed.

End HierarchyFacts.

(** C1 (as the code has it): [get_all_child_locations] has no depth cap.
    On a table with unique primary keys whose parent links hold no cycle,
    the recursion returns a list for every location, and the same list for
    every recursion depth above the number of rows.  Nothing is promised on
    a cyclic table. *)
Theorem get_all_child_locations_returns_when_acyclic
    (locs : list Location) (l : Location) :
  Hierarchy.pk_unique locs →
  Hierarchy.parent_links_acyclic locs →
  ∃ r, ∀ fuel, (length locs < fuel)%nat →
    Hierarchy.get_all_child_locations fuel locs l = Some r.
Proof.
  intros Hpk Hac.
  assert (is_Some (Hierarchy.get_all_child_locations (S (length locs)) locs l))
    as [r Hr].
  { simpl.
    assert (is_Some (mapM (Hierarchy.get_all_child_locations (length locs) locs)
                       (Hierarchy.children_of locs l))) as [rest ->];
      [|by eexists].
    apply mapM_is_Some, Forall_forall. intros c Hc.
    apply children_of_elem in Hc as [_ Hcin]. simpl.
    pose proof Hac as Hac'. unfold Hierarchy.parent_links_acyclic in Hac'.
    rewrite Forall_forall in Hac'. destruct (Hac' c Hcin) as [dc Hdc].
    apply (get_all_child_locations_row locs Hpk Hac _ c dc); [done..|lia]. }
  exists r. intros fuel Hfuel.
  by apply (get_all_child_locations_mono_le (S (length locs))); [lia|].
Qed.

Lemma get_all_child_locations_returns_when_acyclic_witness :
  ∃ r, ∀ fuel, (length Hierarchy.forest_locs < fuel)%nat →
    Hierarchy.get_all_child_locations fuel Hierarchy.forest_locs
      (mkLocation 1 "Canada" None) = Some r.
Proof.
  apply (get_all_child_locations_returns_when_acyclic Hierarchy.forest_locs).
  - decide_by_compute.
  - decide_by_compute.
Defined.

Lemma get_all_child_locations_cyclic_None fuel :
  Hierarchy.get_all_child_locations fuel Hierarchy.cyclic_locs
    (mkLocation 1 "A" (Some 2)) = None
  ∧ Hierarchy.get_all_child_locations fuel Hierarchy.cyclic_locs
      (mkLocation 2 "B" (Some 1)) = None.
Proof.
  induction fuel as [|f [IHa IHb]]; [done|].
  split.
  - change (Hierarchy.get_all_child_locations (S f) Hierarchy.cyclic_locs
              (mkLocation 1 "A" (Some 2)))
      with (rest ← (y ← Hierarchy.get_all_child_locations f Hierarchy.cyclic_locs
                          (mkLocation 2 "B" (Some 1));
                    k ← Some []; Some (y :: k));
            Some ([mkLocation 2 "B" (Some 1)] ++ concat rest)).
    by rewrite IHb.
  - change (Hierarchy.get_all_child_locations (S f) Hierarchy.cyclic_locs
              (mkLocation 2 "B" (Some 1)))
      with (rest ← (y ← Hierarchy.get_all_child_locations f Hierarchy.cyclic_locs
                          (mkLocation 1 "A" (Some 2));
                    k ← Some []; Some (y :: k));
            Some ([mkLocation 1 "A" (Some 2)] ++ concat rest)).
    by rewrite IHa.
Qed.

(** C1 as stated fails: on the two-row table in which A and B are each
    other's parent, no recursion depth makes the call return a list. *)
Lemma get_all_child_locations_cycle_never_returns :
  ¬ ∃ fuel r,
      Hierarchy.get_all_child_locations fuel Hierarchy.cyclic_locs
        (mkLocation 1 "A" (Some 2)) = Some r.
Proof.
  intros (fuel & r & H).
  destruct (get_all_child_locations_cyclic_None fuel) as [Ha _]. congruence.
Qed.

(** ** Facts about pagination *)

Section PaginatorFacts.
Import ListViews.
Context {A : Type}.
Implicit Types (p : Paginator.t A) (v : Py.value).

Lemma num_pages_ge_1 p : 0 < Paginator.per_page p → 1 ≤ Paginator.num_pages p.
Proof.
  intros Hpp. unfold Paginator.num_pages.
  assert ((- Z.max 1 (Paginator.count p)) `div` Paginator.per_page p < 0); [|lia].
  apply Z.div_lt_upper_bound; lia.
Qed.

Lemma validate_number_Ok p v n :
  Py.int v = Some n → 1 ≤ n ≤ Paginator.num_pages p →
  Paginator.validate_number p v = Ok n.
Proof.
  intros Hv Hn. unfold Paginator.validate_number. rewrite Hv.
  by rewrite !decide_False by lia.
Qed.

Lemma validate_number_EmptyPage p v n :
  Py.int v = Some n → ¬ (1 ≤ n ≤ Paginator.num_pages p) →
  Paginator.validate_number p v = Raise Paginator.EmptyPage.
Proof.
  intros Hv Hn. unfold Paginator.validate_number. rewrite Hv.
  case_decide; [done|]. by rewrite decide_True by lia.
Qed.

Lemma validate_number_PageNotAnInteger p v :
  Py.int v = None →
  Paginator.validate_number p v = Raise Paginator.PageNotAnInteger.
Proof. intros Hv. unfold Paginator.validate_number. by rewrite Hv. Qed.

(** [page(n)] for a page number in range. *)
Lemma page_in_range p v n :
  Py.int v = Some n → 1 ≤ n ≤ Paginator.num_pages p →
  ∃ pg, Paginator.page p v = Ok pg
        ∧ Paginator.number pg = n
        ∧ Paginator.page_num_pages pg = Paginator.num_pages p.
Proof.
  intros Hv Hn. unfold Paginator.page.
  rewrite (validate_number_Ok _ _ _ Hv Hn). by eexists.
Qed.

(** [get_page] never raises and clamps to the last page. *)
Lemma get_page_clamps p v :
  0 < Paginator.per_page p →
  ∃ pg, Paginator.get_page p v = Ok pg
        ∧ Paginator.number pg
          = clamp_to_last (Paginator.num_pages p) (Py.int v)
        ∧ Paginator.page_num_pages pg = Paginator.num_pages p.
Proof.
  intros Hpp. pose proof (num_pages_ge_1 p Hpp) as Hnp.
  unfold Paginator.get_page, clamp_to_last.
  destruct (Py.int v) as [n|] eqn:Hv.
  - case_decide as Hn.
    + rewrite (validate_number_Ok _ _ _ Hv Hn).
      by apply page_in_range.
    + rewrite (validate_number_EmptyPage _ _ _ Hv Hn).
      apply page_in_range; [done|lia].
  - rewrite (validate_number_PageNotAnInteger _ _ Hv).
    apply page_in_range; [done|lia].
Qed.

(** [page], and page 1 when it raises: never raises and clamps to the
    first page. *)
Lemma page_or_page_1 p v :
  0 < Paginator.per_page p →
  ∃ pg, match Paginator.page p v with
        | Ok pg => Ok pg
        | Raise _ => Paginator.page p (Py.PyInt 1)
        end = Ok pg
        ∧ Paginator.number pg
          = clamp_to_first (Paginator.num_pages p) (Py.int v)
        ∧ Paginator.page_num_pages pg = Paginator.num_pages p.
Proof.
  intros Hpp. pose proof (num_pages_ge_1 p Hpp) as Hnp.
  assert (∃ pg, Paginator.page p (Py.PyInt 1) = Ok pg
                ∧ Paginator.number pg = 1
                ∧ Paginator.page_num_pages pg = Paginator.num_pages p)
    as Hfirst by (apply page_in_range; [done|lia]).
  unfold clamp_to_first. destruct (Py.int v) as [n|] eqn:Hv.
  - case_decide as Hn.
    + destruct (page_in_range p v n Hv Hn) as (pg & -> & ?). by exists pg.
    + unfold Paginator.page at 1.
      by rewrite (validate_number_EmptyPage _ _ _ Hv Hn).
  - unfold Paginator.page at 1.
    by rewrite (validate_number_PageNotAnInteger _ _ Hv).
Qed.

Lemma locationlist_page_clamps (species_list : list A) (q : query) :
  ∃ pg, locationlist_page species_list q = Ok pg
        ∧ Paginator.number pg
          = clamp_to_last (Paginator.num_pages (Paginator.mk species_list 20))
              (Py.int (get q "page"))
        ∧ Paginator.page_num_pages pg
          = Paginator.num_pages (Paginator.mk species_list 20).
Proof.
  unfold locationlist_page.
  destruct (get_page_clamps (Paginator.mk species_list 20) (get q "page"))
    as (pg & -> & ?); [done|]. by exists pg.
Qed.

Lemma page_or_first_clamps (entries : list A) (page_size : string) v :
  ∃ pg, page_or_first entries page_size v = Ok pg
        ∧ Paginator.number pg
          = clamp_to_first (Paginator.page_num_pages pg) (Py.int v).
Proof.
  unfold page_or_first.
  set (pp := match Py.int_of_str page_size with
             | Some n => if decide (n ≤ 0) then 20 else n
             | None => 20
             end).
  assert (0 < pp) as Hpp.
  { subst pp. destruct (Py.int_of_str page_size); [case_decide|]; lia. }
  destruct (page_or_page_1 (Paginator.mk entries pp) v Hpp)
    as (pg & -> & Hn & Hnp).
  exists pg. split; [done|]. by rewrite Hnp.
Qed.

Lemma page_slice_take (l : list A) (per k : Z) :
  0 < per → 1 ≤ k →
  Paginator.slice l ((k - 1) * per)
    (if decide (Z.of_nat (length l) ≤ (k - 1) * per + per)
     then Z.of_nat (length l) else (k - 1) * per + per)
  = take (Z.to_nat per) (drop (Z.to_nat ((k - 1) * per)) l).
Proof.
  intros Hper Hk. unfold Paginator.slice.
  assert (0 ≤ (k - 1) * per) as Hb by nia.
  generalize dependent ((k - 1) * per). intros b Hb.
  case_decide as Hlast.
  - rewrite !take_ge; [done|rewrite length_drop; lia|rewrite length_drop; lia].
  - f_equal. lia.
Qed.

(** [page(n)] for a page number in range is page [n] of the list. *)
Lemma page_is_page_at p v n :
  0 < Paginator.per_page p →
  Py.int v = Some n → 1 ≤ n ≤ Paginator.num_pages p →
  Paginator.page p v
  = Ok (page_at (Paginator.object_list p) (Paginator.per_page p) n).
Proof.
  intros Hpp Hv Hn. unfold Paginator.page, page_at.
  rewrite (validate_number_Ok _ _ _ Hv Hn). unfold Paginator.count.
  rewrite page_slice_take by lia. by destruct p.
Qed.

Lemma get_page_at p v :
  0 < Paginator.per_page p →
  Paginator.get_page p v
  = Ok (page_at (Paginator.object_list p) (Paginator.per_page p)
          (clamp_to_last (Paginator.num_pages p) (Py.int v))).
Proof.
  intros Hpp. pose proof (num_pages_ge_1 p Hpp) as Hnp.
  unfold Paginator.get_page, clamp_to_last.
  destruct (Py.int v) as [n|] eqn:Hv.
  - case_decide as Hn.
    + rewrite (validate_number_Ok _ _ _ Hv Hn).
      by apply page_is_page_at.
    + rewrite (validate_number_EmptyPage _ _ _ Hv Hn).
      apply page_is_page_at; [done|done|lia].
  - rewrite (validate_number_PageNotAnInteger _ _ Hv).
    apply page_is_page_at; [done|done|lia].
Qed.


Lemma page_size_or_20_pos page_size : 0 < page_size_or_20 page_size.
Proof.
  unfold page_size_or_20.
  destruct (Py.int_of_str page_size); [case_decide|]; lia.
Qed.

Lemma page_or_first_at (entries : list A) (page_size : string) v :
  page_or_first entries page_size v
  = Ok (page_at entries (page_size_or_20 page_size)
          (clamp_to_first
             (Paginator.num_pages
                (Paginator.mk entries (page_size_or_20 page_size)))
             (Py.int v))).
Proof.
  unfold page_or_first. fold (page_size_or_20 page_size).
  pose proof (page_size_or_20_pos page_size) as Hpp.
  set (p := Paginator.mk entries (page_size_or_20 page_size)).
  pose proof (num_pages_ge_1 p Hpp) as Hnp.
  assert (Paginator.page p (Py.PyInt 1) = Ok (page_at entries (page_size_or_20 page_size) 1))
    as Hfirst by (apply (page_is_page_at p); [done|done|lia]).
  unfold clamp_to_first. destruct (Py.int v) as [n|] eqn:Hv.
  - case_decide as Hn.
    + by rewrite (page_is_page_at p v n Hpp Hv Hn).
    + unfold Paginator.page at 1.
      rewrite (validate_number_EmptyPage _ _ _ Hv Hn). by rewrite Hfirst.
  - unfold Paginator.page at 1.
    rewrite (validate_number_PageNotAnInteger _ _ Hv). by rewrite Hfirst.
Qed.

End PaginatorFacts.

(** ** Facts about the list views *)

Section ListFacts.
Import ListViews.
Variable order_by : list annotated → list annotated.

(** The page size [lifelist] works with, after the whitelist. *)
Lemma lifelist_cases (q : query) (table : list Sighting) :
  let entries := lifelist_entries order_by table in
  let total := Z.of_nat (length entries) in
  let page := get_default q "page" (Py.PyInt 1) in
  let raw := default "20" (q !! "page_size") in
  let page_size := if decide (raw ∈ valid_page_sizes) then raw else "20" in
  (page_size = "all"
   ∧ lifelist order_by q table = Ok (mkLifelist entries total None "all" false))
  ∨ (∃ n pg, page_size ≠ "all" ∧ n ∈ [10; 20; 50]
       ∧ Py.int_of_str page_size = Some n
       ∧ Paginator.get_page (Paginator.mk entries n) page = Ok pg
       ∧ Paginator.number pg
         = clamp_to_last (Paginator.page_num_pages pg) (Py.int page)
       ∧ lifelist order_by q table
         = Ok (mkLifelist (Paginator.page_object_list pg) total (Some pg)
                 page_size
                 (bool_decide (1 < Paginator.num_pages (Paginator.mk entries n))))).
Proof.
  cbn zeta. unfold lifelist.
  set (ps := if decide (default "20" (q !! "page_size") ∈ valid_page_sizes)
             then default "20" (q !! "page_size") else "20").
  assert (ps ∈ valid_page_sizes) as Hps.
  { subst ps. case_decide; [done|]. decide_by_compute. }
  clearbody ps. unfold valid_page_sizes in Hps.
  assert (∀ n, 0 < n →
    ∃ pg, Paginator.get_page
            (Paginator.mk (lifelist_entries order_by table) n)
            (get_default q "page" (Py.PyInt 1)) = Ok pg
          ∧ Paginator.number pg
            = clamp_to_last (Paginator.page_num_pages pg)
                (Py.int (get_default q "page" (Py.PyInt 1)))) as Hpage.
  { intros n Hn.
    destruct (get_page_clamps
                (Paginator.mk (lifelist_entries order_by table) n)
                (get_default q "page" (Py.PyInt 1)) Hn) as (pg & Hpg & Hnum & Hnp).
    exists pg. by rewrite Hnp. }
  repeat (apply elem_of_cons in Hps as [->|Hps]);
    [| | |left; by rewrite decide_True|by apply elem_of_nil in Hps].
  - right. destruct (Hpage 10) as (pg & Hpg & Hnum); [done|].
    exists 10, pg. rewrite decide_False by done.
    change (Py.int_of_str "10") with (Some 10). cbn beta iota.
    rewrite Hpg. cbn. repeat split; [done|decide_by_compute|done].
  - right. destruct (Hpage 20) as (pg & Hpg & Hnum); [done|].
    exists 20, pg. rewrite decide_False by done.
    change (Py.int_of_str "20") with (Some 20). cbn beta iota.
    rewrite Hpg. cbn. repeat split; [done|decide_by_compute|done].
  - right. destruct (Hpage 50) as (pg & Hpg & Hnum); [done|].
    exists 50, pg. rewrite decide_False by done.
    change (Py.int_of_str "50") with (Some 50). cbn beta iota.
    rewrite Hpg. cbn. repeat split; [done|decide_by_compute|done].
Qed.

(** [lifelist] with a page size of the whitelist other than [all]: the
    page [get_page] gives, of the entries at that size. *)
Lemma lifelist_paged (q : query) (table : list Sighting) (ps : string)
    (per : Z) :
  (if decide (default "20" (q !! "page_size") ∈ valid_page_sizes)
   then default "20" (q !! "page_size") else "20") = ps →
  ps ≠ "all" → Py.int_of_str ps = Some per → 0 < per →
  let entries := lifelist_entries order_by table in
  let pg :=
    page_at entries per
      (clamp_to_last (Paginator.num_pages (Paginator.mk entries per))
         (Py.int (get_default q "page" (Py.PyInt 1)))) in
  lifelist order_by q table
  = Ok (mkLifelist (Paginator.page_object_list pg)
          (Z.of_nat (length entries)) (Some pg) ps
          (bool_decide (1 < Paginator.num_pages (Paginator.mk entries per)))).
Proof.
  intros Hps Hall Hint Hper. cbn zeta. unfold lifelist. rewrite Hps.
  rewrite decide_False by done. rewrite Hint.
  by rewrite (get_page_at (Paginator.mk (lifelist_entries order_by table) per)).
Qed.

(** C10: [lifelist] never raises.  A [page_size] outside the whitelist
    gives exactly the answer of the same request with [page_size=20], and
    that answer is the pagination of the entries at 20 a page: the page
    shown is the page [get_page] selects among the pages of 20 entries,
    the page size reads 20.  A [page_size] of the whitelist other than
    [all] paginates at that size.  [page_size=all] gives every entry in
    one list, with no page object. *)
Theorem lifelist_page_size_whitelist (q : query) (table : list Sighting) :
  let entries := lifelist_entries order_by table in
  let page_of per :=
    page_at entries per
      (clamp_to_last (Paginator.num_pages (Paginator.mk entries per))
         (Py.int (get_default q "page" (Py.PyInt 1)))) in
  let paged ps per :=
    Ok (mkLifelist (Paginator.page_object_list (page_of per))
          (Z.of_nat (length entries)) (Some (page_of per)) ps
          (bool_decide (1 < Paginator.num_pages (Paginator.mk entries per)))) in
  (∃ ctx, lifelist order_by q table = Ok ctx)
  ∧ (∀ s, q !! "page_size" = Some s → s ∉ valid_page_sizes →
       lifelist order_by q table
       = lifelist order_by (<["page_size" := "20"]> q) table
       ∧ lifelist order_by q table = paged "20" 20
       ∧ ∃ ctx, lifelist order_by q table = Ok ctx
                ∧ ll_current_page_size ctx = "20"
                ∧ is_Some (ll_page_obj ctx))
  ∧ (q !! "page_size" = None → lifelist order_by q table = paged "20" 20)
  ∧ (∀ s per, q !! "page_size" = Some s →
       (s, per) ∈ [("10", 10); ("20", 20); ("50", 50)] →
       lifelist order_by q table = paged s per)
  ∧ (q !! "page_size" = Some "all" →
       lifelist order_by q table
       = Ok (mkLifelist (lifelist_entries order_by table)
               (Z.of_nat (length (lifelist_entries order_by table)))
               None "all" false)).
Proof.
  cbn zeta.
  pose proof (lifelist_cases q table) as Hcases. cbn zeta in Hcases.
  split; [|split; [|split; [|split]]].
  - destruct Hcases as [[_ ->]|(n & pg & _ & _ & _ & _ & _ & ->)]; by eexists.
  - intros s Hs Hnot.
    assert (lifelist order_by q table
            = Ok (mkLifelist
                    (Paginator.page_object_list
                       (page_at (lifelist_entries order_by table) 20
                          (clamp_to_last
                             (Paginator.num_pages
                                (Paginator.mk (lifelist_entries order_by table) 20))
                             (Py.int (get_default q "page" (Py.PyInt 1))))))
                    (Z.of_nat (length (lifelist_entries order_by table)))
                    (Some (page_at (lifelist_entries order_by table) 20
                             (clamp_to_last
                                (Paginator.num_pages
                                   (Paginator.mk (lifelist_entries order_by table) 20))
                                (Py.int (get_default q "page" (Py.PyInt 1))))))
                    "20"
                    (bool_decide
                       (1 < Paginator.num_pages
                              (Paginator.mk (lifelist_entries order_by table) 20)))))
      as Hpaged.
    { apply (lifelist_paged q table "20" 20); [|done|done|done].
      rewrite Hs. cbn [default from_option id]. by rewrite decide_False. }
    split; [|split; [done|]].
    + unfold lifelist, get_default.
      rewrite lookup_insert_eq, lookup_insert_ne by done. rewrite Hs.
      cbn [default from_option id].
      rewrite (decide_False (P := s ∈ valid_page_sizes)) by done.
      rewrite (decide_True (P := "20" ∈ valid_page_sizes)); [done|].
      decide_by_compute.
    + rewrite Hpaged. eexists. split; [done|]. split; [done|]. by eexists.
  - intros Hnone. apply (lifelist_paged q table "20" 20); [|done|done|done].
    rewrite Hnone. cbn [default from_option id]. rewrite decide_True; [done|].
    decide_by_compute.
  - intros s per Hs Hin.
    assert (s ∈ valid_page_sizes ∧ s ≠ "all" ∧ Py.int_of_str s = Some per
            ∧ 0 < per) as (Hv & Hne & Hint & Hper).
    { repeat (apply elem_of_cons in Hin as [[= -> ->]|Hin]);
        [| | |by apply elem_of_nil in Hin];
        (split; [decide_by_compute|]); (split; [done|]); by split. }
    apply (lifelist_paged q table s per); [|done..].
    rewrite Hs. cbn [default from_option id]. by rewrite decide_True.
  - intros Hall. rewrite Hall in Hcases. cbn [default from_option id] in Hcases.
    rewrite decide_True in Hcases by decide_by_compute.
    by destruct Hcases as [[_ ->]|(n & pg & ? & _)].
Qed.

End ListFacts.


(** ** Facts about the aggregation *)

Section DateOrder.
Import Py.

Lemma date_le_refl a : date_le a a.
Proof. unfold date_le. lia. Qed.

Lemma date_le_trans a b c : date_le a b → date_le b c → date_le a c.
Proof. unfold date_le. lia. Qed.

Lemma date_le_total a b : date_le a b ∨ date_le b a.
Proof. unfold date_le. lia. Qed.

Lemma date_le_antisym a b : date_le a b → date_le b a → a = b.
Proof.
  destruct a as [ya ma da], b as [yb mb db]. unfold date_le. cbn.
  intros H1 H2. f_equal; lia.
Qed.

Lemma date_lt_not_le a b : date_lt a b ↔ ¬ date_le b a.
Proof. unfold date_lt, date_le. lia. Qed.

Lemma date_lt_le a b : date_lt a b → date_le a b.
Proof. unfold date_lt, date_le. lia. Qed.

Lemma date_not_lt_le a b : ¬ date_lt a b → date_le b a.
Proof. unfold date_lt, date_le. lia. Qed.

(** On the dates Python can hold, "an earlier year" is "before the first
    of January". *)
Lemma year_lt_before_january d y :
  valid_date d → (year d < y ↔ date_lt d (Date y 1 1)).
Proof. unfold valid_date, date_lt. cbn. lia. Qed.

End DateOrder.

Section AggregatorFacts.
Import ListViews.

Lemma date_min_le_l a b : date_le (date_min a b) a.
Proof.
  unfold date_min. case_decide; [apply date_le_refl|].
  destruct (date_le_total a b); [done|done].
Qed.

Lemma date_min_le_r a b : date_le (date_min a b) b.
Proof. unfold date_min. case_decide; [done|apply date_le_refl]. Qed.

Lemma date_max_ge_l a b : date_le a (date_max a b).
Proof. unfold date_max. case_decide; [done|apply date_le_refl]. Qed.

Lemma date_max_ge_r a b : date_le b (date_max a b).
Proof.
  unfold date_max. case_decide; [apply date_le_refl|].
  destruct (date_le_total a b); [done|done].
Qed.

(** The fold of [MIN] over a group is a date of the group and a lower
    bound of its dates. *)
Lemma foldl_date_min d ds :
  foldl date_min d ds ∈ d :: ds
  ∧ ∀ x, x ∈ d :: ds → date_le (foldl date_min d ds) x.
Proof.
  revert d. induction ds as [|e ds IH]; intros d; cbn [foldl].
  - split; [left|]. intros x Hx. apply list_elem_of_singleton in Hx as ->.
    apply date_le_refl.
  - destruct (IH (date_min d e)) as [Hin Hle]. split.
    + apply elem_of_cons in Hin as [Heq|Hin]; [|by do 2 right].
      rewrite Heq. unfold date_min. case_decide; [left|right; left].
    + intros x Hx.
      assert (date_le (foldl date_min (date_min d e) ds) (date_min d e))
        as Hm by (apply Hle; left).
      apply elem_of_cons in Hx as [->|Hx].
      * eapply date_le_trans; [exact Hm|apply date_min_le_l].
      * apply elem_of_cons in Hx as [->|Hx].
        -- eapply date_le_trans; [exact Hm|apply date_min_le_r].
        -- apply Hle. by right.
Qed.

Lemma foldl_date_max d ds :
  foldl date_max d ds ∈ d :: ds
  ∧ ∀ x, x ∈ d :: ds → date_le x (foldl date_max d ds).
Proof.
  revert d. induction ds as [|e ds IH]; intros d; cbn [foldl].
  - split; [left|]. intros x Hx. apply list_elem_of_singleton in Hx as ->.
    apply date_le_refl.
  - destruct (IH (date_max d e)) as [Hin Hle]. split.
    + apply elem_of_cons in Hin as [Heq|Hin]; [|by do 2 right].
      rewrite Heq. unfold date_max. case_decide; [right; left|left].
    + intros x Hx.
      assert (date_le (date_max d e) (foldl date_max (date_max d e) ds))
        as Hm by (apply Hle; left).
      apply elem_of_cons in Hx as [->|Hx].
      * eapply date_le_trans; [apply date_max_ge_l|exact Hm].
      * apply elem_of_cons in Hx as [->|Hx].
        -- eapply date_le_trans; [apply date_max_ge_r|exact Hm].
        -- apply Hle. by right.
Qed.

Lemma elem_of_distinct (l : list Z) x : x ∈ distinct l ↔ x ∈ l.
Proof.
  induction l as [|y l IH]; [done|]. cbn [distinct].
  rewrite !elem_of_cons, list_elem_of_filter, IH.
  destruct (decide (x = y)); tauto.
Qed.

Lemma NoDup_distinct (l : list Z) : NoDup (distinct l).
Proof.
  induction l as [|y l IH]; [constructor|]. cbn [distinct].
  constructor; [|by apply NoDup_filter].
  rewrite list_elem_of_filter. tauto.
Qed.

Lemma fmap_omap_total {X Y W} (f : X → option Y) (g : Y → W) (h : X → W)
    (l : list X) :
  (∀ x, x ∈ l → ∃ y, f x = Some y ∧ g y = h x) → g <$> omap f l = h <$> l.
Proof.
  induction l as [|x l IH]; [done|]. intros Hl.
  destruct (Hl x) as (y & Hy & Hg); [left|].
  cbn [omap list_omap]. rewrite Hy. cbn. rewrite Hg. f_equal.
  apply IH. intros z Hz. apply Hl. by right.
Qed.

Lemma annotate_Some b rows a :
  annotate b rows = Some a →
  ann_bird a = b
  ∧ (∃ s, s ∈ rows ∧ date_seen s = first_seen a)
  ∧ (∀ s, s ∈ rows → date_le (first_seen a) (date_seen s))
  ∧ (∃ s, s ∈ rows ∧ date_seen s = last_seen a)
  ∧ (∀ s, s ∈ rows → date_le (date_seen s) (last_seen a)).
Proof.
  unfold annotate. destruct rows as [|r rows]; [done|].
  rewrite fmap_cons. intros [= <-]. cbn [ann_bird first_seen last_seen].
  destruct (foldl_date_min (date_seen r) (date_seen <$> rows)) as [Hmin Hle].
  destruct (foldl_date_max (date_seen r) (date_seen <$> rows)) as [Hmax Hge].
  rewrite <- fmap_cons in Hmin, Hmax, Hle, Hge.
  apply list_elem_of_fmap in Hmin as (s1 & Hs1 & Hin1).
  apply list_elem_of_fmap in Hmax as (s2 & Hs2 & Hin2).
  repeat split.
  - by exists s1.
  - intros s Hs. apply Hle. by apply list_elem_of_fmap_2.
  - by exists s2.
  - intros s Hs. apply Hge. by apply list_elem_of_fmap_2.
Qed.

Lemma annotate_is_Some b rows s : s ∈ rows → is_Some (annotate b rows).
Proof.
  unfold annotate. destruct rows as [|r rows].
  - intros Hs. by apply elem_of_nil in Hs.
  - intros _. rewrite fmap_cons. by eexists.
Qed.

(** One group per bird of the queryset, each with its aggregates. *)
Lemma values_bird_annotate_elem qs a :
  a ∈ values_bird_annotate qs →
  ann_bird a ∈ bird <$> qs
  ∧ annotate (ann_bird a) (filter (λ s, bird s = ann_bird a) qs) = Some a.
Proof.
  unfold values_bird_annotate. rewrite list_elem_of_omap.
  intros (b & Hb & Ha). rewrite elem_of_distinct in Hb.
  destruct (annotate_Some _ _ _ Ha) as [Hab _]. subst b. by split.
Qed.

Lemma values_bird_annotate_birds qs :
  ann_bird <$> values_bird_annotate qs = distinct (bird <$> qs).
Proof.
  unfold values_bird_annotate. rewrite <- (list_fmap_id (distinct _)) at 2.
  apply fmap_omap_total. intros b Hb. rewrite elem_of_distinct in Hb.
  apply list_elem_of_fmap in Hb as (s & -> & Hs).
  destruct (annotate_is_Some (bird s) (filter (λ x, bird x = bird s) qs) s)
    as [a Ha]; [by apply list_elem_of_filter|].
  exists a. split; [done|]. by destruct (annotate_Some _ _ _ Ha) as [-> _].
Qed.

Lemma first_by_pk_elem rows s : first_by_pk rows = Some s → s ∈ rows.
Proof.
  unfold first_by_pk. destruct rows as [|r rows]; [done|]. intros [= <-].
  revert r. induction rows as [|x rows IH]; intros r; [left|].
  cbn [foldl]. case_decide.
  - right. apply IH.
  - specialize (IH r). apply elem_of_cons in IH as [->|IH]; [left|by do 2 right].
Qed.

(** Every group yields an entry, and the entry carries the bird and the
    aggregates of the group and the number of its rows. *)
Lemma build_entry_Some qs a :
  a ∈ values_bird_annotate qs →
  ∃ e, build_entry qs a = Some e
       ∧ entry_bird e = ann_bird a
       ∧ first_seen_date e = first_seen a
       ∧ last_seen_date e = last_seen a
       ∧ total_sightings e
         = Z.of_nat (length (filter (λ s, bird s = ann_bird a) qs)).
Proof.
  intros Ha. apply values_bird_annotate_elem in Ha as [_ Ha].
  destruct (annotate_Some _ _ _ Ha) as (_ & (s & Hs & Hd) & _).
  apply list_elem_of_filter in Hs as [Hb Hs].
  unfold build_entry.
  destruct (first_by_pk
              (filter (λ x, bird x = ann_bird a ∧ date_seen x = first_seen a) qs))
    as [fs|] eqn:Hfs.
  - apply first_by_pk_elem, list_elem_of_filter in Hfs as [[Hfb _] _].
    eexists. split; [done|]. cbn. by repeat split.
  - assert (s ∈ filter (λ x, bird x = ann_bird a ∧ date_seen x = first_seen a) qs)
      as Hin by by apply list_elem_of_filter.
    unfold first_by_pk in Hfs.
    destruct (filter (λ x, bird x = ann_bird a ∧ date_seen x = first_seen a) qs)
      as [|r rows]; [|done].
    by apply elem_of_nil in Hin.
Qed.

Lemma build_entry_dates qs a e :
  build_entry qs a = Some e →
  first_seen_date e = first_seen a ∧ last_seen_date e = last_seen a.
Proof.
  unfold build_entry. destruct (first_by_pk _) as [fs|]; [|done].
  by intros [= <-].
Qed.

(** *** The two model databases honour the contract of [ORDER BY] *)

Global Instance desc_last_seen_trans : Transitive desc_last_seen.
Proof. intros a b c Hab Hbc. unfold desc_last_seen in *. by eapply date_le_trans. Qed.

Lemma insert_desc_Permutation x l : insert_desc x l ≡ₚ x :: l.
Proof.
  induction l as [|y l IH]; [done|]. cbn [insert_desc]. case_decide; [|done].
  rewrite IH. apply Permutation_swap.
Qed.

Lemma insert_desc_StronglySorted x l :
  StronglySorted desc_last_seen l →
  StronglySorted desc_last_seen (insert_desc x l).
Proof.
  induction 1 as [|y l Hl IH Hy]; cbn [insert_desc].
  - by repeat constructor.
  - case_decide as Hlt.
    + constructor; [done|].
      rewrite insert_desc_Permutation. constructor; [|done].
      by apply date_lt_le.
    + apply date_not_lt_le in Hlt.
      constructor; [by constructor|]. constructor; [done|].
      eapply Forall_impl; [exact Hy|]. intros z Hz. by trans y.
Qed.

Lemma stable_order_by_contract : order_by_contract stable_order_by.
Proof.
  intros l. unfold stable_order_by. split.
  - induction l as [|x l IH]; [done|]. cbn [foldr].
    by rewrite insert_desc_Permutation, IH.
  - apply StronglySorted_Sorted.
    induction l as [|x l IH]; [constructor|]. cbn [foldr].
    by apply insert_desc_StronglySorted.
Qed.

(** *** What the contract gives the entries *)

Lemma StronglySorted_omap {X Y} (R : relation X) (R' : relation Y)
    (f : X → option Y) (l : list X) :
  (∀ x y x' y', R x y → f x = Some x' → f y = Some y' → R' x' y') →
  StronglySorted R l → StronglySorted R' (omap f l).
Proof.
  intros Hf. induction 1 as [|x l Hl IH Hx]; [constructor|].
  cbn [omap list_omap]. destruct (f x) as [x'|] eqn:Hfx; [|done].
  constructor; [done|]. apply Forall_forall. intros y' Hy'.
  apply list_elem_of_omap in Hy' as (y & Hy & Hfy).
  rewrite Forall_forall in Hx. by eapply Hf; [apply Hx| |].
Qed.

Section Contract.
Variable order_by : list annotated → list annotated.
Hypothesis order_by_ok : order_by_contract order_by.

Lemma bird_sightings_elem qs a :
  a ∈ bird_sightings order_by qs ↔ a ∈ values_bird_annotate qs.
Proof.
  unfold bird_sightings. destruct (order_by_ok (values_bird_annotate qs)) as [Hp _].
  by rewrite Hp.
Qed.

Lemma lifelist_entries_birds qs :
  entry_bird <$> lifelist_entries order_by qs ≡ₚ distinct (bird <$> qs).
Proof.
  unfold lifelist_entries.
  rewrite (fmap_omap_total (build_entry qs) entry_bird ann_bird).
  - unfold bird_sightings.
    destruct (order_by_ok (values_bird_annotate qs)) as [Hp _].
    rewrite <- values_bird_annotate_birds. by apply fmap_Permutation.
  - intros a Ha. apply bird_sightings_elem in Ha.
    destruct (build_entry_Some qs a Ha) as (e & He & Hb & _). by exists e.
Qed.

Lemma lifelist_entries_sorted qs :
  Sorted entries_desc_last_seen (lifelist_entries order_by qs).
Proof.
  apply StronglySorted_Sorted. unfold lifelist_entries, bird_sightings.
  destruct (order_by_ok (values_bird_annotate qs)) as [_ Hs].
  apply (Sorted_StronglySorted _ _) in Hs.
  eapply StronglySorted_omap; [|exact Hs].
  intros a b ea eb Hab Ha Hb. unfold entries_desc_last_seen.
  destruct (build_entry_dates _ _ _ Ha) as [_ ->].
  by destruct (build_entry_dates _ _ _ Hb) as [_ ->].
Qed.

(** Every entry is the summary of its bird. *)
Lemma lifelist_entries_summary qs e :
  e ∈ lifelist_entries order_by qs →
  (∃ s, s ∈ qs ∧ bird s = entry_bird e ∧ date_seen s = first_seen_date e)
  ∧ (∀ s, s ∈ qs → bird s = entry_bird e →
       date_le (first_seen_date e) (date_seen s))
  ∧ (∃ s, s ∈ qs ∧ bird s = entry_bird e ∧ date_seen s = last_seen_date e)
  ∧ (∀ s, s ∈ qs → bird s = entry_bird e →
       date_le (date_seen s) (last_seen_date e))
  ∧ total_sightings e
    = Z.of_nat (length (filter (λ s, bird s = entry_bird e) qs)).
Proof.
  unfold lifelist_entries. rewrite list_elem_of_omap.
  intros (a & Ha & He). apply bird_sightings_elem in Ha.
  destruct (build_entry_Some qs a Ha) as (e' & He' & Hb & Hf & Hl & Ht).
  rewrite He in He'. injection He' as <-.
  apply values_bird_annotate_elem in Ha as [_ Ha].
  destruct (annotate_Some _ _ _ Ha)
    as (_ & (s1 & Hs1 & Hd1) & Hmin & (s2 & Hs2 & Hd2) & Hmax).
  apply list_elem_of_filter in Hs1 as [Hb1 Hs1].
  apply list_elem_of_filter in Hs2 as [Hb2 Hs2].
  rewrite Hb, Hf, Hl, Ht. repeat split.
  - by exists s1.
  - intros s Hs Hbs. apply Hmin. by apply list_elem_of_filter.
  - by exists s2.
  - intros s Hs Hbs. apply Hmax. by apply list_elem_of_filter.
Qed.

End Contract.

(** C2: whatever order the database gives the groups, the life list has
    one entry per bird id of the sightings and no other; the entry of a
    bird holds the least and the greatest [date_seen] of its sightings
    and their number.  On the scenario it holds the entries of Robin and
    Sparrow; on no sightings it is empty. *)
Theorem lifelist_species_summary
    (order_by : list annotated → list annotated) (qs : list Sighting) :
  order_by_contract order_by →
  NoDup (entry_bird <$> lifelist_entries order_by qs)
  ∧ (∀ b, b ∈ entry_bird <$> lifelist_entries order_by qs
          ↔ ∃ s, s ∈ qs ∧ bird s = b)
  ∧ (∀ e, e ∈ lifelist_entries order_by qs →
       (∃ s, s ∈ qs ∧ bird s = entry_bird e ∧ date_seen s = first_seen_date e)
       ∧ (∀ s, s ∈ qs → bird s = entry_bird e →
            date_le (first_seen_date e) (date_seen s))
       ∧ (∃ s, s ∈ qs ∧ bird s = entry_bird e ∧ date_seen s = last_seen_date e)
       ∧ (∀ s, s ∈ qs → bird s = entry_bird e →
            date_le (date_seen s) (last_seen_date e))
       ∧ total_sightings e
         = Z.of_nat (length (filter (λ s, bird s = entry_bird e) qs)))
  ∧ lifelist_entries order_by species_scenario ≡ₚ [robin_entry; sparrow_entry]
  ∧ lifelist_entries order_by [] = [].
Proof.
  intros Hob. pose proof (lifelist_entries_birds order_by Hob qs) as Hbirds.
  split; [|split; [|split; [|split]]].
  - rewrite Hbirds. apply NoDup_distinct.
  - intros b. rewrite Hbirds, elem_of_distinct, list_elem_of_fmap.
    split; intros (s & ? & ?); by exists s.
  - intros e. by apply lifelist_entries_summary.
  - unfold lifelist_entries, bird_sightings.
    destruct (Hob (values_bird_annotate species_scenario)) as [Hp _].
    rewrite Hp. by vm_compute.
  - unfold lifelist_entries, bird_sightings.
    destruct (Hob (values_bird_annotate [])) as [Hp _].
    apply Permutation_nil_r in Hp. by rewrite Hp.
Qed.

Lemma lifelist_species_summary_witness :
  lifelist_entries stable_order_by species_scenario
  ≡ₚ [robin_entry; sparrow_entry].
Proof.
  exact (proj1 (proj2 (proj2 (proj2
    (lifelist_species_summary stable_order_by species_scenario
       stable_order_by_contract))))).
Defined.

Example lifelist_entries_scenario :
  lifelist_entries stable_order_by species_scenario
  = [robin_entry; sparrow_entry].
Proof. by vm_compute. Qed.

(** The entries of [lifelist] and [yearlist] come out in descending
    order of [last_seen], whatever database carries out [ORDER BY]: the
    loop that builds them keeps the order of the rows.  The code asks the
    database for no second key, so the order among entries of equal
    [last_seen] is the database's. *)
Theorem lifelist_entries_descending
    (order_by : list annotated → list annotated) (qs : list Sighting) :
  order_by_contract order_by →
  Sorted entries_desc_last_seen (lifelist_entries order_by qs).
Proof. intros Hob. by apply lifelist_entries_sorted. Qed.

Lemma lifelist_entries_descending_witness :
  Sorted entries_desc_last_seen
    (lifelist_entries stable_order_by species_scenario).
Proof.
  exact (lifelist_entries_descending stable_order_by species_scenario
           stable_order_by_contract).
Defined.

Lemma filter_ext_in {X} (P Q : X → Prop) `{!∀ x, Decision (P x)}
    `{!∀ x, Decision (Q x)} (l : list X) :
  (∀ x, x ∈ l → (P x ↔ Q x)) → filter P l = filter Q l.
Proof.
  induction l as [|x l IH]; [done|]. intros Hl.
  rewrite !filter_cons. rewrite IH by (intros z Hz; apply Hl; by right).
  destruct (Hl x) as [H1 H2]; [left|].
  destruct (decide (P x)), (decide (Q x)); tauto.
Qed.

End AggregatorFacts.

(** ** Facts about the record views *)

Section RecordFacts.
Import FormViews.

Lemma get_trip_Some db i t :
  get_trip db i = Some t → trip_id t = i ∧ t ∈ trips db.
Proof.
  unfold get_trip. destruct (list_find _ _) as [[k x]|] eqn:Hf; [|done].
  intros [= <-]. apply list_find_Some in Hf as (Hk & Hid & _).
  split; [done|]. by eapply list_elem_of_lookup_2.
Qed.

Lemma get_bird_Some db i b :
  get_bird db i = Some b → bird_id b = i ∧ b ∈ birds db.
Proof.
  unfold get_bird. destruct (list_find _ _) as [[k x]|] eqn:Hf; [|done].
  intros [= <-]. apply list_find_Some in Hf as (Hk & Hid & _).
  split; [done|]. by eapply list_elem_of_lookup_2.
Qed.

Lemma get_location_Some locs i l :
  get_location locs i = Some l → loc_id l = i ∧ l ∈ locs.
Proof.
  unfold get_location. destruct (list_find _ _) as [[k x]|] eqn:Hf; [|done].
  intros [= <-]. apply list_find_Some in Hf as (Hk & Hid & _).
  split; [done|]. by eapply list_elem_of_lookup_2.
Qed.

Lemma dereference_trip i s : trip (dereference i s) ≠ Some i.
Proof. unfold dereference. by case_decide. Qed.

Lemma dereference_fields i s :
  sighting_id (dereference i s) = sighting_id s
  ∧ bird (dereference i s) = bird s
  ∧ location (dereference i s) = location s
  ∧ date_seen (dereference i s) = date_seen s
  ∧ heard_not_seen (dereference i s) = heard_not_seen s
  ∧ count (dereference i s) = count s
  ∧ notes (dereference i s) = notes s
  ∧ trip (dereference i s) = (if decide (trip s = Some i) then None else trip s).
Proof. unfold dereference. by case_decide. Qed.

(** After the update no sighting refers to the trip, so the cascade of
    [trip.delete()] finds nothing to delete. *)
Lemma filter_dereference i (l : list Sighting) :
  filter (λ s, trip s ≠ Some i) (dereference i <$> l) = dereference i <$> l.
Proof.
  induction l as [|s l IH]; [done|]. rewrite fmap_cons, filter_cons.
  rewrite decide_True by apply dereference_trip. by rewrite IH.
Qed.


Lemma filter_all {A} (P : A → Prop) `{!∀ x, Decision (P x)} (l : list A) :
  (∀ x, x ∈ l → P x) → filter P l = l.
Proof.
  induction l as [|x l IH]; [done|]. intros Hall.
  rewrite filter_cons, decide_True by (apply Hall; left).
  f_equal. apply IH. intros y Hy. apply Hall. by right.
Qed.

Lemma collect_locations_no_children rounds locs l :
  children_of locs l = [] →
  collect_locations rounds locs [loc_id l] = [loc_id l].
Proof.
  intros Hc.
  assert (filter (λ x, parent_location x ∈ (Some <$> [loc_id l])
                       ∧ loc_id x ∉ [loc_id l]) locs = []) as Hnil.
  { destruct (filter _ locs) as [|x rest] eqn:Hf; [done|].
    assert (x ∈ filter (λ x, parent_location x ∈ (Some <$> [loc_id l])
                              ∧ loc_id x ∉ [loc_id l]) locs) as Hx
      by (rewrite Hf; left).
    apply list_elem_of_filter in Hx as [[Hp _] Hin].
    apply list_elem_of_singleton in Hp.
    assert (x ∈ children_of locs l) as Hx' by by apply list_elem_of_filter.
    rewrite Hc in Hx'. by apply elem_of_nil in Hx'. }
  induction rounds as [|r IH]; [done|].
  cbn [collect_locations]. by rewrite Hnil.
Qed.

(** C6: deleting a trip (POST) removes the trip row and nothing else: the
    sightings table keeps every row, in place; a sighting that referred to
    the trip has its trip set to null and every other field as before, and
    the other sightings are untouched. *)
Theorem trip_delete_keeps_sightings (i : Z) (db : DB) (t : Trip) :
  get_trip db i = Some t →
  (∃ message,
     trip_delete POST i db
     = (Redirect "trip_list" message,
        mkDB (birds db) (locations db)
             (filter (λ x, trip_id x ≠ i) (trips db))
             (dereference i <$> sightings db)))
  ∧ length (sightings (trip_delete POST i db).2) = length (sightings db)
  ∧ ∀ k s, sightings db !! k = Some s →
      ∃ s', sightings (trip_delete POST i db).2 !! k = Some s'
        ∧ sighting_id s' = sighting_id s ∧ bird s' = bird s
        ∧ location s' = location s ∧ date_seen s' = date_seen s
        ∧ heard_not_seen s' = heard_not_seen s ∧ count s' = count s
        ∧ notes s' = notes s
        ∧ trip s' = (if decide (trip s = Some i) then None else trip s).
Proof.
  intros Ht. destruct (get_trip_Some _ _ _ Ht) as [Hid _].
  assert (∃ message,
     trip_delete POST i db
     = (Redirect "trip_list" message,
        mkDB (birds db) (locations db)
             (filter (λ x, trip_id x ≠ i) (trips db))
             (dereference i <$> sightings db))) as [message Heq].
  { unfold trip_delete, Trip_delete. rewrite Ht.
    cbn [birds locations trips sightings]. rewrite !Hid.
    rewrite filter_dereference. by eexists. }
  split; [by exists message|]. rewrite Heq. cbn [snd sightings].
  split; [by rewrite length_fmap|].
  intros k s Hk. exists (dereference i s). split.
  - by rewrite list_lookup_fmap, Hk.
  - pose proof (dereference_fields i s). naive_solver.
Qed.

Lemma trip_delete_keeps_sightings_witness :
  (∃ message,
     trip_delete POST 1 sample_db
     = (Redirect "trip_list" message,
        mkDB (birds sample_db) (locations sample_db)
             (filter (λ x, trip_id x ≠ 1) (trips sample_db))
             (dereference 1 <$> sightings sample_db)))
  ∧ length (sightings (trip_delete POST 1 sample_db).2)
    = length (sightings sample_db)
  ∧ ∀ k s, sightings sample_db !! k = Some s →
      ∃ s', sightings (trip_delete POST 1 sample_db).2 !! k = Some s'
        ∧ sighting_id s' = sighting_id s ∧ bird s' = bird s
        ∧ location s' = location s ∧ date_seen s' = date_seen s
        ∧ heard_not_seen s' = heard_not_seen s ∧ count s' = count s
        ∧ notes s' = notes s
        ∧ trip s' = (if decide (trip s = Some 1) then None else trip s).
Proof.
  apply (trip_delete_keeps_sightings 1 sample_db
           (mkTrip 1 "Spring" (Date 2023 3 1) (Date 2023 3 9) "")).
  reflexivity.
Defined.

Example trip_delete_sample :
  sightings (trip_delete POST 1 sample_db).2
  = [ mkSighting 1 1 3 None (Date 2023 3 2) false 2 "";
      mkSighting 2 1 3 None (Date 2023 6 1) true 1 "";
      mkSighting 3 1 2 None (Date 2023 3 3) false 4 "garden" ]
  ∧ trips (trip_delete POST 1 sample_db).2 = [].
Proof. by vm_compute. Qed.

(** The order of the two steps matters: [trip.delete()] on its own
    follows [on_delete=CASCADE] and takes the sightings of the trip with it. *)
Example Trip_delete_alone_cascades :
  sightings (Trip_delete (mkTrip 1 "Spring" (Date 2023 3 1) (Date 2023 3 9) "")
               sample_db)
  = [ mkSighting 2 1 3 None (Date 2023 6 1) true 1 "" ].
Proof. by vm_compute. Qed.



Example location_delete_blocked_by_children :
  location_delete POST 1 sample_db
  = (JsonResponse false
       ("Cannot delete " +:+ quoted "A" +:+ " because it has " +:+ "1"
        +:+ " child location(s). Please delete or reassign the child locations first."),
     sample_db).
Proof. by vm_compute. Qed.

(** *** The circular-reference check of [location_edit] *)

Lemma circular_check_mono fuel locs c target r :
  circular_check fuel locs c target = Some r →
  circular_check (S fuel) locs c target = Some r.
Proof.
  revert c. induction fuel as [|f IH]; intros c; [done|].
  intros Hf. cbn [circular_check] in Hf |- *.
  case_decide; [done|].
  destruct (parent_location c) as [p|]; [|done].
  destruct (get_location locs p) as [q|]; [|done].
  apply IH in Hf. exact Hf.
Qed.

Lemma circular_check_mono_le f1 f2 locs c target r :
  (f1 ≤ f2)%nat →
  circular_check f1 locs c target = Some r →
  circular_check f2 locs c target = Some r.
Proof.
  induction 1 as [|f2 _ IH]; [done|].
  intros Hf. by apply circular_check_mono, IH.
Qed.

Lemma reaches_circular_check locs target c :
  reaches locs target c →
  ∃ k, circular_check k locs c target = Some Reached.
Proof.
  induction 1 as [c Hc|c i q Hp Hq _ [k IH]].
  - exists 1%nat. cbn. by rewrite decide_True.
  - exists (S k). cbn [circular_check]. case_decide; [done|].
    by rewrite Hp, Hq.
Qed.

(** C8: in the chain A > B > C, the POST that sets the parent of A to C
    is answered with the form and the circular-reference error, and the
    database is as before.  In general, whenever the form is valid and
    walking upward from the proposed parent meets the edited location,
    the view answers with that error and leaves the database as it was,
    for every loop budget above some bound. *)
Theorem location_edit_rejects_cycle :
  (∀ fuel, (3 ≤ fuel)%nat →
     location_edit fuel POST 1 post_A_under_C sample_db
     = Some (Render form_template (Some circular_message), sample_db))
  ∧ (∀ (db : DB) (i : Z) (post : form_data) (l : Location)
       (cleaned : location_cleaned) (new_parent : Location),
       get_location (locations db) i = Some l →
       LocationForm_clean (locations db) post = Some cleaned →
       cleaned_parent_location cleaned = Some new_parent →
       reaches (locations db) i new_parent →
       ∃ k, ∀ fuel, (k ≤ fuel)%nat →
         location_edit fuel POST i post db
         = Some (Render form_template (Some circular_message), db)).
Proof.
  assert (∀ (db : DB) (i : Z) (post : form_data) (l : Location)
       (cleaned : location_cleaned) (new_parent : Location),
       get_location (locations db) i = Some l →
       LocationForm_clean (locations db) post = Some cleaned →
       cleaned_parent_location cleaned = Some new_parent →
       (∃ k, circular_check k (locations db) new_parent i = Some Reached) →
       ∃ k, ∀ fuel, (k ≤ fuel)%nat →
         location_edit fuel POST i post db
         = Some (Render form_template (Some circular_message), db)) as Hgen.
  { intros db i post l cleaned new_parent Hl Hclean Hparent [k Hk].
    destruct (get_location_Some _ _ _ Hl) as [<- _].
    exists k. intros fuel Hfuel. unfold location_edit.
    rewrite Hl, Hclean, Hparent.
    by rewrite (circular_check_mono_le k fuel _ _ _ _ Hfuel Hk). }
  split.
  - intros fuel Hfuel.
    assert (location_edit 3 POST 1 post_A_under_C sample_db
            = Some (Render form_template (Some circular_message), sample_db))
      as H3 by by vm_compute.
    unfold location_edit in H3 |- *.
    destruct (get_location (locations sample_db) 1) as [l|]; [|done].
    destruct (LocationForm_clean (locations sample_db) post_A_under_C)
      as [cleaned|]; [|done].
    destruct (cleaned_parent_location cleaned) as [np|]; [|done].
    destruct (circular_check 3 (locations sample_db) np (loc_id l))
      as [w|] eqn:Hw; [|done].
    by rewrite (circular_check_mono_le 3 fuel _ _ _ _ Hfuel Hw).
  - intros db i post l cleaned new_parent Hl Hclean Hparent Hreach.
    eapply Hgen; [done..|]. by apply reaches_circular_check.
Qed.

(** An edit that creates no cycle is saved: C (3) moved under A (1). *)
Example location_edit_saves :
  location_edit 3 POST 3 {[ "location_name" := "C"; "parent_location" := "1" ]}
    sample_db
  = Some (Redirect "location_detail"
            ("Location " +:+ quoted "C" +:+ " updated successfully!"),
          mkDB (birds sample_db)
               [ mkLocation 1 "A" None; mkLocation 2 "B" (Some 1);
                 mkLocation 3 "C" (Some 1); mkLocation 4 "D" None ]
               (trips sample_db) (sightings sample_db)).
Proof. by vm_compute. Qed.

(** *** [add_sighting] and the count of a sighting *)

(** C7 (the code at the failing input): a POST whose count is 0 passes
    [SightingForm] and is saved; the stored sighting has count 0. *)
Theorem add_sighting_saves_count_zero :
  add_sighting int32_backend POST post_count_zero sample_db
  = (Redirect "add_sighting" "Sighting of Robin recorded successfully!",
     mkDB (birds sample_db) (locations sample_db) (trips sample_db)
          (sightings sample_db
           ++ [ mkSighting 4 1 3 None (Date 2023 7 1) false 0 "" ])).
Proof. by vm_compute. Qed.

(** The form does reject what it checks: a missing bird, a count that is
    not a number. *)
Example add_sighting_rejects_invalid :
  add_sighting int32_backend POST (<["count" := "many"]> post_count_zero) sample_db
  = (Render "birdapp/add_sighting.html" (Some "Please correct the errors below."),
     sample_db)
  ∧ add_sighting int32_backend POST (delete "bird" post_count_zero) sample_db
    = (Render "birdapp/add_sighting.html" (Some "Please correct the errors below."),
       sample_db).
Proof. by vm_compute. Qed.

End RecordFacts.

(** ** Ancestors and descendants *)

Section PathFacts.
Import Paths.

Lemma elem_of_concat {A} (x : A) (ls : list (list A)) :
  x ∈ concat ls ↔ ∃ l, l ∈ ls ∧ x ∈ l.
Proof.
  induction ls as [|l ls IH]; simpl.
  - split; [by intros ?%elem_of_nil|]. by intros (l & ?%elem_of_nil & _).
  - rewrite elem_of_app, IH. split.
    + intros [Hx|(l' & Hl' & Hx)]; [exists l; split; [left|done]|].
      exists l'. split; [by right|done].
    + intros (l' & Hl' & Hx). apply elem_of_cons in Hl' as [->|Hl'];
        [by left|right; by exists l'].
Qed.

Lemma Forall2_elem_of_r {A B} (P : A → B → Prop) l k y :
  Forall2 P l k → y ∈ k → ∃ x, x ∈ l ∧ P x y.
Proof.
  induction 1 as [|x y' l k HP _ IH]; [by intros ?%elem_of_nil|].
  intros [->|Hy]%elem_of_cons; [exists x; split; [left|done]|].
  destruct (IH Hy) as (x' & Hx' & HP'). exists x'. split; [by right|done].
Qed.

Lemma Forall2_elem_of_l {A B} (P : A → B → Prop) l k x :
  Forall2 P l k → x ∈ l → ∃ y, y ∈ k ∧ P x y.
Proof.
  induction 1 as [|x' y l k HP _ IH]; [by intros ?%elem_of_nil|].
  intros [->|Hx]%elem_of_cons; [exists y; split; [left|done]|].
  destruct (IH Hx) as (y' & Hy' & HP'). exists y'. split; [by right|done].
Qed.

Lemma pk_unique_inj locs a b :
  pk_unique locs → a ∈ locs → b ∈ locs → loc_id a = loc_id b → a = b.
Proof.
  intros Hpk Ha Hb Hid.
  pose proof (get_location_elem _ _ Hpk Ha) as H1.
  pose proof (get_location_elem _ _ Hpk Hb) as H2.
  rewrite Hid in H1. congruence.
Qed.

(** *** The three upward walks *)

Lemma get_ancestors_loop_app fuel locs parent anc :
  get_ancestors_loop fuel locs parent anc
  = result_map (λ m, m ++ anc) <$> get_ancestors_loop fuel locs parent [].
Proof.
  revert parent anc. induction fuel as [|f IH]; intros parent anc; [done|].
  simpl. destruct parent as [p|]; [|done].
  destruct (get_location locs p) as [q|]; [|done].
  rewrite (IH _ (q :: anc)), (IH _ [q]).
  destruct (get_ancestors_loop f locs (parent_location q) []) as [[m|e]|];
    simpl; [|done..].
  by rewrite <- app_assoc.
Qed.

Lemma get_full_path_loop_ancestors fuel locs parent anc path :
  get_full_path_loop fuel locs parent ((location_name <$> anc) ++ path)
  = result_map (λ m, (location_name <$> m) ++ path)
    <$> get_ancestors_loop fuel locs parent anc.
Proof.
  revert parent anc. induction fuel as [|f IH]; intros parent anc; [done|].
  simpl. destruct parent as [p|]; [|done].
  destruct (get_location locs p) as [q|]; [|done].
  by rewrite <- (IH _ (q :: anc)).
Qed.

Lemma breadcrumb_loop_ancestors fuel locs c path :
  breadcrumb_loop fuel locs c path
  = result_map (λ m, m ++ c :: path)
    <$> get_ancestors_loop fuel locs (parent_location c) [].
Proof.
  revert c path. induction fuel as [|f IH]; intros c path; [done|].
  simpl. destruct (parent_location c) as [p|]; [|done].
  destruct (get_location locs p) as [q|]; [|done].
  rewrite IH, (get_ancestors_loop_app _ _ _ [q]).
  destruct (get_ancestors_loop f locs (parent_location q) []) as [[m|e]|];
    simpl; [|done..].
  by rewrite <- app_assoc.
Qed.

Lemma get_ancestors_loop_depth locs :
  parent_links_valid locs →
  ∀ f l d, l ∈ locs → depth f locs l = Some d →
  ∃ anc, length anc = d
    ∧ ∀ fuel, (d < fuel)%nat →
        get_ancestors_loop fuel locs (parent_location l) [] = Some (Ok anc).
Proof.
  intros Hv. induction f as [|f IH]; intros l d Hl Hd; [done|].
  pose proof Hv as Hv'. unfold parent_links_valid in Hv'.
  rewrite Forall_forall in Hv'. specialize (Hv' l Hl).
  simpl in Hd. destruct (parent_location l) as [p|] eqn:Hp.
  - destruct (Hv' p eq_refl) as [q Hq]. rewrite Hq in Hd.
    destruct (depth f locs q) as [dq|] eqn:Hdq; simplify_eq/=.
    apply get_location_Some in Hq as Hq'. destruct Hq' as [_ Hqin].
    destruct (IH q dq Hqin Hdq) as (anc & Hlen & Hanc).
    exists (anc ++ [q]). split; [rewrite length_app; simpl; lia|].
    intros [|fuel] Hfuel; [lia|]. simpl. rewrite Hq.
    rewrite get_ancestors_loop_app, Hanc by lia. done.
  - simplify_eq. exists []. split; [done|]. by intros [|fuel] ?; [lia|].
Qed.

Lemma breadcrumb_loop_linked fuel locs c path r :
  breadcrumb_loop fuel locs c path = Some (Ok r) →
  linked (c :: path) →
  linked r ∧ ∃ a rest, r = a :: rest ∧ parent_location a = None.
Proof.
  revert c path. induction fuel as [|f IH]; intros c path; [done|].
  simpl. destruct (parent_location c) as [p|] eqn:Hp.
  - destruct (get_location locs p) as [q|] eqn:Hq; [|done].
    intros Hr Hl. apply (IH _ _ Hr). split; [|done].
    apply get_location_Some in Hq as [-> _]. done.
  - intros [= <-] Hl. split; [done|]. by exists c, path.
Qed.

Lemma get_ancestors_loop_reaches fuel locs parent r a :
  get_ancestors_loop fuel locs parent [] = Some (Ok r) → a ∈ r →
  ∃ p q, parent = Some p ∧ get_location locs p = Some q
         ∧ reaches locs (loc_id a) q.
Proof.
  revert parent r. induction fuel as [|f IH]; intros parent r; [done|].
  simpl. destruct parent as [p|]; [|by intros [= <-] ?%elem_of_nil].
  destruct (get_location locs p) as [q|] eqn:Hq; [|done].
  rewrite get_ancestors_loop_app.
  destruct (get_ancestors_loop f locs (parent_location q) []) as [[m|e]|] eqn:Hm;
    simpl; [|done..].
  intros [= <-] Ha. exists p, q. split; [done|]. split; [done|].
  apply elem_of_app in Ha as [Ha|Ha].
  - destruct (IH _ _ Hm Ha) as (p' & q' & Hp' & Hq' & Hreach).
    by eapply reaches_up.
  - apply list_elem_of_singleton in Ha as ->. by apply reaches_here.
Qed.

Lemma reaches_get_ancestors_loop locs a q :
  pk_unique locs → a ∈ locs → reaches locs (loc_id a) q →
  ∀ fuel p r, get_location locs p = Some q →
    get_ancestors_loop fuel locs (Some p) [] = Some (Ok r) → a ∈ r.
Proof.
  intros Hpk Ha. induction 1 as [c Hid|c i q2 Hp Hq2 _ IH];
    intros fuel p r Hq; (destruct fuel as [|f]; [done|]); simpl; rewrite Hq;
    rewrite get_ancestors_loop_app;
    destruct (get_ancestors_loop f locs (parent_location c) []) as [[m|e]|] eqn:Hm;
    simpl; try done; intros [= <-]; apply elem_of_app.
  - right. apply get_location_Some in Hq as [_ Hc].
    rewrite (pk_unique_inj locs a c); [left|done..].
  - left. rewrite Hp in Hm. by eapply IH.
Qed.

(** *** [get_all_child_locations] returns the rows below the location *)

Lemma get_all_child_locations_total locs l :
  pk_unique locs → parent_links_acyclic locs →
  ∃ r, ∀ fuel, (length locs < fuel)%nat →
    get_all_child_locations fuel locs l = Some r.
Proof.
  intros Hpk Hac.
  assert (is_Some (get_all_child_locations (S (length locs)) locs l)) as [r Hr].
  { simpl.
    assert (is_Some (mapM (get_all_child_locations (length locs) locs)
                       (children_of locs l))) as [rest ->]; [|by eexists].
    apply mapM_is_Some, Forall_forall. intros c Hc.
    apply children_of_elem in Hc as [_ Hcin]. simpl.
    pose proof Hac as Hac'. unfold parent_links_acyclic in Hac'.
    rewrite Forall_forall in Hac'. destruct (Hac' c Hcin) as [dc Hdc].
    apply (get_all_child_locations_row locs Hpk Hac _ c dc); [done..|lia]. }
  exists r. intros fuel Hfuel.
  by apply (get_all_child_locations_mono_le (S (length locs))); [lia|].
Qed.

(** What a returning call is made of. *)
Lemma get_all_child_locations_Some fuel locs l r :
  get_all_child_locations fuel locs l = Some r →
  ∃ f rest, fuel = S f
    ∧ Forall2 (λ ch rc, get_all_child_locations f locs ch = Some rc)
        (children_of locs l) rest
    ∧ r = children_of locs l ++ concat rest.
Proof.
  destruct fuel as [|f]; [done|]. simpl.
  destruct (mapM (get_all_child_locations f locs) (children_of locs l))
    as [rest|] eqn:Hm; simpl; [|done].
  intros [= <-]. exists f, rest. by apply mapM_Some in Hm.
Qed.

Lemma reaches_parent locs ch l q :
  pk_unique locs → ch ∈ locs → l ∈ locs →
  parent_location ch = Some (loc_id l) →
  reaches locs (loc_id ch) q → q ∈ locs → reaches locs (loc_id l) q.
Proof.
  intros Hpk Hch Hl Hp. induction 1 as [c Hid|c i q2 Hpc Hq2 _ IH]; intros Hc.
  - rewrite (pk_unique_inj locs c ch) by done.
    eapply reaches_up; [done|by apply get_location_elem|by apply reaches_here].
  - eapply reaches_up; [done..|]. apply IH.
    by apply get_location_Some in Hq2 as [_ ?].
Qed.

Lemma get_all_child_locations_sound locs :
  pk_unique locs →
  ∀ fuel l r c, l ∈ locs → get_all_child_locations fuel locs l = Some r →
    c ∈ r → c ∈ locs ∧ descends locs c l.
Proof.
  intros Hpk. induction fuel as [|f IH]; intros l r c Hl Hr Hc; [done|].
  apply get_all_child_locations_Some in Hr as (f' & rest & [= <-] & Hrest & ->).
  apply elem_of_app in Hc as [Hc|Hc].
  - apply children_of_elem in Hc as [Hp Hcin]. split; [done|].
    exists (loc_id l), l. split; [done|].
    split; [by apply get_location_elem|by apply reaches_here].
  - apply elem_of_concat in Hc as (rc & Hrc & Hc).
    destruct (Forall2_elem_of_r _ _ _ _ Hrest Hrc) as (ch & Hch & Hchr).
    apply children_of_elem in Hch as [Hchp Hchin].
    destruct (IH ch rc c Hchin Hchr Hc) as (Hcin & p & q & Hp & Hq & Hreach).
    split; [done|]. exists p, q. split; [done|]. split; [done|].
    apply (reaches_parent locs ch l q); [done..|].
    by apply get_location_Some in Hq as [_ ?].
Qed.

Lemma get_all_child_locations_closed locs :
  ∀ fuel l r q c, get_all_child_locations fuel locs l = Some r →
    q ∈ r → c ∈ children_of locs q → c ∈ r.
Proof.
  induction fuel as [|f IH]; intros l r q c Hr Hq Hc; [done|].
  apply get_all_child_locations_Some in Hr as (f' & rest & [= <-] & Hrest & ->).
  apply elem_of_app. right. apply elem_of_concat.
  apply elem_of_app in Hq as [Hq|Hq].
  - destruct (Forall2_elem_of_l _ _ _ _ Hrest Hq) as (rc & Hrc & Hqr).
    exists rc. split; [done|].
    apply get_all_child_locations_Some in Hqr as (? & ? & _ & _ & ->).
    apply elem_of_app. by left.
  - apply elem_of_concat in Hq as (rc & Hrc & Hq).
    destruct (Forall2_elem_of_r _ _ _ _ Hrest Hrc) as (ch & Hch & Hchr).
    exists rc. split; [done|]. by eapply IH.
Qed.

Lemma get_all_child_locations_complete locs fuel l r c :
  get_all_child_locations fuel locs l = Some r →
  c ∈ locs → descends locs c l → c ∈ r.
Proof.
  intros Hr Hc (p & q & Hp & Hq & Hreach).
  revert c p Hc Hp Hq.
  induction Hreach as [q Hid|q i q2 Hpq Hq2 _ IH]; intros c p Hc Hp Hq.
  - apply get_location_Some in Hq as [Hqid _].
    apply get_all_child_locations_Some in Hr as (? & ? & _ & _ & ->).
    apply elem_of_app. left. apply children_of_elem. split; [|done]. congruence.
  - apply get_location_Some in Hq as Hq'. destruct Hq' as [Hqid Hqin].
    eapply get_all_child_locations_closed; [done|by eapply (IH q i)|].
    apply children_of_elem. split; [|done]. congruence.
Qed.

(** *** Depths along the walks *)

Lemma acyclic_depth locs l :
  parent_links_acyclic locs → l ∈ locs →
  ∃ d, depth (length locs) locs l = Some d.
Proof.
  unfold parent_links_acyclic. rewrite Forall_forall. intros Hac Hl.
  by destruct (Hac l Hl) as [d Hd]; exists d.
Qed.

Lemma get_all_child_locations_deeper locs :
  pk_unique locs → parent_links_acyclic locs →
  ∀ fuel l r c dl, l ∈ locs → get_all_child_locations fuel locs l = Some r →
    depth (length locs) locs l = Some dl → c ∈ r →
    ∃ dc, depth (length locs) locs c = Some dc ∧ (dl < dc)%nat.
Proof.
  intros Hpk Hac. induction fuel as [|f IH]; intros l r c dl Hl Hr Hdl Hc;
    [done|].
  apply get_all_child_locations_Some in Hr as (f' & rest & [= <-] & Hrest & ->).
  apply elem_of_app in Hc as [Hc|Hc].
  - apply children_of_elem in Hc as [Hp Hcin].
    destruct (acyclic_depth _ _ Hac Hcin) as [dc Hdc]. exists dc.
    split; [done|]. rewrite (depth_child _ _ _ _ _ Hpk Hl Hp Hdl Hdc). lia.
  - apply elem_of_concat in Hc as (rc & Hrc & Hc).
    destruct (Forall2_elem_of_r _ _ _ _ Hrest Hrc) as (ch & Hch & Hchr).
    apply children_of_elem in Hch as [Hchp Hchin].
    destruct (acyclic_depth _ _ Hac Hchin) as [dch Hdch].
    pose proof (depth_child _ _ _ _ _ Hpk Hl Hchp Hdl Hdch) as ->.
    destruct (IH ch rc c _ Hchin Hchr Hdch Hc) as (dc & Hdc & Hlt).
    exists dc. split; [done|lia].
Qed.

Lemma reaches_depth_le locs y q dy dq :
  pk_unique locs → parent_links_acyclic locs → y ∈ locs →
  reaches locs (loc_id y) q → q ∈ locs →
  depth (length locs) locs y = Some dy →
  depth (length locs) locs q = Some dq → (dy ≤ dq)%nat.
Proof.
  intros Hpk Hac Hy Hreach. revert dq.
  induction Hreach as [c Hid|c i q2 Hp Hq2 _ IH]; intros dq Hc Hdy Hdq.
  - rewrite (pk_unique_inj locs c y) in Hdq by done.
    assert (dy = dq) by congruence. lia.
  - apply get_location_Some in Hq2 as [<- Hq2in].
    destruct (acyclic_depth _ _ Hac Hq2in) as [d2 Hd2].
    pose proof (depth_child _ _ _ _ _ Hpk Hq2in Hp Hd2 Hdq) as ->.
    specialize (IH d2 Hq2in Hdy Hd2). lia.
Qed.

Lemma reaches_same_depth locs x y q d :
  pk_unique locs → parent_links_acyclic locs → x ∈ locs → y ∈ locs →
  reaches locs (loc_id x) q → reaches locs (loc_id y) q → q ∈ locs →
  depth (length locs) locs x = Some d →
  depth (length locs) locs y = Some d → x = y.
Proof.
  intros Hpk Hac Hx Hy Hrx. revert y Hy.
  induction Hrx as [c Hid|c i q2 Hp Hq2 Hrx IH]; intros y Hy Hry Hc Hdx Hdy.
  - assert (c = x) as -> by by apply (pk_unique_inj locs).
    inversion Hry as [c' Hid'|c' i q2 Hp Hq2 Hry']; simplify_eq.
    + by apply (pk_unique_inj locs).
    + apply get_location_Some in Hq2 as Hq2'. destruct Hq2' as [<- Hq2in].
      destruct (acyclic_depth _ _ Hac Hq2in) as [d2 Hd2].
      pose proof (depth_child _ _ _ _ _ Hpk Hq2in Hp Hd2 Hdx).
      pose proof (reaches_depth_le _ _ _ _ _ Hpk Hac Hy Hry' Hq2in Hdy Hd2). lia.
  - apply get_location_Some in Hq2 as Hq2'. destruct Hq2' as [Hi Hq2in].
    inversion Hry as [c' Hid'|c' i' q2' Hp' Hq2' Hry']; simplify_eq.
    + assert (c = y) as -> by by apply (pk_unique_inj locs).
      destruct (acyclic_depth _ _ Hac Hq2in) as [d2 Hd2].
      pose proof (depth_child _ _ _ _ _ Hpk Hq2in Hp Hd2 Hdy).
      pose proof (reaches_depth_le _ _ _ _ _ Hpk Hac Hx Hrx Hq2in Hdx Hd2). lia.
    + by apply IH.
Qed.

Lemma get_all_child_locations_NoDup locs :
  pk_unique locs → parent_links_acyclic locs →
  ∀ fuel l r, l ∈ locs → get_all_child_locations fuel locs l = Some r →
    NoDup r.
Proof.
  intros Hpk Hac. induction fuel as [|f IH]; intros l r Hl Hr; [done|].
  destruct (acyclic_depth _ _ Hac Hl) as [dl Hdl].
  apply get_all_child_locations_Some in Hr as (f' & rest & [= <-] & Hrest & ->).
  assert (NoDup (children_of locs l)) as Hnd.
  { apply NoDup_filter. by eapply NoDup_fmap_1. }
  assert (∀ ch, ch ∈ children_of locs l →
            ch ∈ locs ∧ parent_location ch = Some (loc_id l)
            ∧ depth (length locs) locs ch = Some (S dl)) as Hchild.
  { intros ch [Hp Hin]%children_of_elem. split; [done|]. split; [done|].
    destruct (acyclic_depth _ _ Hac Hin) as [dc Hdc].
    by rewrite Hdc, (depth_child _ _ _ _ _ Hpk Hl Hp Hdl Hdc). }
  apply NoDup_app. split; [done|]. split.
  - intros c Hc Hc'. destruct (Hchild c Hc) as (_ & _ & Hdc).
    apply elem_of_concat in Hc' as (rc & Hrc & Hc').
    destruct (Forall2_elem_of_r _ _ _ _ Hrest Hrc) as (ch & Hch & Hchr).
    destruct (Hchild ch Hch) as (Hchin & _ & Hdch).
    destruct (get_all_child_locations_deeper locs Hpk Hac _ _ _ _ _
                Hchin Hchr Hdch Hc') as (dc & Hdc' & Hlt).
    assert (dc = S dl) by congruence. lia.
  - revert Hnd Hchild Hrest. generalize (children_of locs l).
    intros chs Hnd Hchild Hrest. revert Hnd Hchild.
    induction Hrest as [|ch rc chs rest Hchr Hrest IHrest];
      intros Hnd Hchild; [constructor|].
    simpl. apply NoDup_cons in Hnd as [Hnotin Hnd].
    destruct (Hchild ch) as (Hchin & Hchp & Hdch); [left|].
    apply NoDup_app. split; [by eapply IH|]. split.
    + intros c Hc Hc'.
      apply elem_of_concat in Hc' as (rc' & Hrc' & Hc').
      destruct (Forall2_elem_of_r _ _ _ _ Hrest Hrc') as (ch' & Hch' & Hchr').
      destruct (Hchild ch') as (Hchin' & Hchp' & Hdch'); [by right|].
      destruct (get_all_child_locations_sound locs Hpk _ _ _ _ Hchin Hchr Hc)
        as (Hcin & p & q & Hp & Hq & Hreach).
      destruct (get_all_child_locations_sound locs Hpk _ _ _ _ Hchin' Hchr' Hc')
        as (_ & p' & q' & Hp' & Hq' & Hreach').
      simplify_eq.
      assert (ch = ch'); [|by subst].
      apply get_location_Some in Hq as [_ Hqin].
      by eapply (reaches_same_depth locs ch ch' q).
    + apply IHrest; [done|]. intros ch' Hch'. apply Hchild. by right.
Qed.

End PathFacts.

(** The full path of a location is the names of its ancestors, from the
    root down, followed by its own name, and the breadcrumb of
    [location_detail] is the ancestors followed by the location itself:
    the three loops end, fail on a missing parent row or run on together. *)
Theorem full_path_is_ancestor_names
    (fuel : nat) (locs : list Location) (l : Location) :
  Paths.get_full_path fuel locs l
  = Paths.result_map (λ anc, (location_name <$> anc) ++ [location_name l])
    <$> Paths.get_ancestors fuel locs l
  ∧ Paths.breadcrumb_path fuel locs l
    = Paths.result_map (λ anc, anc ++ [l]) <$> Paths.get_ancestors fuel locs l.
Proof.
  split.
  - unfold Paths.get_full_path, Paths.get_ancestors.
    apply (get_full_path_loop_ancestors fuel locs (parent_location l) []).
  - apply breadcrumb_loop_ancestors.
Qed.


(** On a table with unique primary keys, valid and acyclic parent links,
    [get_ancestors] returns, within as many rounds as the table has rows,
    the chain from the root to the immediate parent: its first row has no
    parent, every row is the parent of the next and the last is the parent
    of the location; its rows are exactly the rows strictly above the
    location, and their number is the depth of the location. *)
Theorem get_ancestors_root_to_parent (locs : list Location) (l : Location) :
  Hierarchy.pk_unique locs →
  Hierarchy.parent_links_acyclic locs →
  Paths.parent_links_valid locs →
  l ∈ locs →
  ∃ anc,
    (∀ fuel, (length locs ≤ fuel)%nat →
       Paths.get_ancestors fuel locs l = Some (Ok anc))
    ∧ Paths.linked (anc ++ [l])
    ∧ (∀ a, head (anc ++ [l]) = Some a → parent_location a = None)
    ∧ (∀ a, a ∈ anc ↔ a ∈ locs ∧ Paths.descends locs l a)
    ∧ Hierarchy.depth (length locs) locs l = Some (length anc).
Proof.
  intros Hpk Hac Hv Hl.
  destruct (acyclic_depth _ _ Hac Hl) as [d Hd].
  destruct (get_ancestors_loop_depth locs Hv _ _ _ Hl Hd) as (anc & Hlen & Hanc).
  pose proof (depth_lt _ _ _ _ Hd) as Hlt.
  exists anc.
  assert (Paths.breadcrumb_path (length locs) locs l = Some (Ok (anc ++ [l])))
    as Hbc.
  { unfold Paths.breadcrumb_path. rewrite breadcrumb_loop_ancestors.
    by rewrite Hanc by lia. }
  destruct (breadcrumb_loop_linked _ _ _ _ _ Hbc I)
    as (Hlinked & a0 & rest & Heq & Hroot).
  split; [intros fuel Hfuel; apply Hanc; lia|].
  split; [done|].
  split; [rewrite Heq; by intros a [= <-]|].
  split; [|by rewrite Hlen].
  intros a. split.
  - intros Ha.
    destruct (get_ancestors_loop_reaches _ _ _ _ _ (Hanc (length locs) Hlt) Ha)
      as (p & q & Hp & Hq & Hreach).
    split; [|by exists p, q].
    clear Hbc Hlinked Heq. revert Ha. generalize (Hanc (length locs) Hlt).
    generalize (parent_location l) anc (length locs). clear.
    intros parent anc fuel. revert parent anc.
    induction fuel as [|f IH]; intros parent anc; [done|]. simpl.
    destruct parent as [p|]; [|by intros [= <-] ?%elem_of_nil].
    destruct (Hierarchy.get_location locs p) as [q|] eqn:Hq; [|done].
    rewrite get_ancestors_loop_app.
    destruct (Paths.get_ancestors_loop f locs (parent_location q) [])
      as [[m|e]|] eqn:Hm; simpl; [|done..].
    intros [= <-] [Ha|Ha]%elem_of_app; [by eapply IH|].
    apply list_elem_of_singleton in Ha as ->.
    by apply get_location_Some in Hq as [_ ?].
  - intros (Ha & p & q & Hp & Hq & Hreach).
    eapply (reaches_get_ancestors_loop locs a q Hpk Ha Hreach (length locs) p);
      [done|]. rewrite <- Hp. by apply Hanc.
Qed.

Lemma get_ancestors_root_to_parent_witness :
  ∃ anc,
    (∀ fuel, (length Hierarchy.forest_locs ≤ fuel)%nat →
       Paths.get_ancestors fuel Hierarchy.forest_locs
         (mkLocation 3 "Montreal" (Some 2)) = Some (Ok anc))
    ∧ Paths.linked (anc ++ [mkLocation 3 "Montreal" (Some 2)])
    ∧ (∀ a, head (anc ++ [mkLocation 3 "Montreal" (Some 2)]) = Some a →
         parent_location a = None)
    ∧ (∀ a, a ∈ anc ↔ a ∈ Hierarchy.forest_locs
                       ∧ Paths.descends Hierarchy.forest_locs
                           (mkLocation 3 "Montreal" (Some 2)) a)
    ∧ Hierarchy.depth (length Hierarchy.forest_locs) Hierarchy.forest_locs
        (mkLocation 3 "Montreal" (Some 2)) = Some (length anc).
Proof.
  apply (get_ancestors_root_to_parent Hierarchy.forest_locs
           (mkLocation 3 "Montreal" (Some 2))); decide_by_compute.
Defined.

Example get_ancestors_forest :
  Paths.get_ancestors 4 Hierarchy.forest_locs (mkLocation 3 "Montreal" (Some 2))
  = Some (Ok [ mkLocation 1 "Canada" None; mkLocation 2 "Quebec" (Some 1) ])
  ∧ Paths.get_full_path_string 4 Hierarchy.forest_locs
      (mkLocation 3 "Montreal" (Some 2))
    = Some (Ok "Canada > Quebec > Montreal").
Proof. done. Qed.

(** On a table with unique primary keys and acyclic parent links,
    [get_all_child_locations] returns exactly the rows strictly below the
    location: a row is in the list if and only if the upward walk from its
    parent meets the location. *)
Theorem get_all_child_locations_is_descendants
    (locs : list Location) (l : Location) :
  Hierarchy.pk_unique locs →
  Hierarchy.parent_links_acyclic locs →
  l ∈ locs →
  ∃ r,
    (∀ fuel, (length locs < fuel)%nat →
       Hierarchy.get_all_child_locations fuel locs l = Some r)
    ∧ ∀ c, c ∈ r ↔ c ∈ locs ∧ Paths.descends locs c l.
Proof.
  intros Hpk Hac Hl.
  destruct (get_all_child_locations_total locs l Hpk Hac) as [r Hr].
  exists r. split; [done|]. intros c. split.
  - intros Hc.
    by apply (get_all_child_locations_sound locs Hpk (S (length locs)) l r c);
      [|apply Hr; lia|].
  - intros [Hc Hd].
    apply (get_all_child_locations_complete locs (S (length locs)) l r c);
      [apply Hr; lia|done..].
Qed.

Lemma get_all_child_locations_is_descendants_witness :
  ∃ r,
    (∀ fuel, (length Hierarchy.forest_locs < fuel)%nat →
       Hierarchy.get_all_child_locations fuel Hierarchy.forest_locs
         (mkLocation 1 "Canada" None) = Some r)
    ∧ ∀ c, c ∈ r ↔ c ∈ Hierarchy.forest_locs
                    ∧ Paths.descends Hierarchy.forest_locs c
                        (mkLocation 1 "Canada" None).
Proof.
  apply (get_all_child_locations_is_descendants Hierarchy.forest_locs
           (mkLocation 1 "Canada" None)); decide_by_compute.
Defined.

(** On such a table the list [get_all_child_locations] returns holds no
    row twice and never the location itself, so the primary keys of
    [[location] + child_locations], which the views hand to
    [location_id__in], are pairwise distinct. *)
Theorem get_all_child_locations_distinct
    (locs : list Location) (l : Location) :
  Hierarchy.pk_unique locs →
  Hierarchy.parent_links_acyclic locs →
  l ∈ locs →
  ∃ r,
    (∀ fuel, (length locs < fuel)%nat →
       Hierarchy.get_all_child_locations fuel locs l = Some r)
    ∧ NoDup r ∧ (l ∉ r) ∧ NoDup (loc_id <$> (l :: r)).
Proof.
  intros Hpk Hac Hl.
  destruct (get_all_child_locations_total locs l Hpk Hac) as [r Hr].
  exists r. split; [done|].
  specialize (Hr (S (length locs)) (Nat.lt_succ_diag_r _)).
  assert (NoDup r) as Hnd
    by by apply (get_all_child_locations_NoDup locs Hpk Hac (S (length locs)) l).
  assert (l ∉ r) as Hnotin.
  { intros Hin. destruct (acyclic_depth _ _ Hac Hl) as [dl Hdl].
    destruct (get_all_child_locations_deeper locs Hpk Hac _ _ _ _ _
                Hl Hr Hdl Hin) as (dc & Hdc & Hlt).
    assert (dc = dl) by congruence. lia. }
  split; [done|]. split; [done|].
  apply NoDup_fmap_2_strong; [|by constructor].
  intros x y Hx Hy. apply (pk_unique_inj locs); [done| |].
  - apply elem_of_cons in Hx as [->|Hx]; [done|].
    by apply (get_all_child_locations_sound locs Hpk (S (length locs)) l r x).
  - apply elem_of_cons in Hy as [->|Hy]; [done|].
    by apply (get_all_child_locations_sound locs Hpk (S (length locs)) l r y).
Qed.

Lemma get_all_child_locations_distinct_witness :
  ∃ r,
    (∀ fuel, (length Hierarchy.forest_locs < fuel)%nat →
       Hierarchy.get_all_child_locations fuel Hierarchy.forest_locs
         (mkLocation 1 "Canada" None) = Some r)
    ∧ NoDup r ∧ (mkLocation 1 "Canada" None ∉ r)
    ∧ NoDup (loc_id <$> (mkLocation 1 "Canada" None :: r)).
Proof.
  apply (get_all_child_locations_distinct Hierarchy.forest_locs
           (mkLocation 1 "Canada" None)); decide_by_compute.
Defined.

(** Ancestors and descendants are converse: on a table with unique
    primary keys, valid and acyclic parent links, row [a] is among
    [get_ancestors] of row [l] if and only if [l] is among
    [get_all_child_locations] of [a]. *)
Theorem ancestor_iff_descendant (locs : list Location) (a l : Location) :
  Hierarchy.pk_unique locs →
  Hierarchy.parent_links_acyclic locs →
  Paths.parent_links_valid locs →
  a ∈ locs → l ∈ locs →
  ∃ anc r,
    (∀ fuel, (length locs < fuel)%nat →
       Paths.get_ancestors fuel locs l = Some (Ok anc)
       ∧ Hierarchy.get_all_child_locations fuel locs a = Some r)
    ∧ (a ∈ anc ↔ l ∈ r).
Proof.
  intros Hpk Hac Hv Ha Hl.
  destruct (acyclic_depth _ _ Hac Hl) as [d Hd].
  destruct (get_ancestors_loop_depth locs Hv _ _ _ Hl Hd) as (anc & Hlen & Hanc).
  pose proof (depth_lt _ _ _ _ Hd) as Hlt.
  destruct (get_all_child_locations_total locs a Hpk Hac) as [r Hr].
  exists anc, r. split.
  { intros fuel Hfuel. split; [apply Hanc; lia|by apply Hr]. }
  split.
  - intros Hin.
    apply (get_all_child_locations_complete locs (S (length locs)) a r l);
      [apply Hr; lia|done|].
    destruct (get_ancestors_loop_reaches _ _ _ _ _ (Hanc (length locs) Hlt) Hin)
      as (p & q & Hp & Hq & Hreach).
    by exists p, q.
  - intros Hin.
    destruct (get_all_child_locations_sound locs Hpk (S (length locs)) a r l)
      as (_ & p & q & Hp & Hq & Hreach); [done|apply Hr; lia|done|].
    eapply (reaches_get_ancestors_loop locs a q Hpk Ha Hreach (length locs) p);
      [done|]. rewrite <- Hp. by apply Hanc.
Qed.

Lemma ancestor_iff_descendant_witness :
  ∃ anc r,
    (∀ fuel, (length Hierarchy.forest_locs < fuel)%nat →
       Paths.get_ancestors fuel Hierarchy.forest_locs
         (mkLocation 3 "Montreal" (Some 2)) = Some (Ok anc)
       ∧ Hierarchy.get_all_child_locations fuel Hierarchy.forest_locs
           (mkLocation 1 "Canada" None) = Some r)
    ∧ (mkLocation 1 "Canada" None ∈ anc ↔ mkLocation 3 "Montreal" (Some 2) ∈ r).
Proof.
  apply (ancestor_iff_descendant Hierarchy.forest_locs
           (mkLocation 1 "Canada" None) (mkLocation 3 "Montreal" (Some 2)));
    decide_by_compute.
Defined.

(** ** More facts about the entries of the lists *)

Section EntryFacts.
Import MonthList.

Lemma sum_Permutation l1 l2 : l1 ≡ₚ l2 → sum l1 = sum l2.
Proof. unfold sum. induction 1; simpl; lia. Qed.

Lemma length_filter_fmap {X Y} (f : X → Y) (P : Y → Prop)
    `{!∀ y, Decision (P y)} (l : list X) :
  length (filter P (f <$> l)) = length (filter (λ x, P (f x)) l).
Proof.
  induction l as [|x l IH]; [done|].
  rewrite fmap_cons, !filter_cons. case_decide; simpl; by rewrite IH.
Qed.

Lemma filter_none {X} (P : X → Prop) `{!∀ x, Decision (P x)} (l : list X) :
  (∀ x, x ∈ l → ¬ P x) → filter P l = [].
Proof.
  induction l as [|x l IH]; [done|]. intros Hl.
  rewrite filter_cons, decide_False by (apply Hl; left).
  apply IH. intros y Hy. apply Hl. by right.
Qed.

(** The sightings of a list of distinct birds, bird by bird. *)
Lemma sum_counts_NoDup (qs : list Sighting) (bs : list Z) :
  NoDup bs →
  sum ((λ b, Z.of_nat (length (filter (λ s, bird s = b) qs))) <$> bs)
  = Z.of_nat (length (filter (λ s, bird s ∈ bs) qs)).
Proof.
  induction 1 as [|b bs Hnotin Hnd IH].
  - rewrite filter_none; [done|]. intros s _. apply not_elem_of_nil.
  - rewrite fmap_cons. unfold sum in *. cbn [foldr]. rewrite IH. clear IH.
    induction qs as [|s qs IHqs]; [done|].
    rewrite !filter_cons.
    pose proof (elem_of_cons bs (bird s) b) as Hc.
    destruct (decide (bird s = b)) as [Hb|Hb];
      destruct (decide (bird s ∈ bs)) as [Hbs|Hbs];
      destruct (decide (bird s ∈ b :: bs)) as [Hbbs|Hbbs]; simpl length;
      first [lia|exfalso; subst; tauto].
Qed.

Lemma lifelist_entries_build order_by qs e :
  order_by_contract order_by → e ∈ lifelist_entries order_by qs →
  ∃ a, a ∈ values_bird_annotate qs ∧ build_entry qs a = Some e.
Proof.
  intros Hok. unfold lifelist_entries. rewrite list_elem_of_omap.
  intros (a & Ha & He). exists a. split; [|done].
  by apply (bird_sightings_elem order_by Hok).
Qed.

Lemma first_by_pk_least rows s :
  first_by_pk rows = Some s → ∀ x, x ∈ rows → sighting_id s ≤ sighting_id x.
Proof.
  unfold first_by_pk. destruct rows as [|r rows]; [done|]. intros [= <-].
  assert (∀ r,
    sighting_id (foldl (λ m x, if decide (sighting_id x < sighting_id m)
                               then x else m) r rows) ≤ sighting_id r
    ∧ ∀ x, x ∈ rows →
        sighting_id (foldl (λ m x, if decide (sighting_id x < sighting_id m)
                                   then x else m) r rows) ≤ sighting_id x)
    as Hfold.
  { clear r. induction rows as [|y rows IH]; intros r.
    - split; [done|]. by intros x ?%elem_of_nil.
    - cbn [foldl]. destruct (IH (if decide (sighting_id y < sighting_id r)
                                 then y else r)) as [H1 H2].
      split; [case_decide; lia|].
      intros x [->|Hx]%elem_of_cons; [case_decide; lia|by apply H2]. }
  destruct (Hfold r) as [H1 H2].
  intros x [->|Hx]%elem_of_cons; [done|by apply H2].
Qed.

Lemma size_difference_filter (l : list Z) (B : gset Z) :
  size ((list_to_set l : gset Z) ∖ B)
  = length (filter (λ b, b ∉ B) (distinct l)).
Proof.
  rewrite <- (size_list_to_set (C := gset Z))
    by apply NoDup_filter, NoDup_distinct.
  f_equal. apply set_eq. intros x.
  rewrite elem_of_difference, !elem_of_list_to_set, list_elem_of_filter,
    elem_of_distinct. tauto.
Qed.

Lemma size_bird_set qs :
  size (bird_set qs) = length (distinct (bird <$> qs)).
Proof.
  unfold bird_set.
  rewrite <- (size_list_to_set (C := gset Z)) by apply NoDup_distinct.
  f_equal. apply set_eq. intros x.
  by rewrite !elem_of_list_to_set, elem_of_distinct.
Qed.

Lemma length_distinct_le (l : list Z) : (length (distinct l) ≤ length l)%nat.
Proof.
  induction l as [|x l IH]; [done|]. cbn [distinct length].
  pose proof (length_filter (λ y, y ≠ x) (distinct l)). lia.
Qed.

Lemma length_bird_sightings order_by qs :
  order_by_contract order_by →
  length (bird_sightings order_by qs) = length (distinct (bird <$> qs)).
Proof.
  intros Hok. unfold bird_sightings.
  destruct (Hok (values_bird_annotate qs)) as [Hp _].
  by rewrite Hp, <- values_bird_annotate_birds, length_fmap.
Qed.

End EntryFacts.

(** An entry of the life list (and of the year list) is flagged
    [is_recent] exactly when all the sightings of its bird bear one and
    the same date; a bird with a single sighting is flagged, and so is a
    bird seen several times on one day. *)
Theorem is_recent_iff_single_date
    (order_by : list Aggregator.annotated → list Aggregator.annotated)
    (qs : list Sighting) (e : Aggregator.entry) :
  Aggregator.order_by_contract order_by →
  e ∈ Aggregator.lifelist_entries order_by qs →
  (Aggregator.is_recent e = true
   ↔ ∀ s s', s ∈ qs → s' ∈ qs →
       bird s = Aggregator.entry_bird e → bird s' = Aggregator.entry_bird e →
       date_seen s = date_seen s')
  ∧ (Aggregator.total_sightings e = 1 → Aggregator.is_recent e = true).
Proof.
  intros Hok He.
  destruct (lifelist_entries_summary order_by Hok qs e He)
    as ((s1 & Hs1 & Hb1 & Hd1) & Hmin & (s2 & Hs2 & Hb2 & Hd2) & Hmax & Htot).
  assert (Aggregator.is_recent e
          = bool_decide (Aggregator.first_seen_date e
                         = Aggregator.last_seen_date e)) as ->.
  { destruct (lifelist_entries_build order_by qs e Hok He) as (a & _ & Hb).
    unfold Aggregator.build_entry in Hb.
    destruct (Aggregator.first_by_pk _) as [fs|]; [|done].
    by injection Hb as <-. }
  rewrite bool_decide_eq_true. split; [split|].
  - intros Heq s s' Hs Hs' Hb Hb'.
    transitivity (Aggregator.first_seen_date e).
    + apply date_le_antisym; [rewrite Heq; by apply Hmax|by apply Hmin].
    + apply date_le_antisym; [by apply Hmin|rewrite Heq; by apply Hmax].
  - intros Hall. rewrite <- Hd1, <- Hd2. by apply Hall.
  - intros Hone. rewrite Htot in Hone.
    assert (s1 ∈ filter (λ s, bird s = Aggregator.entry_bird e) qs) as Hf1
      by by apply list_elem_of_filter.
    assert (s2 ∈ filter (λ s, bird s = Aggregator.entry_bird e) qs) as Hf2
      by by apply list_elem_of_filter.
    destruct (filter (λ s, bird s = Aggregator.entry_bird e) qs)
      as [|x [|x' rest]]; simpl in Hone; [lia| |lia].
    apply list_elem_of_singleton in Hf1, Hf2. congruence.
Qed.

Lemma is_recent_iff_single_date_witness :
  (Aggregator.is_recent sparrow_entry = true
   ↔ ∀ s s', s ∈ species_scenario → s' ∈ species_scenario →
       bird s = Aggregator.entry_bird sparrow_entry →
       bird s' = Aggregator.entry_bird sparrow_entry →
       date_seen s = date_seen s')
  ∧ (Aggregator.total_sightings sparrow_entry = 1 →
     Aggregator.is_recent sparrow_entry = true).
Proof.
  apply (is_recent_iff_single_date Aggregator.stable_order_by species_scenario
           sparrow_entry stable_order_by_contract).
  vm_compute. right. left.
Defined.

(** The counts of the life list add up: over all entries,
    [total_sightings] sums to the number of sightings. *)
Theorem lifelist_counts_add_up
    (order_by : list Aggregator.annotated → list Aggregator.annotated)
    (qs : list Sighting) :
  Aggregator.order_by_contract order_by →
  sum (Aggregator.total_sightings <$> Aggregator.lifelist_entries order_by qs)
  = Z.of_nat (length qs).
Proof.
  intros Hok. unfold Aggregator.lifelist_entries.
  rewrite (fmap_omap_total (Aggregator.build_entry qs)
             Aggregator.total_sightings
             (λ a, Z.of_nat (length (filter (λ s, bird s = Aggregator.ann_bird a)
                                       qs)))).
  - unfold Aggregator.bird_sightings.
    destruct (Hok (Aggregator.values_bird_annotate qs)) as [Hp _].
    rewrite (sum_Permutation _ _ (fmap_Permutation _ _ _ Hp)).
    change (sum (((λ b, Z.of_nat (length (filter (λ s, bird s = b) qs)))
                  ∘ Aggregator.ann_bird)
                 <$> Aggregator.values_bird_annotate qs)
            = Z.of_nat (length qs)).
    rewrite list_fmap_compose.
    rewrite values_bird_annotate_birds, sum_counts_NoDup by apply NoDup_distinct.
    rewrite filter_all; [done|].
    intros s Hs. apply elem_of_distinct, list_elem_of_fmap. by exists s.
  - intros a Ha. apply (bird_sightings_elem order_by Hok) in Ha.
    destruct (build_entry_Some qs a Ha) as (e & He & _ & _ & _ & Ht).
    by exists e.
Qed.

Lemma lifelist_counts_add_up_witness :
  sum (Aggregator.total_sightings
       <$> Aggregator.lifelist_entries Aggregator.stable_order_by
             species_scenario)
  = 3.
Proof.
  apply (lifelist_counts_add_up Aggregator.stable_order_by species_scenario
           stable_order_by_contract).
Defined.

(** The sighting whose details an entry shows as [first_sighting] is a
    sighting of the entry's bird on its first date, and among those the
    one of least primary key. *)
Theorem first_sighting_least_pk
    (order_by : list Aggregator.annotated → list Aggregator.annotated)
    (qs : list Sighting) (e : Aggregator.entry) :
  Aggregator.order_by_contract order_by →
  e ∈ Aggregator.lifelist_entries order_by qs →
  Aggregator.first_sighting e ∈ qs
  ∧ bird (Aggregator.first_sighting e) = Aggregator.entry_bird e
  ∧ date_seen (Aggregator.first_sighting e) = Aggregator.first_seen_date e
  ∧ ∀ s, s ∈ qs → bird s = Aggregator.entry_bird e →
      date_seen s = Aggregator.first_seen_date e →
      sighting_id (Aggregator.first_sighting e) ≤ sighting_id s.
Proof.
  intros Hok He.
  destruct (lifelist_entries_build order_by qs e Hok He) as (a & _ & Hb).
  unfold Aggregator.build_entry in Hb.
  destruct (Aggregator.first_by_pk _) as [fs|] eqn:Hfs; [|done].
  injection Hb as <-. cbn.
  pose proof (first_by_pk_elem _ _ Hfs) as Hin.
  apply list_elem_of_filter in Hin as [[Hfb Hfd] Hin].
  split; [done|]. split; [done|]. split; [done|].
  intros s Hs Hsb Hsd. apply (first_by_pk_least _ _ Hfs).
  apply list_elem_of_filter. split; [|done]. split; congruence.
Qed.

Lemma first_sighting_least_pk_witness :
  Aggregator.first_sighting robin_entry ∈ species_scenario
  ∧ bird (Aggregator.first_sighting robin_entry)
    = Aggregator.entry_bird robin_entry
  ∧ date_seen (Aggregator.first_sighting robin_entry)
    = Aggregator.first_seen_date robin_entry
  ∧ ∀ s, s ∈ species_scenario → bird s = Aggregator.entry_bird robin_entry →
      date_seen s = Aggregator.first_seen_date robin_entry →
      sighting_id (Aggregator.first_sighting robin_entry) ≤ sighting_id s.
Proof.
  apply (first_sighting_least_pk Aggregator.stable_order_by species_scenario
           robin_entry stable_order_by_contract).
  vm_compute. left.
Defined.

(** ** The statistics of [yearlist] and [monthlist] *)

Section StatsFacts.
Import MonthList.

Lemma new_species_le_unique (this : list Sighting) (prev : gset Z) :
  (size (bird_set this ∖ prev) ≤ length (distinct (bird <$> this)))%nat.
Proof.
  rewrite <- size_bird_set. apply subseteq_size.
  intros x. rewrite elem_of_difference. tauto.
Qed.

Lemma int_get_truthy (q : query) k y :
  Py.int (get q k) = Some y → Py.truthy (get q k) = true.
Proof.
  unfold get. destruct (q !! k) as [s|]; simpl; [|done].
  destruct (decide (s = "")) as [->|Hs]; [done|].
  intros _. by rewrite bool_decide_eq_false_2.
Qed.

Lemma date_lt_le_trans a b c : date_lt a b → date_le b c → date_lt a c.
Proof. unfold date_lt, date_le. lia. Qed.

(** Within a month, the flag of an entry says whether its bird was seen
    before the month. *)
Lemma month_flag (base : list Sighting) (y m : Z) (a : annotated) :
  Forall (λ s, valid_date (date_seen s)) base →
  a ∈ values_bird_annotate
        (filter (λ s, year (date_seen s) = y ∧ month (date_seen s) = m) base) →
  filter (λ s, bird s = ann_bird a ∧ date_lt (date_seen s) (first_seen a)) base
  = []
  ↔ ann_bird a ∉ bird_set (filter (λ s, date_lt (date_seen s) (Date y m 1)) base).
Proof.
  intros Hvalid Ha. rewrite Forall_forall in Hvalid.
  apply values_bird_annotate_elem in Ha as [_ Ha].
  destruct (annotate_Some _ _ _ Ha) as (_ & (s1 & Hs1 & Hd1) & Hmin & _).
  apply list_elem_of_filter in Hs1 as [Hb1 Hs1].
  apply list_elem_of_filter in Hs1 as [[Hy1 Hm1] Hs1].
  pose proof (Hvalid s1 Hs1) as Hv1.
  unfold bird_set. rewrite elem_of_list_to_set, list_elem_of_fmap. split.
  - intros Hnil (s & Hb & Hs). apply list_elem_of_filter in Hs as [Hlt Hs].
    assert (s ∈ filter (λ s, bird s = ann_bird a
                             ∧ date_lt (date_seen s) (first_seen a)) base) as Hin.
    { apply list_elem_of_filter. split; [|done]. split; [done|].
      eapply date_lt_le_trans; [done|]. rewrite <- Hd1.
      unfold valid_date in Hv1. unfold date_le. cbn. lia. }
    rewrite Hnil in Hin. by apply elem_of_nil in Hin.
  - intros Hnot. apply filter_none. intros s Hs [Hb Hlt].
    destruct (decide (date_lt (date_seen s) (Date y m 1))) as [Hbefore|Hin].
    + apply Hnot. exists s. split; [done|]. by apply list_elem_of_filter.
    + assert (year (date_seen s) = y ∧ month (date_seen s) = m) as Hym.
      { rewrite <- Hd1 in Hlt. unfold date_lt in Hin, Hlt. cbn in Hin.
        unfold valid_date in Hv1. specialize (Hvalid s Hs).
        unfold valid_date in Hvalid. lia. }
      assert (date_le (first_seen a) (date_seen s)) as Hle.
      { apply Hmin. apply list_elem_of_filter. split; [done|].
        by apply list_elem_of_filter. }
      apply date_lt_not_le in Hlt. done.
Qed.

Lemma monthlist_entries_flags order_by base filtered :
  order_by_contract order_by →
  is_lifelist_addition <$> monthlist_entries order_by base filtered
  = (λ a, negb (bool_decide
                  (filter (λ s, bird s = ann_bird a
                                ∧ date_lt (date_seen s) (first_seen a)) base
                   ≠ [])))
    <$> bird_sightings order_by filtered.
Proof.
  intros Hok. unfold monthlist_entries. apply fmap_omap_total.
  intros a Ha. apply (bird_sightings_elem order_by Hok) in Ha.
  destruct (build_entry_Some filtered a Ha) as (e & He & _).
  unfold build_month_entry. rewrite He. simpl. by eexists.
Qed.

Lemma month_additions_count order_by base y m :
  order_by_contract order_by →
  Forall (λ s, valid_date (date_seen s)) base →
  1 ≤ y ≤ 9999 → 1 ≤ m ≤ 12 →
  month_new_species base y m
  = Some (Z.of_nat
            (length (filter (λ e, is_lifelist_addition e = true)
                       (monthlist_entries order_by base
                          (filter (λ s, year (date_seen s) = y
                                        ∧ month (date_seen s) = m) base))))).
Proof.
  intros Hok Hvalid Hy Hm. unfold month_new_species, mk_date.
  rewrite decide_True
    by (unfold valid_date, days_in_month; cbn; repeat case_match; lia).
  cbn. f_equal. f_equal.
  set (filtered := filter (λ s, year (date_seen s) = y
                                ∧ month (date_seen s) = m) base).
  set (prev := bird_set (filter (λ s, date_lt (date_seen s) (Date y m 1)) base)).
  unfold bird_set at 1. rewrite size_difference_filter.
  pose proof (length_filter_fmap is_lifelist_addition (λ b, b = true)
                (monthlist_entries order_by base filtered)) as Hflags.
  cbn beta in Hflags. rewrite <- Hflags. clear Hflags.
  rewrite (monthlist_entries_flags order_by base filtered Hok).
  rewrite length_filter_fmap. unfold bird_sightings.
  destruct (Hok (values_bird_annotate filtered)) as [Hp _].
  rewrite Hp. rewrite <- values_bird_annotate_birds, length_filter_fmap.
  f_equal. apply filter_ext_in. intros a Ha. cbn beta.
  subst prev. rewrite <- (month_flag base y m a Hvalid Ha).
  rewrite negb_true_iff, bool_decide_eq_false.
  destruct (decide (filter (λ s, bird s = ann_bird a
                                 ∧ date_lt (date_seen s) (first_seen a)) base
                    = [])); tauto.
Qed.

Lemma select_YearMonth year month yv mv y m :
  select year month = (yv, mv, YearMonth y m) →
  1 ≤ m ≤ 12 ∧ mv = Py.PyInt m.
Proof.
  unfold select. repeat case_match; intros; simplify_eq; done.
Qed.

End StatsFacts.

(** For a year from 1 to 9999, [yearlist] answers with statistics whose
    numbers are consistent: the sightings of the year, the species among
    them (the total shown above the list), and the new species, with
    [0 <= new_species <= unique_species <= total_sightings]. *)
Theorem yearlist_stats_bounds
    (order_by : list Aggregator.annotated → list Aggregator.annotated)
    (q : ListViews.query) (base : list Sighting) (y : Z) :
  Aggregator.order_by_contract order_by →
  Py.int (ListViews.get q "year") = Some y →
  1 ≤ y ≤ 9999 →
  ∃ ctx st,
    ListViews.yearlist order_by q base = Ok ctx
    ∧ ListViews.yl_year ctx = Some y
    ∧ ListViews.yl_year_stats ctx = Some st
    ∧ Aggregator.stat_total_sightings st
      = Z.of_nat (length (filter (λ s, year (date_seen s) = y) base))
    ∧ Aggregator.unique_species st = ListViews.yl_total_species ctx
    ∧ 0 ≤ Aggregator.new_species st ≤ Aggregator.unique_species st
    ∧ Aggregator.unique_species st ≤ Aggregator.stat_total_sightings st.
Proof.
  intros Hok Hint Hy. unfold ListViews.yearlist.
  rewrite (int_get_truthy q "year" y Hint), Hint. cbn [from_option].
  rewrite (bool_decide_eq_true_2 (1 ≤ y ≤ 9999)) by done. cbn [negb].
  rewrite (decide_False (P := y = 0)) by lia.
  set (filtered := filter (λ s, year (date_seen s) = y) base).
  assert (0 ≤ Aggregator.year_new_species base y
          ≤ Z.of_nat (length (Aggregator.bird_sightings order_by filtered))
          ∧ Z.of_nat (length (Aggregator.bird_sightings order_by filtered))
            ≤ Z.of_nat (length filtered)) as Hbounds.
  { rewrite (length_bird_sightings order_by filtered Hok).
    unfold Aggregator.year_new_species. fold filtered.
    pose proof (new_species_le_unique filtered
                  (Aggregator.bird_set
                     (filter (λ s, year (date_seen s) < y) base))).
    pose proof (length_distinct_le (bird <$> filtered)) as Hle.
    rewrite length_fmap in Hle. lia. }
  case_decide.
  - eexists _, _. split; [done|]. cbn. by repeat split; try apply Hbounds.
  - destruct (page_or_first_clamps
                (Aggregator.lifelist_entries order_by filtered)
                (default "20" (q !! "page_size"))
                (ListViews.get_default q "page" (Py.PyInt 1)))
      as (pg & -> & _).
    eexists _, _. split; [done|]. cbn. by repeat split; try apply Hbounds.
Qed.

Lemma yearlist_stats_bounds_witness :
  ∃ ctx st,
    ListViews.yearlist Aggregator.stable_order_by {[ "year" := "2023" ]}
      delta_scenario = Ok ctx
    ∧ ListViews.yl_year ctx = Some 2023
    ∧ ListViews.yl_year_stats ctx = Some st
    ∧ Aggregator.stat_total_sightings st
      = Z.of_nat (length (filter (λ s, year (date_seen s) = 2023)
                            delta_scenario))
    ∧ Aggregator.unique_species st = ListViews.yl_total_species ctx
    ∧ 0 ≤ Aggregator.new_species st ≤ Aggregator.unique_species st
    ∧ Aggregator.unique_species st ≤ Aggregator.stat_total_sightings st.
Proof.
  apply (yearlist_stats_bounds Aggregator.stable_order_by
           {[ "year" := "2023" ]} delta_scenario 2023
           stable_order_by_contract); [reflexivity|lia].
Defined.

(** In [monthlist] the flag [is_lifelist_addition] and the statistic
    [new_species] agree: when all entries are shown on one page, the
    number of entries flagged as additions to the life list is the number
    of new species of the month. *)
Theorem monthlist_additions_match_new_species
    (order_by : list Aggregator.annotated → list Aggregator.annotated)
    (q : ListViews.query) (base : list Sighting)
    (ctx : MonthList.monthlist_context) (st : Aggregator.stats) :
  Aggregator.order_by_contract order_by →
  Forall (λ s, Py.valid_date (date_seen s)) base →
  q !! "page_size" = Some "all" →
  MonthList.monthlist order_by q base = Ok ctx →
  MonthList.ml_month_stats ctx = Some st →
  Aggregator.new_species st
  = Z.of_nat (length (filter (λ e, MonthList.is_lifelist_addition e = true)
                        (MonthList.ml_lifelist_entries ctx))).
Proof.
  intros Hok Hvalid Hall. unfold MonthList.monthlist. rewrite Hall. cbn [default].
  destruct (MonthList.select _ _) as [[yv mv] sel] eqn:Hsel.
  destruct sel as [|y|y m]; cbn [MonthList.run_selection].
  - cbv beta iota zeta. rewrite decide_True by done.
    destruct mv; [|case_match|]; intros; simplify_eq/=.
  - case_decide; [|done]. cbv beta iota zeta. rewrite decide_True by done.
    destruct mv; [|case_match|]; intros; simplify_eq/=.
  - case_decide as Hy; [|done]. cbv beta iota zeta. rewrite decide_True by done.
    destruct (select_YearMonth _ _ _ _ _ _ Hsel) as [Hm ->].
    rewrite (month_additions_count order_by base y m Hok Hvalid Hy Hm).
    intros [= <-] [= <-]. done.
Qed.

Lemma monthlist_additions_match_new_species_witness :
  ∃ ctx st,
    MonthList.monthlist Aggregator.stable_order_by
      {[ "year" := "2023"; "month" := "4"; "page_size" := "all" ]}
      delta_scenario = Ok ctx
    ∧ MonthList.ml_month_stats ctx = Some st
    ∧ Aggregator.new_species st
      = Z.of_nat (length (filter (λ e, MonthList.is_lifelist_addition e = true)
                            (MonthList.ml_lifelist_entries ctx))).
Proof.
  eexists _, _. split; [by vm_compute|]. split; [reflexivity|].
  apply (monthlist_additions_match_new_species Aggregator.stable_order_by
           {[ "year" := "2023"; "month" := "4"; "page_size" := "all" ]}
           delta_scenario _ _ stable_order_by_contract);
    [decide_by_compute|reflexivity|by vm_compute|reflexivity].
Defined.

(** [monthlist] fails when a month is given without a year: neither
    branch of the parameter handling converts the month, and
    [calendar.month_name[month]] is then indexed with a [str]. *)
Theorem monthlist_month_without_year
    (order_by : list Aggregator.annotated → list Aggregator.annotated)
    (q : ListViews.query) (base : list Sighting) :
  Py.truthy (ListViews.get q "year") = false →
  Py.truthy (ListViews.get q "month") = true →
  MonthList.monthlist order_by q base = Raise MonthList.TypeError.
Proof.
  intros Hyear Hmonth. unfold MonthList.monthlist, MonthList.select.
  rewrite Hyear. cbn [andb MonthList.run_selection].
  assert (∃ s, ListViews.get q "month" = Py.PyStr s) as [s Hs].
  { unfold ListViews.get in *. destruct (q !! "month") as [s|]; [by exists s|done]. }
  case_decide.
  - by rewrite Hs, <- Hs, Hmonth.
  - destruct (page_or_first_clamps
                (MonthList.monthlist_entries order_by base base)
                (default "20" (q !! "page_size"))
                (ListViews.get_default q "page" (Py.PyInt 1)))
      as (pg & -> & _).
    by rewrite Hs, <- Hs, Hmonth.
Qed.

Lemma monthlist_month_without_year_witness :
  MonthList.monthlist Aggregator.stable_order_by {[ "month" := "5" ]}
    delta_scenario
  = Raise MonthList.TypeError.
Proof.
  apply (monthlist_month_without_year Aggregator.stable_order_by
           {[ "month" := "5" ]} delta_scenario); reflexivity.
Defined.

(** ** What [yearlist] and [monthlist] answer with *)

Section ViewFacts.
Import MonthList.

Lemma yearlist_Ok (order_by : list annotated → list annotated) (q : query)
    (base : list Sighting) (year_val : option Z) (filtered : list Sighting) :
  (if Py.truthy (get q "year") then
     match Py.int (get q "year") with
     | Some y => (Some y, filter (λ s, year (date_seen s) = y) base)
     | None => (None, base)
     end
   else (None, base)) = (year_val, filtered) →
  from_option (λ y, bool_decide (1 ≤ y ≤ 9999)) true year_val = true →
  let raw := default "20" (q !! "page_size") in
  let entries := lifelist_entries order_by filtered in
  let pg := first_policy_page entries raw (get_default q "page" (Py.PyInt 1)) in
  let total := Z.of_nat (length (bird_sightings order_by filtered)) in
  let year_stats :=
    match year_val with
    | Some y =>
        if decide (y = 0) then None
        else Some (mkStats (Z.of_nat (length filtered)) total
                     (year_new_species base y))
    | None => None
    end in
  yearlist order_by q base
  = Ok (if decide (raw = "all")
        then mkYearlist entries total year_val year_stats None false raw
        else mkYearlist (Paginator.page_object_list pg) total year_val
               year_stats (Some pg)
               (bool_decide (1 < Paginator.page_num_pages pg)) raw).
Proof.
  intros Hyear Hrange. cbn zeta. unfold yearlist. rewrite Hyear.
  cbv beta iota zeta. rewrite Hrange. cbn [negb].
  case_decide; [done|]. by rewrite page_or_first_at.
Qed.


Lemma month_new_species_Some (base : list Sighting) (y m : Z) :
  1 ≤ y ≤ 9999 → 1 ≤ m ≤ 12 →
  month_new_species base y m
  = Some (Z.of_nat
            (size (bird_set
                     (filter (λ s, year (date_seen s) = y
                                   ∧ month (date_seen s) = m) base)
                   ∖ bird_set
                       (filter (λ s, date_lt (date_seen s) (Date y m 1)) base)))).
Proof.
  intros Hy Hm. unfold month_new_species, mk_date.
  rewrite decide_True; [done|].
  assert (28 ≤ days_in_month y m)
    by (unfold days_in_month; repeat case_match; lia).
  unfold valid_date. cbn [year month day]. lia.
Qed.

Lemma run_selection_YearMonth (base filtered : list Sighting) (y m : Z) :
  run_selection (YearMonth y m) base = Ok filtered →
  1 ≤ y ≤ 9999
  ∧ filtered
    = filter (λ s, year (date_seen s) = y ∧ month (date_seen s) = m) base.
Proof. cbn. case_decide; [|done]. by intros [= <-]. Qed.

Lemma monthlist_Ok (order_by : list annotated → list annotated) (q : query)
    (base : list Sighting) (yv mv : Py.value) (sel : selection)
    (filtered : list Sighting) :
  select (get q "year") (get q "month") = (yv, mv, sel) →
  run_selection sel base = Ok filtered →
  (∀ s, mv = Py.PyStr s → s = "") →
  let raw := default "20" (q !! "page_size") in
  let entries := monthlist_entries order_by base filtered in
  let pg := first_policy_page entries raw (get_default q "page" (Py.PyInt 1)) in
  let total := Z.of_nat (length (bird_sightings order_by filtered)) in
  let month_stats :=
    match sel with
    | YearMonth y m =>
        Some (mkStats (Z.of_nat (length filtered)) total
                (default 0 (month_new_species base y m)))
    | _ => None
    end in
  monthlist order_by q base
  = Ok (if decide (raw = "all")
        then mkMonthlist entries total yv mv month_stats None false raw
        else mkMonthlist (Paginator.page_object_list pg) total yv mv
               month_stats (Some pg)
               (bool_decide (1 < Paginator.page_num_pages pg)) raw).
Proof.
  intros Hsel Hrun Hmv. cbn zeta. unfold monthlist. rewrite Hsel.
  cbv beta iota zeta. rewrite Hrun. cbv beta iota zeta.
  rewrite page_or_first_at.
  assert (match mv with
          | Py.PyStr _ => Py.truthy mv = false
          | _ => True
          end) as Hfalsy.
  { destruct mv as [|s|n]; [done| |done]. by rewrite (Hmv s eq_refl). }
  destruct sel as [|y|y m].
  - case_decide; cbv beta iota zeta;
      destruct mv; try done; by rewrite Hfalsy.
  - case_decide; cbv beta iota zeta;
      destruct mv; try done; by rewrite Hfalsy.
  - destruct (run_selection_YearMonth _ _ _ _ Hrun) as [Hy _].
    destruct (select_YearMonth _ _ _ _ _ _ Hsel) as [Hm ->].
    rewrite (month_new_species_Some base y m Hy Hm).
    by case_decide.
Qed.

Lemma select_year_month (year_param month_param : string) (y m : Z) :
  Py.int_of_str year_param = Some y → Py.int_of_str month_param = Some m →
  1 ≤ m ≤ 12 →
  select (Py.PyStr year_param) (Py.PyStr month_param)
  = (Py.PyInt y, Py.PyInt m, YearMonth y m).
Proof.
  intros Hy Hm Hrange. unfold select.
  assert (∀ s k, Py.int_of_str s = Some k → Py.truthy (Py.PyStr s) = true)
    as Htruthy.
  { intros s k Hs. cbn. destruct (decide (s = "")) as [->|Hne]; [done|].
    by rewrite bool_decide_eq_false_2. }
  rewrite (Htruthy _ _ Hy), (Htruthy _ _ Hm). cbn [andb Py.int].
  rewrite Hy, Hm. by rewrite decide_True.
Qed.

(** C3: the number of new species that [yearlist] and [monthlist] compute
    is the size of the difference between the birds of the window and the
    birds of the sightings dated strictly before the first day of the
    window: before 1 January for the year, before the first of the month
    for the month.  Both views answer with that number in their
    statistics.  In the scenario the number for 2023 is 1. *)
Theorem new_species_is_set_difference
    (order_by : list annotated → list annotated) (q : query)
    (base : list Sighting) (y m : Z) :
  Forall (λ s, valid_date (date_seen s)) base →
  1 ≤ y ≤ 9999 → 1 ≤ m ≤ 12 →
  year_new_species base y
  = newSpeciesDelta (Date y 1 1)
      (filter (λ s, year (date_seen s) = y) base) base
  ∧ month_new_species base y m
    = Some (newSpeciesDelta (Date y m 1)
              (filter (λ s, year (date_seen s) = y ∧ month (date_seen s) = m)
                 base) base)
  ∧ (∀ year_param, q !! "year" = Some year_param →
       Py.int_of_str year_param = Some y →
       ∃ ctx st, yearlist order_by q base = Ok ctx
                 ∧ yl_year_stats ctx = Some st
                 ∧ new_species st
                   = newSpeciesDelta (Date y 1 1)
                       (filter (λ s, year (date_seen s) = y) base) base)
  ∧ (∀ year_param month_param,
       q !! "year" = Some year_param → q !! "month" = Some month_param →
       Py.int_of_str year_param = Some y →
       Py.int_of_str month_param = Some m →
       ∃ ctx st, MonthList.monthlist order_by q base = Ok ctx
                 ∧ ml_year ctx = Py.PyInt y ∧ ml_month ctx = Py.PyInt m
                 ∧ ml_month_stats ctx = Some st
                 ∧ new_species st
                   = newSpeciesDelta (Date y m 1)
                       (filter (λ s, year (date_seen s) = y
                                     ∧ month (date_seen s) = m) base) base)
  ∧ year_new_species delta_scenario 2023 = 1.
Proof.
  intros Hvalid Hy Hm. rewrite Forall_forall in Hvalid.
  assert (year_new_species base y
          = newSpeciesDelta (Date y 1 1)
              (filter (λ s, year (date_seen s) = y) base) base) as Hyear.
  { unfold year_new_species, newSpeciesDelta. do 4 f_equal.
    apply filter_ext_in. intros s Hs.
    apply year_lt_before_january. by apply Hvalid. }
  assert (month_new_species base y m
          = Some (newSpeciesDelta (Date y m 1)
                    (filter (λ s, year (date_seen s) = y
                                  ∧ month (date_seen s) = m) base) base))
    as Hmonth by by rewrite month_new_species_Some.
  split; [done|]. split; [done|]. split; [|split].
  - intros year_param Hq Hint.
    assert (Py.truthy (get q "year") = true ∧ Py.int (get q "year") = Some y)
      as [Htruthy Hint'].
    { unfold get. rewrite Hq. cbn [from_option Py.int]. split; [|done].
      cbn. destruct (decide (year_param = "")) as [->|Hne]; [done|].
      by rewrite bool_decide_eq_false_2. }
    rewrite (yearlist_Ok order_by q base (Some y)
               (filter (λ s, year (date_seen s) = y) base)).
    + rewrite (decide_False (P := y = 0)) by lia.
      case_decide; do 2 eexists; (split; [done|]); (split; [done|]); exact Hyear.
    + by rewrite Htruthy, Hint'.
    + cbn [from_option]. by rewrite bool_decide_eq_true_2.
  - intros year_param month_param Hqy Hqm Hinty Hintm.
    rewrite (monthlist_Ok order_by q base (Py.PyInt y) (Py.PyInt m)
               (YearMonth y m)
               (filter (λ s, year (date_seen s) = y ∧ month (date_seen s) = m)
                  base)).
    + rewrite Hmonth. cbn [default from_option id].
      case_decide; do 2 eexists; do 3 (split; [done|]); done.
    + unfold get. rewrite Hqy, Hqm. cbn [from_option].
      by apply select_year_month.
    + cbn. by rewrite decide_True.
    + by intros s.
  - by vm_compute.
Qed.

Lemma new_species_is_set_difference_witness :
  year_new_species delta_scenario 2023
  = newSpeciesDelta (Date 2023 1 1)
      (filter (λ s, year (date_seen s) = 2023) delta_scenario) delta_scenario
  ∧ month_new_species delta_scenario 2023 4
    = Some (newSpeciesDelta (Date 2023 4 1)
              (filter (λ s, year (date_seen s) = 2023 ∧ month (date_seen s) = 4)
                 delta_scenario) delta_scenario)
  ∧ (∃ ctx st, yearlist stable_order_by {[ "year" := "2023" ]} delta_scenario
               = Ok ctx
               ∧ yl_year_stats ctx = Some st ∧ new_species st = 1)
  ∧ (∃ ctx st, MonthList.monthlist stable_order_by
                 {[ "year" := "2023"; "month" := "4" ]} delta_scenario = Ok ctx
               ∧ ml_month_stats ctx = Some st ∧ new_species st = 1).
Proof.
  pose proof (new_species_is_set_difference stable_order_by
                {[ "year" := "2023" ]} delta_scenario 2023 4) as Hy.
  pose proof (new_species_is_set_difference stable_order_by
                {[ "year" := "2023"; "month" := "4" ]} delta_scenario 2023 4)
    as Hm.
  destruct Hy as (H1 & H2 & H3 & _); [decide_by_compute|lia|lia|].
  destruct Hm as (_ & _ & _ & H4 & _); [decide_by_compute|lia|lia|].
  split; [done|]. split; [done|]. split.
  - destruct (H3 "2023") as (ctx & st & Hctx & Hst & Hn); [done|done|].
    exists ctx, st. split; [done|]. split; [done|]. rewrite Hn. by vm_compute.
  - destruct (H4 "2023" "4") as (ctx & st & Hctx & _ & _ & Hst & Hn);
      [done..|].
    exists ctx, st. split; [done|]. split; [done|]. rewrite Hn. by vm_compute.
Defined.


End ViewFacts.
(** ** [location_edit] keeps the hierarchy a forest *)

Section EditFacts.
Import Paths Invariants.

Lemma depth_mono_le f1 f2 locs l d :
  (f1 ≤ f2)%nat → depth f1 locs l = Some d → depth f2 locs l = Some d.
Proof.
  induction 1 as [|f2 _ IH]; [done|]. intros Hd. by apply depth_mono, IH.
Qed.

Lemma depth_fuel_irrelevant f1 f2 locs l d1 d2 :
  depth f1 locs l = Some d1 → depth f2 locs l = Some d2 → d1 = d2.
Proof.
  intros H1 H2.
  apply (depth_mono_le f1 (f1 `max` f2)) in H1; [|lia].
  apply (depth_mono_le f2 (f1 `max` f2)) in H2; [|lia]. congruence.
Qed.

Lemma depth_enough_fuel locs :
  ∀ f l d f', depth f locs l = Some d → (d < f')%nat →
    depth f' locs l = Some d.
Proof.
  induction f as [|f IH]; intros l d f' Hd Hlt; [done|].
  destruct f' as [|f']; [lia|]. simpl in Hd |- *.
  destruct (parent_location l) as [p|]; [|done].
  destruct (get_location locs p) as [q|]; [|done].
  destruct (depth f locs q) as [dq|] eqn:Hq; simpl in Hd; [|done].
  injection Hd as <-. rewrite (IH q dq f' Hq); [done|lia].
Qed.

(** The rows an upward walk visits are rows of the table, and no row is
    visited twice: each lies at a smaller depth than the one before. *)
Lemma depth_walk locs :
  ∀ f l d, depth f locs l = Some d →
    ∃ path, length path = d ∧ NoDup path ∧ (l ∉ path)
      ∧ Forall (λ x, x ∈ locs
                     ∧ ∃ f' dx, depth f' locs x = Some dx ∧ (dx < d)%nat) path.
Proof.
  induction f as [|f IH]; intros l d Hd; [done|].
  pose proof Hd as Hd'. simpl in Hd.
  destruct (parent_location l) as [p|];
    [|injection Hd as <-; exists []; repeat split;
      [constructor|by intros ?%elem_of_nil|constructor]].
  destruct (get_location locs p) as [q|] eqn:Hq;
    [|injection Hd as <-; exists []; repeat split;
      [constructor|by intros ?%elem_of_nil|constructor]].
  destruct (depth f locs q) as [dq|] eqn:Hdq; simpl in Hd; [|done].
  injection Hd as <-.
  destruct (IH q dq Hdq) as (path & Hlen & Hnd & Hq_notin & Hall).
  destruct (get_location_Some _ _ _ Hq) as [_ Hq_in].
  exists (q :: path). split; [simpl; lia|]. split; [by constructor|]. split.
  - rewrite elem_of_cons. intros [->|Hin].
    + pose proof (depth_fuel_irrelevant _ _ _ _ _ _ Hd' Hdq). lia.
    + rewrite Forall_forall in Hall.
      destruct (Hall l Hin) as (_ & f' & dx & Hdx & Hlt).
      pose proof (depth_fuel_irrelevant _ _ _ _ _ _ Hd' Hdx). lia.
  - constructor.
    + split; [done|]. exists f, dq. split; [done|lia].
    + eapply Forall_impl; [exact Hall|]. simpl.
      intros x (Hx & f' & dx & Hdx & Hlt). split; [done|].
      exists f', dx. split; [done|lia].
Qed.

(** A walk that ends, from a row of the table, ends within as many steps
    as the table has rows. *)
Lemma depth_lt_length locs f l d :
  l ∈ locs → depth f locs l = Some d → (d < length locs)%nat.
Proof.
  intros Hl Hd.
  destruct (depth_walk locs f l d Hd) as (path & Hlen & Hnd & Hnotin & Hall).
  assert (l :: path ⊆+ locs) as Hsub.
  { apply NoDup_submseteq; [by constructor|].
    intros x. rewrite elem_of_cons. intros [->|Hx]; [done|].
    rewrite Forall_forall in Hall. by destruct (Hall x Hx). }
  apply submseteq_length in Hsub. simpl in Hsub. lia.
Qed.

Lemma depth_within_table locs f l d :
  l ∈ locs → depth f locs l = Some d → depth (length locs) locs l = Some d.
Proof.
  intros Hl Hd. eapply depth_enough_fuel; [exact Hd|].
  by eapply depth_lt_length.
Qed.

Lemma circular_check_NotReached locs target :
  ∀ fuel c, circular_check fuel locs c target = Some NotReached →
    ¬ reaches locs target c.
Proof.
  induction fuel as [|f IH]; intros c Hc; [done|]. simpl in Hc.
  case_decide as Hid; [done|].
  intros Hreach. inversion Hreach as [c' Hhere|c' i q Hp Hq Hup]; subst; [done|].
  rewrite Hp, Hq in Hc. by apply (IH q Hc).
Qed.

Lemma circular_check_returns locs target :
  ∀ fuel c d, depth fuel locs c = Some d →
    is_Some (circular_check fuel locs c target).
Proof.
  induction fuel as [|f IH]; intros c d Hd; [done|]. simpl in Hd |- *.
  case_decide; [done|].
  destruct (parent_location c) as [p|]; [|done].
  destruct (get_location locs p) as [q|]; [|done].
  destruct (depth f locs q) as [dq|] eqn:Hq; [|done]. by eapply IH.
Qed.

Lemma saved_row_id i c l : loc_id (saved_row i c l) = loc_id l.
Proof. unfold saved_row. by case_decide. Qed.

Lemma get_location_saved i c locs k :
  get_location (saved_row i c <$> locs) k = saved_row i c <$> get_location locs k.
Proof.
  unfold get_location. induction locs as [|x locs IH]; [done|].
  cbn [fmap list_fmap list_find]. rewrite saved_row_id.
  case_decide; [done|].
  destruct (list_find _ (saved_row i c <$> locs)) as [[n y]|];
    destruct (list_find _ locs) as [[n' y']|]; simpl in *; congruence.
Qed.

(** A walk that never meets the edited row is the same after the edit. *)
Lemma depth_saved_away i c locs :
  ∀ f y d, depth f locs y = Some d → ¬ reaches locs i y →
    depth f (saved_row i c <$> locs) y = Some d.
Proof.
  induction f as [|f IH]; intros y d Hd Hnot; [done|]. simpl in Hd |- *.
  destruct (parent_location y) as [p|] eqn:Hp; [|done].
  rewrite get_location_saved.
  destruct (get_location locs p) as [q|] eqn:Hq; [|done]. simpl.
  destruct (depth f locs q) as [dq|] eqn:Hdq; simpl in Hd; [|done].
  assert (¬ reaches locs i q) as Hq_not.
  { intros Hr. apply Hnot. by eapply reaches_up. }
  assert (saved_row i c q = q) as ->.
  { unfold saved_row. case_decide as Hid; [|done].
    destruct Hq_not. by apply reaches_here. }
  by rewrite (IH q dq Hdq Hq_not).
Qed.

(** After an edit whose new parent does not lead back to the edited row,
    the walk from every row ends. *)
Lemma depth_saved_ends i c locs :
  (∀ P, cleaned_parent_location c = Some P →
     get_location locs (loc_id P) = Some P ∧ ¬ reaches locs i P
     ∧ is_Some (depth (length locs) locs P)) →
  ∀ f x d, depth f locs x = Some d →
    ∃ f' d', depth f' (saved_row i c <$> locs) (saved_row i c x) = Some d'.
Proof.
  intros Hparent. induction f as [|f IH]; intros x d Hd; [done|].
  unfold saved_row at 2. case_decide as Hid.
  - destruct (cleaned_parent_location c) as [P|] eqn:HP.
    + destruct (Hparent P eq_refl) as (HgetP & HnotP & [dP HdP]).
      exists (S (length locs)), (S dP). cbn.
      rewrite get_location_saved, HgetP. simpl.
      assert (saved_row i c P = P) as ->.
      { unfold saved_row. case_decide as HidP; [|done].
        destruct HnotP. by apply reaches_here. }
      by rewrite (depth_saved_away i c locs _ P dP HdP HnotP).
    + by exists 1%nat, O.
  - simpl in Hd.
    destruct (parent_location x) as [p|] eqn:Hp;
      [|exists 1%nat, O; simpl; by rewrite Hp].
    destruct (get_location locs p) as [q|] eqn:Hq.
    + destruct (depth f locs q) as [dq|] eqn:Hdq; simpl in Hd; [|done].
      destruct (IH q dq Hdq) as (f' & d' & Hd').
      exists (S f'), (S d'). simpl.
      by rewrite Hp, get_location_saved, Hq; simpl; rewrite Hd'.
    + exists 1%nat, O. simpl. by rewrite Hp, get_location_saved, Hq.
Qed.

Lemma save_location_forest i c db :
  pk_unique (locations db) → parent_links_acyclic (locations db) →
  (∀ P, cleaned_parent_location c = Some P →
     get_location (locations db) (loc_id P) = Some P
     ∧ ¬ reaches (locations db) i P) →
  pk_unique (locations (save_location i c db))
  ∧ parent_links_acyclic (locations (save_location i c db))
  ∧ (parent_links_valid (locations db) →
     parent_links_valid (locations (save_location i c db))).
Proof.
  intros Hpk Hacyc Hparent.
  change (locations (save_location i c db))
    with (saved_row i c <$> locations db).
  set (locs := locations db) in *.
  split; [|split].
  - unfold pk_unique in *. rewrite <- list_fmap_compose.
    erewrite list_fmap_ext; [exact Hpk|]. intros _ x _. apply saved_row_id.
  - unfold parent_links_acyclic. rewrite Forall_forall. intros x' Hx'.
    apply list_elem_of_fmap in Hx' as (x & -> & Hx).
    destruct (acyclic_depth locs x Hacyc Hx) as [d Hd].
    destruct (depth_saved_ends i c locs) with (f := length locs) (x := x) (d := d)
      as (f' & d' & Hd'); [|done|].
    { intros P HP. destruct (Hparent P HP) as [Hget Hnot].
      split; [done|]. split; [done|].
      destruct (get_location_Some _ _ _ Hget) as [_ HPin].
      destruct (acyclic_depth locs P Hacyc HPin) as [dP HdP]. by exists dP. }
    exists d'. eapply depth_within_table; [|exact Hd'].
    apply list_elem_of_fmap. by exists x.
  - unfold parent_links_valid. rewrite !Forall_forall. intros Hvalid x' Hx' p Hp.
    rewrite get_location_saved. apply fmap_is_Some.
    apply list_elem_of_fmap in Hx' as (x & -> & Hx).
    unfold saved_row in Hp. case_decide as Hid.
    + simpl in Hp. destruct (cleaned_parent_location c) as [P|] eqn:HP; [|done].
      injection Hp as <-. destruct (Hparent P eq_refl) as [Hget _].
      by rewrite Hget.
    + by apply (Hvalid x Hx).
Qed.

Lemma LocationForm_clean_parent locs post c P :
  LocationForm_clean locs post = Some c →
  cleaned_parent_location c = Some P →
  get_location locs (loc_id P) = Some P.
Proof.
  unfold LocationForm_clean. repeat case_decide; [done..|].
  unfold model_choice.
  destruct (post !! "parent_location") as [raw|]; [|by intros [= <-]].
  case_decide; [by intros [= <-]|].
  destruct (Py.int_of_str raw) as [k|]; simpl; [|done].
  destruct (get_location locs k) as [q|] eqn:Hq; [|done].
  intros [= <-] [= <-]. by destruct (get_location_Some _ _ _ Hq) as [-> _].
Qed.

(** Whatever the request, [location_edit] leaves the table of locations a
    forest: primary keys stay unique, the parent links stay free of
    cycles, and links that pointed to rows still do.  With a loop budget
    above the number of rows the view returns. *)
Theorem location_edit_keeps_forest
    (m : http_method) (i : Z) (post : form_data) (db : DB) :
  Hierarchy.pk_unique (locations db) →
  Hierarchy.parent_links_acyclic (locations db) →
  ∀ fuel, (length (locations db) ≤ fuel)%nat →
    ∃ r db', FormViews.location_edit fuel m i post db = Some (r, db')
      ∧ Hierarchy.pk_unique (locations db')
      ∧ Hierarchy.parent_links_acyclic (locations db')
      ∧ (Paths.parent_links_valid (locations db) →
         Paths.parent_links_valid (locations db'))
      ∧ birds db' = birds db ∧ trips db' = trips db
      ∧ sightings db' = sightings db.
Proof.
  intros Hpk Hacyc fuel Hfuel. unfold location_edit.
  destruct (get_location (locations db) i) as [l|] eqn:Hl;
    [|by eexists _, _].
  destruct m; [by eexists _, _|].
  destruct (LocationForm_clean (locations db) post) as [c|] eqn:Hc;
    [|by eexists _, _].
  destruct (cleaned_parent_location c) as [P|] eqn:HP.
  - pose proof (LocationForm_clean_parent _ _ _ _ Hc HP) as HgetP.
    destruct (get_location_Some _ _ _ HgetP) as [_ HPin].
    destruct (acyclic_depth _ P Hacyc HPin) as [dP HdP].
    destruct (circular_check_returns (locations db) (loc_id l) _ P dP HdP)
      as [w Hw].
    rewrite (circular_check_mono_le _ fuel _ _ _ _ Hfuel Hw).
    destruct w; [by eexists _, _| |by eexists _, _].
    eexists _, _. split; [done|].
    destruct (save_location_forest (loc_id l) c db Hpk Hacyc) as (? & ? & ?);
      [|done].
    intros P' HP'. rewrite HP in HP'. injection HP' as <-. split; [done|].
    by eapply circular_check_NotReached.
  - eexists _, _. split; [done|].
    destruct (save_location_forest (loc_id l) c db Hpk Hacyc) as (? & ? & ?);
      [|done].
    intros P' HP'. by rewrite HP in HP'.
Qed.

Lemma location_edit_keeps_forest_witness :
  ∃ r db',
    FormViews.location_edit 4 POST 3
      {[ "location_name" := "C"; "parent_location" := "4" ]} sample_db
    = Some (r, db')
    ∧ Hierarchy.pk_unique (locations db')
    ∧ Hierarchy.parent_links_acyclic (locations db')
    ∧ (Paths.parent_links_valid (locations sample_db) →
       Paths.parent_links_valid (locations db'))
    ∧ birds db' = birds sample_db ∧ trips db' = trips sample_db
    ∧ sightings db' = sightings sample_db.
Proof.
  apply (location_edit_keeps_forest POST 3
           {[ "location_name" := "C"; "parent_location" := "4" ]} sample_db);
    [decide_by_compute|decide_by_compute|simpl; lia].
Defined.

End EditFacts.
(** ** Bulk deletion of birds *)

Section BulkFacts.
Import BulkViews.

Lemma Bird_delete_no_sightings b db :
  bird_sighting_count db b = O →
  Bird_delete b db
  = mkDB (filter (λ x, bird_id x ≠ bird_id b) (birds db)) (locations db)
      (trips db) (sightings db).
Proof.
  unfold bird_sighting_count, Bird_delete. intros Hcount. f_equal.
  apply filter_all. intros s Hs Heq.
  assert (s ∈ filter (λ s, bird s = bird_id b) (sightings db)) as Hin
    by by apply list_elem_of_filter.
  destruct (filter _ (sightings db)); [by apply elem_of_nil in Hin|done].
Qed.

Lemma delete_birds_no_sightings bs :
  ∀ db, Forall (λ b, bird_sighting_count db b = O) bs →
    delete_birds bs db
    = mkDB (filter (λ x, bird_id x ∉ bird_id <$> bs) (birds db)) (locations db)
        (trips db) (sightings db).
Proof.
  induction bs as [|b bs IH]; intros db Hall.
  - simpl. destruct db as [bi lo tr si]. simpl. f_equal.
    symmetry. apply filter_all. intros x _. apply not_elem_of_nil.
  - apply Forall_cons in Hall as [Hb Hbs].
    unfold delete_birds in *. cbn [foldl].
    rewrite (Bird_delete_no_sightings b db Hb), IH by done. simpl. f_equal.
    rewrite list_filter_filter. apply filter_ext_in. intros x _.
    cbn [fmap list_fmap]. rewrite not_elem_of_cons. tauto.
Qed.

Lemma fmap_nil_inv' {X Y} (f : X → Y) (l : list X) : f <$> l = [] → l = [].
Proof. by destruct l. Qed.

(** [bird_bulk_delete] is all or nothing, and touches no other table.
    Whatever the request, the sightings, locations and trips are as
    before.  Unless the answer is the success message the birds are as
    before too; with the success message exactly the birds whose key is
    among the submitted ones are gone, and none of them had a sighting. *)
Theorem bird_bulk_delete_all_or_nothing
    (be : BulkViews.key_backend) (m : http_method) (post : form_data)
    (db : DB) :
  let res := BulkViews.bird_bulk_delete be m post db in
  sightings res.2 = sightings db ∧ locations res.2 = locations db
  ∧ trips res.2 = trips db
  ∧ match res.1 with
    | JsonResponse true _ =>
        ∃ bird_ids,
          BulkViews.clean_selected_birds (post !! "selected_birds")
          = Some bird_ids
          ∧ birds res.2 = filter (λ b, bird_id b ∉ bird_ids) (birds db)
          ∧ Forall (λ b, bird_id b ∈ bird_ids →
                         BulkViews.bird_sighting_count db b = O) (birds db)
    | _ => res.2 = db
    end.
Proof.
  unfold bird_bulk_delete. destruct m; [done|].
  destruct (clean_selected_birds _) as [bird_ids|] eqn:Hclean; [|done].
  destruct (_ && _); [done|].
  set (selected := filter (λ b, bird_id b ∈ bird_ids) (birds db)).
  case_decide as Hblocked; [done|].
  apply fmap_nil_inv' in Hblocked.
  assert (∀ b, b ∈ selected → bird_sighting_count db b = O) as Hnone.
  { intros b Hb.
    destruct (decide (0 < bird_sighting_count db b)%nat) as [Hpos|]; [|lia].
    assert (b ∈ filter (λ b, (0 < bird_sighting_count db b)%nat) selected)
      as Hin by by apply list_elem_of_filter.
    rewrite Hblocked in Hin. by apply elem_of_nil in Hin. }
  rewrite (filter_all (λ b, ¬ (0 < bird_sighting_count db b)%nat) selected)
    by (intros b Hb; rewrite (Hnone b Hb); lia).
  rewrite delete_birds_no_sightings by (by apply Forall_forall).
  cbn. repeat split.
  exists bird_ids. split; [done|]. split.
  - apply filter_ext_in. intros x Hx. subst selected. split.
    + intros Hnot Hin. apply Hnot, list_elem_of_fmap. exists x.
      split; [done|]. by apply list_elem_of_filter.
    + intros Hnot (y & Hid & Hy)%list_elem_of_fmap.
      apply list_elem_of_filter in Hy as [Hy _]. by rewrite Hid in Hnot.
  - apply Forall_forall. intros b Hb Hin. apply Hnone.
    by apply list_elem_of_filter.
Qed.

Lemma get_bird_None db i :
  get_bird db i = None → ∀ b, b ∈ birds db → bird_id b ≠ i.
Proof.
  unfold get_bird. destruct (list_find _ _) as [[k x]|] eqn:Hf; [done|].
  intros _ b Hb. apply list_find_None in Hf. rewrite Forall_forall in Hf.
  by apply Hf.
Qed.

(** One key submitted to [bird_bulk_delete] leaves the database as
    [bird_delete] on that key does.  The answers differ for a key that no
    bird has: [bird_delete] answers 404, [bird_bulk_delete] reports the
    deletion of 0 birds as a success. *)
Theorem bird_bulk_delete_single
    (be : BulkViews.key_backend) (post : form_data) (db : DB) (i : Z) :
  BulkViews.clean_selected_birds (post !! "selected_birds") = Some [i] →
  BulkViews.key_min be ≤ i ≤ BulkViews.key_max be →
  (BulkViews.bird_bulk_delete be POST post db).2 = (bird_delete POST i db).2
  ∧ (get_bird db i = None →
     bird_delete POST i db = (Http404, db)
     ∧ BulkViews.bird_bulk_delete be POST post db
       = (JsonResponse true "Successfully deleted 0 bird(s): .", db)).
Proof.
  intros Hclean Hrange. unfold bird_bulk_delete, bird_delete. rewrite Hclean.
  rewrite bool_decide_true by (by apply Forall_singleton).
  rewrite andb_false_r.
  set (selected := filter (λ b, bird_id b ∈ [i]) (birds db)).
  assert (∀ b, b ∈ selected ↔ b ∈ birds db ∧ bird_id b = i) as Hsel.
  { intros b. subst selected.
    by rewrite list_elem_of_filter, list_elem_of_singleton, (comm and). }
  destruct (get_bird db i) as [bird_obj|] eqn:Hget.
  - destruct (get_bird_Some _ _ _ Hget) as [Hid Hin]. split; [|done].
    change (length (filter (λ s, bird s = bird_id bird_obj) (sightings db)))
      with (bird_sighting_count db bird_obj).
    assert (∀ b, b ∈ selected →
              bird_sighting_count db b = bird_sighting_count db bird_obj)
      as Hcount.
    { intros b [_ Hb]%Hsel. unfold bird_sighting_count. by rewrite Hb, Hid. }
    destruct (decide (0 < bird_sighting_count db bird_obj)%nat) as [Hpos|Hpos].
    + rewrite decide_True; [done|].
      assert (bird_obj ∈ filter (λ b, (0 < bird_sighting_count db b)%nat)
                           selected) as Hblocked.
      { apply list_elem_of_filter. split; [done|]. by apply Hsel. }
      destruct (filter _ selected); [by apply elem_of_nil in Hblocked|done].
    + rewrite decide_False.
      2:{ intros Hne. apply Hne.
          rewrite (filter_none (λ b, (0 < bird_sighting_count db b)%nat));
            [done|].
          intros b Hb. by rewrite (Hcount b Hb). }
      cbn [snd].
      rewrite (filter_all (λ b, ¬ (0 < bird_sighting_count db b)%nat) selected)
        by (intros b Hb; by rewrite (Hcount b Hb)).
      rewrite delete_birds_no_sightings.
      2:{ apply Forall_forall. intros b Hb. rewrite (Hcount b Hb). lia. }
      rewrite Bird_delete_no_sightings by lia. f_equal.
      apply filter_ext_in. intros x Hx. rewrite Hid. split.
      * intros Hnot Heq. apply Hnot, list_elem_of_fmap. exists x.
        split; [done|]. by apply Hsel.
      * intros Hne (y & Hy & [_ Hyi]%Hsel)%list_elem_of_fmap. congruence.
  - assert (selected = []) as ->.
    { subst selected. apply filter_none. intros b Hb.
      rewrite list_elem_of_singleton. by apply (get_bird_None db i Hget). }
    split; [done|]. by intros _.
Qed.

Lemma bird_bulk_delete_single_witness :
  (BulkViews.bird_bulk_delete (BulkViews.mkKeyBackend 1 9223372036854775807 true)
     POST {[ "selected_birds" := "2" ]} sample_db).2
  = (bird_delete POST 2 sample_db).2
  ∧ (get_bird sample_db 2 = None →
     bird_delete POST 2 sample_db = (Http404, sample_db)
     ∧ BulkViews.bird_bulk_delete
         (BulkViews.mkKeyBackend 1 9223372036854775807 true)
         POST {[ "selected_birds" := "2" ]} sample_db
       = (JsonResponse true "Successfully deleted 0 bird(s): .", sample_db)).
Proof.
  apply (bird_bulk_delete_single
           (BulkViews.mkKeyBackend 1 9223372036854775807 true)
           {[ "selected_birds" := "2" ]} sample_db 2);
    [by vm_compute|simpl; lia].
Defined.

Example bird_bulk_delete_sample :
  BulkViews.bird_bulk_delete (BulkViews.mkKeyBackend 1 9223372036854775807 true)
    POST {[ "selected_birds" := "1,2" ]} sample_db
  = (JsonResponse false
       ("Cannot delete the following birds because they have sightings: "
        +:+ quoted "Robin" +:+ " (3 sightings). Please delete their sightings first."),
     sample_db)
  ∧ BulkViews.bird_bulk_delete (BulkViews.mkKeyBackend 1 9223372036854775807 true)
      POST {[ "selected_birds" := ",2,,7," ]} sample_db
    = (JsonResponse true
         ("Successfully deleted 1 bird(s): Sparrow."),
       mkDB [ mkBird 1 "Robin" ] (locations sample_db) (trips sample_db)
         (sightings sample_db))
  ∧ BulkViews.bird_bulk_delete (BulkViews.mkKeyBackend 1 9223372036854775807 true)
      POST {[ "selected_birds" := "2,x" ]} sample_db
    = (JsonResponse false "Invalid request.", sample_db).
Proof. by vm_compute. Qed.

End BulkFacts.
(** ** Trips: what [trip_add] and [trip_edit] store, and [Trip.duration] *)

Section TripFacts.
Import TripViews.

Ltac split_month m :=
  let H := fresh in
  assert (m = 1 ∨ m = 2 ∨ m = 3 ∨ m = 4 ∨ m = 5 ∨ m = 6 ∨ m = 7 ∨ m = 8
          ∨ m = 9 ∨ m = 10 ∨ m = 11 ∨ m = 12) as H by lia;
  repeat (destruct H as [->|H]); [..|subst m].

Ltac eval_table :=
  repeat match goal with
  | |- context [DAYS_BEFORE_MONTH !!! ?n] =>
      let v := eval vm_compute in (DAYS_BEFORE_MONTH !!! n) in
      change (DAYS_BEFORE_MONTH !!! n) with v
  end.

Lemma days_before_year_succ y :
  days_before_year (y + 1)
  = days_before_year y + 365 + (if Py.is_leap y then 1 else 0).
Proof.
  unfold days_before_year, Py.is_leap. replace (y + 1 - 1) with y by lia.
  destruct (Z.eqb_spec (y mod 4) 0), (Z.eqb_spec (y mod 100) 0),
    (Z.eqb_spec (y mod 400) 0); simpl;
    Z.div_mod_to_equations; lia.
Qed.

Lemma days_before_year_mono y1 y2 :
  y1 ≤ y2 → days_before_year y1 ≤ days_before_year y2.
Proof.
  intros Hle. replace y2 with (y1 + Z.of_nat (Z.to_nat (y2 - y1))) by lia.
  induction (Z.to_nat (y2 - y1)) as [|n IH]; [by rewrite Z.add_0_r|].
  replace (y1 + Z.of_nat (S n)) with (y1 + Z.of_nat n + 1) by lia.
  rewrite days_before_year_succ. destruct (Py.is_leap _); lia.
Qed.

Lemma day_of_year_bounds y m d :
  1 ≤ m ≤ 12 → 1 ≤ d ≤ Py.days_in_month y m →
  1 ≤ days_before_month y m + d
  ∧ days_before_month y m + d ≤ 365 + (if Py.is_leap y then 1 else 0).
Proof.
  intros Hm. unfold Py.days_in_month, days_before_month.
  split_month m; destruct (Py.is_leap y); eval_table; simpl; lia.
Qed.

Lemma days_before_month_step y m1 m2 d :
  1 ≤ m1 → m1 < m2 → m2 ≤ 12 → d ≤ Py.days_in_month y m1 →
  days_before_month y m1 + d ≤ days_before_month y m2.
Proof.
  intros H1 Hlt H2. unfold Py.days_in_month, days_before_month.
  split_month m1; split_month m2; try lia; destruct (Py.is_leap y);
    eval_table; simpl; lia.
Qed.

(** The ordinal is strictly monotone on calendar dates. *)
Lemma toordinal_lt a b :
  Py.valid_date a → Py.valid_date b → Py.date_lt a b →
  toordinal a < toordinal b.
Proof.
  destruct a as [ya ma da], b as [yb mb db].
  unfold Py.valid_date, Py.date_lt, toordinal. simpl.
  intros (Hya & Hma & Hda) (Hyb & Hmb & Hdb) Hlt.
  destruct (day_of_year_bounds ya ma da Hma Hda) as [_ Ha].
  destruct (day_of_year_bounds yb mb db Hmb Hdb) as [Hb _].
  destruct Hlt as [Hy|[-> [Hm|[-> Hd]]]].
  - pose proof (days_before_year_mono (ya + 1) yb ltac:(lia)) as Hmono.
    rewrite days_before_year_succ in Hmono. lia.
  - pose proof (days_before_month_step yb ma mb da ltac:(lia) Hm ltac:(lia)
                  ltac:(lia)). lia.
  - lia.
Qed.

Lemma date_le_lt_eq a b : Py.date_le a b ↔ Py.date_lt a b ∨ a = b.
Proof.
  destruct a as [ya ma da], b as [yb mb db]. unfold Py.date_le, Py.date_lt.
  simpl. split.
  - intros [?|[-> [?|[-> Hd]]]]; [by left; left|by left; right; split; [|left]|].
    destruct (decide (da = db)) as [->|]; [by right|].
    left. right. split; [done|]. right. split; [done|lia].
  - intros [H|[= -> -> ->]]; [|right; split; [done|]; right; split; [done|lia]].
    destruct H as [?|[-> [?|[-> Hd]]]]; [by left|by right; split; [|left]|].
    right. split; [done|]. right. split; [done|lia].
Qed.

(** [Trip.duration] counts the days of the trip, both ends included: on
    calendar dates it is at least 1 exactly when the end is not before
    the start, and 1 exactly when the trip starts and ends on the same
    day. *)
Theorem duration_counts_days (t : Trip) :
  Py.valid_date (start_date t) → Py.valid_date (end_date t) →
  (1 ≤ TripViews.duration t ↔ Py.date_le (start_date t) (end_date t))
  ∧ (TripViews.duration t = 1 ↔ start_date t = end_date t).
Proof.
  intros Hs He. unfold duration.
  destruct (decide (Py.date_lt (start_date t) (end_date t))) as [Hlt|Hnlt].
  - pose proof (toordinal_lt _ _ Hs He Hlt). split.
    + split; [intros _; apply date_le_lt_eq; by left|lia].
    + split; [lia|]. intros Heq. rewrite Heq in *. lia.
  - destruct (decide (start_date t = end_date t)) as [Heq|Hne].
    + rewrite Heq. split; [|split; [done|lia]].
      split; [intros _; apply date_le_lt_eq; by right|lia].
    + assert (Py.date_lt (end_date t) (start_date t)) as Hgt.
      { apply date_lt_not_le. rewrite date_le_lt_eq. intros [?|?]; done. }
      pose proof (toordinal_lt _ _ He Hs Hgt). split.
      * split; [lia|]. rewrite date_le_lt_eq. intros [?|?]; done.
      * split; [lia|done].
Qed.

Lemma duration_counts_days_witness :
  (1 ≤ TripViews.duration (mkTrip 1 "Spring" (Date 2023 3 1) (Date 2023 3 9) "")
   ↔ Py.date_le (Date 2023 3 1) (Date 2023 3 9))
  ∧ (TripViews.duration (mkTrip 1 "Spring" (Date 2023 3 1) (Date 2023 3 9) "") = 1
     ↔ Date 2023 3 1 = Date 2023 3 9).
Proof.
  apply (duration_counts_days
           (mkTrip 1 "Spring" (Date 2023 3 1) (Date 2023 3 9) ""));
    decide_by_compute.
Defined.

Example duration_examples :
  TripViews.duration (mkTrip 1 "Spring" (Date 2023 3 1) (Date 2023 3 9) "") = 9
  ∧ TripViews.duration (mkTrip 2 "Leap" (Date 2024 2 28) (Date 2024 3 1) "") = 3
  ∧ TripViews.duration (mkTrip 3 "Year" (Date 2022 12 31) (Date 2023 1 1) "") = 2
  ∧ TripViews.toordinal (Date 1 1 1) = 1
  ∧ TripViews.toordinal (Date 2023 3 1) = 738580.
Proof. by vm_compute. Qed.

Lemma strptime_ymd_valid s d : strptime_ymd s = Some d → Py.valid_date d.
Proof.
  unfold strptime_ymd.
  destruct (split_on _ _) as [|Y [|m [|dd [|]]]]; try done.
  destruct (re_Y Y) as [y'|]; [|done]. destruct (re_m m) as [m'|]; [|done].
  destruct (re_d dd) as [d'|]; [|done]. simpl. unfold Py.mk_date.
  case_decide; [|done]. by intros [= <-].
Qed.

Lemma validate_trip_Ok post name s e desc :
  validate_trip post = Ok (name, s, e, desc) →
  post !! "trip_name" = Some name ∧ name ≠ ""
  ∧ Py.valid_date s ∧ Py.valid_date e ∧ Py.date_le s e.
Proof.
  unfold validate_trip.
  destruct (post !! "trip_name") as [n|]; [|done].
  destruct (post !! "start_date") as [sd|]; [|done].
  destruct (post !! "end_date") as [ed|]; [|done].
  case_decide as Hreq; [done|].
  destruct (strptime_ymd sd) as [s'|] eqn:Hs; [|done].
  destruct (strptime_ymd ed) as [e'|] eqn:He; [|done].
  case_decide as Hlt; [done|]. intros [= -> -> -> _].
  split; [done|]. split; [tauto|].
  split; [by eapply strptime_ymd_valid|].
  split; [by eapply strptime_ymd_valid|]. by apply date_not_lt_le.
Qed.

Lemma foldr_max_ge (l : list Z) x : x ∈ l → x ≤ foldr Z.max 0 l.
Proof.
  induction l as [|y l IH]; [by intros ?%elem_of_nil|].
  rewrite elem_of_cons. simpl. intros [->|Hx]; [lia|].
  specialize (IH Hx). lia.
Qed.

(** [trip_add] and [trip_edit] store only trips with a name, two calendar
    dates and an end not before the start, under a key no other trip has;
    they touch no other table, and a request they do not answer with the
    redirect leaves the database as it was. *)
Theorem trip_forms_store_well_formed_trips
    (st : TripViews.storage) (m : http_method) (i : Z) (post : form_data)
    (db : DB) (res : response * DB) :
  Forall TripViews.well_formed_trip (trips db) →
  NoDup (trip_id <$> trips db) →
  res = TripViews.trip_add st m post db
  ∨ res = TripViews.trip_edit st m i post db →
  Forall TripViews.well_formed_trip (trips res.2)
  ∧ NoDup (trip_id <$> trips res.2)
  ∧ birds res.2 = birds db ∧ locations res.2 = locations db
  ∧ sightings res.2 = sightings db
  ∧ ((∀ url message, res.1 ≠ Redirect url message) → res.2 = db).
Proof.
  intros Hwf Hnd [->| ->].
  - unfold trip_add. destruct m; [done|].
    destruct (validate_trip post) as [[[[name s] e] desc]|msg] eqn:Hval;
      [|done].
    destruct (stores st _); [|done]. cbn [fst snd trips birds locations sightings].
    destruct (validate_trip_Ok _ _ _ _ _ Hval) as (_ & Hname & Hs & He & Hle).
    split; [|split; [|repeat split]].
    + apply Forall_app. split; [done|]. by apply Forall_singleton.
    + rewrite fmap_app. apply NoDup_app. split; [done|]. split.
      * intros x Hx. cbn. rewrite list_elem_of_singleton. intros ->.
        apply foldr_max_ge in Hx. unfold next_trip_id in Hx. lia.
      * cbn. apply NoDup_singleton.
    + intros Hno. by destruct (Hno "trip_detail"
        ("Trip " +:+ quoted name +:+ " added successfully!")).
  - unfold trip_edit. destruct (get_trip db i) as [trip_row|]; [|done].
    destruct m; [done|].
    destruct (validate_trip post) as [[[[name s] e] desc]|msg] eqn:Hval;
      [|done].
    destruct (stores st _); [|done]. cbn [fst snd trips birds locations sightings].
    destruct (validate_trip_Ok _ _ _ _ _ Hval) as (_ & Hname & Hs & He & Hle).
    split; [|split; [|repeat split]].
    + apply Forall_fmap. eapply Forall_impl; [exact Hwf|].
      intros t Ht. simpl. by case_decide.
    + rewrite <- list_fmap_compose.
      erewrite list_fmap_ext; [exact Hnd|].
      intros _ t _. simpl. by case_decide.
    + intros Hno. by destruct (Hno "trip_detail"
        ("Trip " +:+ quoted name +:+ " updated successfully!")).
Qed.

Lemma trip_forms_store_well_formed_trips_witness :
  Forall TripViews.well_formed_trip
    (trips (TripViews.trip_add (TripViews.mkStorage (λ _, true)) POST
              {[ "trip_name" := "Autumn"; "start_date" := "2023-9-30";
                 "end_date" := "2023-10- 2" ]} sample_db).2)
  ∧ NoDup (trip_id <$> trips
             (TripViews.trip_add (TripViews.mkStorage (λ _, true)) POST
                {[ "trip_name" := "Autumn"; "start_date" := "2023-9-30";
                   "end_date" := "2023-10- 2" ]} sample_db).2)
  ∧ birds (TripViews.trip_add (TripViews.mkStorage (λ _, true)) POST
             {[ "trip_name" := "Autumn"; "start_date" := "2023-9-30";
                "end_date" := "2023-10- 2" ]} sample_db).2
    = birds sample_db
  ∧ locations (TripViews.trip_add (TripViews.mkStorage (λ _, true)) POST
                 {[ "trip_name" := "Autumn"; "start_date" := "2023-9-30";
                    "end_date" := "2023-10- 2" ]} sample_db).2
    = locations sample_db
  ∧ sightings (TripViews.trip_add (TripViews.mkStorage (λ _, true)) POST
                 {[ "trip_name" := "Autumn"; "start_date" := "2023-9-30";
                    "end_date" := "2023-10- 2" ]} sample_db).2
    = sightings sample_db
  ∧ ((∀ url message,
        (TripViews.trip_add (TripViews.mkStorage (λ _, true)) POST
           {[ "trip_name" := "Autumn"; "start_date" := "2023-9-30";
              "end_date" := "2023-10- 2" ]} sample_db).1
        ≠ Redirect url message) →
     (TripViews.trip_add (TripViews.mkStorage (λ _, true)) POST
        {[ "trip_name" := "Autumn"; "start_date" := "2023-9-30";
           "end_date" := "2023-10- 2" ]} sample_db).2 = sample_db).
Proof.
  apply (trip_forms_store_well_formed_trips (TripViews.mkStorage (λ _, true))
           POST 1
           {[ "trip_name" := "Autumn"; "start_date" := "2023-9-30";
              "end_date" := "2023-10- 2" ]} sample_db);
    [decide_by_compute|decide_by_compute|by left].
Defined.

Example trip_add_samples :
  TripViews.trip_add (TripViews.mkStorage (λ _, true)) POST
    {[ "trip_name" := "Autumn"; "start_date" := "2023-9-30";
       "end_date" := "2023-10- 2" ]} sample_db
  = (Redirect "trip_detail" ("Trip " +:+ quoted "Autumn" +:+ " added successfully!"),
     mkDB (birds sample_db) (locations sample_db)
       (trips sample_db
        ++ [ mkTrip 2 "Autumn" (Date 2023 9 30) (Date 2023 10 2) "" ])
       (sightings sample_db))
  ∧ TripViews.trip_add (TripViews.mkStorage (λ _, true)) POST
      {[ "trip_name" := "Autumn"; "start_date" := "2023-02-29";
         "end_date" := "2023-03-01" ]} sample_db
    = (Render TripViews.trip_template (Some "Invalid date format."), sample_db)
  ∧ TripViews.trip_add (TripViews.mkStorage (λ _, true)) POST
      {[ "trip_name" := "Autumn"; "start_date" := " 2023-03-01";
         "end_date" := "2023-03-01" ]} sample_db
    = (Render TripViews.trip_template (Some "Invalid date format."), sample_db)
  ∧ TripViews.trip_edit (TripViews.mkStorage (λ _, true)) POST 1
      {[ "trip_name" := "Spring"; "start_date" := "2023-03-09";
         "end_date" := "2023-03-01" ]} sample_db
    = (Render TripViews.trip_template
         (Some "End date cannot be before start date."), sample_db)
  ∧ TripViews.trip_edit (TripViews.mkStorage (λ _, true)) POST 1
      {[ "trip_name" := " "; "start_date" := "2023-03-09";
         "end_date" := "2023-03-09"; "description" := "one day" ]} sample_db
    = (Redirect "trip_detail" ("Trip " +:+ quoted " " +:+ " updated successfully!"),
       mkDB (birds sample_db) (locations sample_db)
         [ mkTrip 1 " " (Date 2023 3 9) (Date 2023 3 9) "one day" ]
         (sightings sample_db)).
Proof. by vm_compute. Qed.

End TripFacts.
(** ** Every request leaves the database consistent *)

Section RequestFacts.
Import Requests.

Lemma find_by_key_is_Some {A} (key : A → Z) (l : list A) k :
  is_Some (snd <$> list_find (λ x, key x = k) l) ↔ k ∈ key <$> l.
Proof.
  rewrite fmap_is_Some. split.
  - intros [[n x] Hf]. apply list_find_Some in Hf as (Hn & Hk & _).
    apply list_elem_of_fmap. exists x. split; [done|].
    by eapply list_elem_of_lookup_2.
  - intros (x & -> & Hx)%list_elem_of_fmap.
    by apply (list_find_elem_of _ l x).
Qed.

Lemma refers_keys db s :
  refers db s
  ↔ bird s ∈ bird_id <$> birds db ∧ location s ∈ loc_id <$> locations db
    ∧ match trip s with
      | Some t => t ∈ trip_id <$> trips db
      | None => True
      end.
Proof.
  unfold refers, get_bird, get_trip, get_location.
  rewrite !find_by_key_is_Some. destruct (trip s) as [t|]; [|done].
  by rewrite find_by_key_is_Some.
Qed.

Lemma elem_of_fmap_filter {A} (key : A → Z) (P : A → Prop)
    `{!∀ x, Decision (P x)} (l : list A) k :
  k ∈ key <$> filter P l ↔ ∃ x, x ∈ l ∧ key x = k ∧ P x.
Proof.
  rewrite list_elem_of_fmap. split.
  - intros (x & -> & [HP Hx]%list_elem_of_filter). by exists x.
  - intros (x & Hx & <- & HP). exists x. split; [done|].
    by apply list_elem_of_filter.
Qed.

Lemma fmap_key_replace {A} (key : A → Z) (g : A → A) (l : list A) :
  (∀ x, key (g x) = key x) → key <$> (g <$> l) = key <$> l.
Proof.
  intros Hkey. rewrite <- list_fmap_compose. apply list_fmap_ext.
  intros _ x _. apply Hkey.
Qed.

Lemma model_choice_Chosen {A} (lookup : Z → option A) raw a :
  model_choice lookup raw = Chosen a → ∃ k, lookup k = Some a.
Proof.
  unfold model_choice. destruct raw as [raw|]; [|done].
  case_decide; [done|].
  destruct (Py.int_of_str raw) as [k|]; simpl; [|done].
  destruct (lookup k) as [a'|] eqn:Hk; [|done]. intros [= <-]. by exists k.
Qed.

Lemma SightingForm_clean_refers be db post s :
  SightingForm_clean be db post = Some s → refers db s.
Proof.
  unfold SightingForm_clean.
  destruct (model_choice (get_bird db) _) as [|b|] eqn:Hb; try done.
  destruct (model_choice (get_location _) _) as [|l|] eqn:Hl; try done.
  apply model_choice_Chosen in Hb as [kb Hb], Hl as [kl Hl].
  destruct (get_bird_Some _ _ _ Hb) as [<- _].
  destruct (get_location_Some _ _ _ Hl) as [<- _].
  destruct (model_choice (get_trip db) _) as [|t|] eqn:Ht; try done;
    (destruct (parse_date _) as [d|]; [|done]);
    (destruct (parse_integer _) as [n|]; [|done]); simpl;
    (case_decide; [|done]); intros [= <-]; unfold refers; simpl;
    rewrite Hb, Hl; [done|].
  apply model_choice_Chosen in Ht as [kt Ht].
  destruct (get_trip_Some _ _ _ Ht) as [<- _]. by rewrite Ht.
Qed.

(** The views as written take the successor of the greatest key. *)
Lemma add_sighting_at_next be m post db :
  add_sighting be m post db = add_sighting_at (next_sighting_id db) be m post db.
Proof. done. Qed.

Lemma trip_add_at_next st m post db :
  trip_add st m post db = trip_add_at (next_trip_id db) st m post db.
Proof. done. Qed.

Lemma next_sighting_id_fresh db : next_sighting_id db ∉ sighting_id <$> sightings db.
Proof.
  intros Hin. apply foldr_max_ge in Hin. unfold next_sighting_id in Hin. lia.
Qed.

Lemma next_trip_id_fresh db : next_trip_id db ∉ trip_id <$> trips db.
Proof.
  intros Hin. apply foldr_max_ge in Hin. unfold next_trip_id in Hin. lia.
Qed.

Lemma add_sighting_consistent k be m post db :
  consistent db → consistent (add_sighting_at k be m post db).2.
Proof.
  intros (Hpk & Hac & Hval & Hrefs & Hwf). unfold add_sighting_at.
  destruct m; [done|].
  destruct (SightingForm_clean be db post) as [s|] eqn:Hs; [|done].
  repeat split; try done. cbn [snd sightings].
  apply Forall_app. split; [done|]. apply Forall_singleton.
  by apply (SightingForm_clean_refers be db post s).
Qed.

Lemma Bird_delete_consistent b db :
  consistent db → consistent (Bird_delete b db).
Proof.
  intros (Hpk & Hac & Hval & Hrefs & Hwf). repeat split; try done.
  unfold Bird_delete. cbn [sightings]. apply Forall_forall.
  intros s [Hb Hs]%list_elem_of_filter.
  rewrite Forall_forall in Hrefs. specialize (Hrefs s Hs).
  apply refers_keys in Hrefs as (Hbird & Hloc & Htrip).
  apply refers_keys. cbn [birds locations trips]. split; [|done].
  apply list_elem_of_fmap in Hbird as (x & Hx & Hin).
  apply elem_of_fmap_filter. exists x. split; [done|]. split; [done|].
  by rewrite <- Hx.
Qed.

Lemma bird_delete_consistent m i db :
  consistent db → consistent (bird_delete m i db).2.
Proof.
  intros Hc. unfold bird_delete. destruct m; [done|].
  destruct (get_bird db i) as [b|]; [|done]. case_decide; [done|].
  by apply Bird_delete_consistent.
Qed.

Lemma delete_birds_consistent bs :
  ∀ db, consistent db → consistent (delete_birds bs db).
Proof.
  induction bs as [|b bs IH]; intros db Hc; [done|].
  unfold delete_birds in *. cbn [foldl]. by apply IH, Bird_delete_consistent.
Qed.

Lemma bird_bulk_delete_consistent kb m post db :
  consistent db → consistent (bird_bulk_delete kb m post db).2.
Proof.
  intros Hc. unfold bird_bulk_delete. destruct m; [done|].
  destruct (clean_selected_birds _); [|done]. destruct (_ && _); [done|].
  case_decide; [done|]. by apply delete_birds_consistent.
Qed.

Lemma location_edit_cases fuel m i post db r db' :
  location_edit fuel m i post db = Some (r, db') →
  db' = db
  ∨ ∃ l c, db' = save_location (loc_id l) c db
      ∧ ∀ P, cleaned_parent_location c = Some P →
          get_location (locations db) (loc_id P) = Some P
          ∧ ¬ reaches (locations db) (loc_id l) P.
Proof.
  unfold location_edit.
  destruct (get_location (locations db) i) as [l|];
    [|intros [= _ <-]; by left].
  destruct m; [intros [= _ <-]; by left|].
  destruct (LocationForm_clean (locations db) post) as [c|] eqn:Hc;
    [|intros [= _ <-]; by left].
  destruct (cleaned_parent_location c) as [P|] eqn:HP.
  - destruct (circular_check fuel (locations db) P (loc_id l)) as [[| |]|]
      eqn:Hw; [intros [= _ <-]; by left| |intros [= _ <-]; by left|done].
    intros [= _ <-]. right. exists l, c. split; [done|].
    intros P' HP'. rewrite HP in HP'. injection HP' as <-.
    split; [by eapply LocationForm_clean_parent|].
    by eapply circular_check_NotReached.
  - intros [= _ <-]. right. exists l, c. split; [done|].
    intros P' HP'. by rewrite HP in HP'.
Qed.

Lemma location_edit_consistent fuel m i post db r db' :
  location_edit fuel m i post db = Some (r, db') →
  consistent db → consistent db'.
Proof.
  intros [->|(l & c & -> & Hparent)]%location_edit_cases Hc; [done|].
  destruct Hc as (Hpk & Hac & Hval & Hrefs & Hwf).
  destruct (save_location_forest (loc_id l) c db Hpk Hac Hparent)
    as (Hpk' & Hac' & Hval').
  repeat split; try done; [by apply Hval'|].
  cbn [sightings save_location]. eapply Forall_impl; [exact Hrefs|].
  intros s. rewrite !refers_keys.
  change (locations (save_location (loc_id l) c db))
    with (Invariants.saved_row (loc_id l) c <$> locations db).
  cbn [birds trips save_location]. rewrite <- list_fmap_compose.
  erewrite (list_fmap_ext (loc_id ∘ Invariants.saved_row (loc_id l) c) loc_id);
    [done|].
  intros _ x _. apply saved_row_id.
Qed.

Lemma get_location_filter_other locs k p :
  p ≠ k →
  get_location (filter (λ x, loc_id x ∉ [k]) locs) p = get_location locs p.
Proof.
  intros Hne. unfold get_location. induction locs as [|x locs IH]; [done|].
  rewrite filter_cons. cbn [list_find]. case_decide as Hx.
  - cbn [list_find]. case_decide; [done|].
    destruct (list_find _ (filter _ locs)) as [[n y]|];
      destruct (list_find _ locs) as [[n' y']|]; simpl in *; congruence.
  - rewrite decide_False.
    2:{ intros Hp. apply list_elem_of_singleton in Hx. congruence. }
    rewrite IH. by destruct (list_find _ locs) as [[n' y']|].
Qed.

(** Removing a row no other row points to leaves every other walk as it
    was. *)
Lemma depth_filter_leaf locs k :
  (∀ y, y ∈ locs → parent_location y ≠ Some k) →
  ∀ f x d, x ∈ locs → depth f locs x = Some d →
    depth f (filter (λ x, loc_id x ∉ [k]) locs) x = Some d.
Proof.
  intros Hleaf. induction f as [|f IH]; intros x d Hx Hd; [done|].
  simpl in Hd |- *.
  destruct (parent_location x) as [p|] eqn:Hp; [|done].
  assert (p ≠ k) as Hne by (intros ->; by apply (Hleaf x Hx)).
  rewrite (get_location_filter_other locs k p Hne).
  destruct (get_location locs p) as [q|] eqn:Hq; [|done].
  destruct (depth f locs q) as [dq|] eqn:Hdq; simpl in Hd; [|done].
  destruct (get_location_Some _ _ _ Hq) as [_ Hqin].
  by rewrite (IH q dq Hqin Hdq).
Qed.

Lemma Location_delete_leaf_consistent l db :
  children_of (locations db) l = [] →
  consistent db → consistent (Location_delete l db).
Proof.
  intros Hchildren (Hpk & Hac & Hval & Hrefs & Hwf).
  unfold Location_delete. rewrite collect_locations_no_children by done.
  set (locs := locations db) in *. set (k := loc_id l).
  assert (∀ y, y ∈ locs → parent_location y ≠ Some k) as Hleaf.
  { intros y Hy Hp.
    assert (y ∈ children_of locs l) as Hin by by apply children_of_elem.
    rewrite Hchildren in Hin. by apply elem_of_nil in Hin. }
  split; [|split; [|split; [|split]]]; cbn [locations sightings trips].
  - unfold pk_unique in *. apply (sublist_NoDup _ (loc_id <$> locs)); [done|].
    apply fmap_sublist, sublist_filter.
  - unfold parent_links_acyclic. apply Forall_forall.
    intros x [Hxk Hx]%list_elem_of_filter.
    destruct (acyclic_depth locs x Hac Hx) as [d Hd]. exists d.
    eapply depth_within_table; [by apply list_elem_of_filter|].
    by apply depth_filter_leaf.
  - unfold parent_links_valid in *. rewrite Forall_forall in Hval.
    apply Forall_forall. intros x [Hxk Hx]%list_elem_of_filter p Hp.
    rewrite get_location_filter_other; [by apply (Hval x Hx)|].
    intros ->. by apply (Hleaf x Hx).
  - apply Forall_forall. intros s [Hsk Hs]%list_elem_of_filter.
    rewrite Forall_forall in Hrefs. specialize (Hrefs s Hs).
    destruct Hrefs as (Hb & Hl & Ht). split; [done|]. split; [|done].
    cbn [locations]. rewrite get_location_filter_other; [done|].
    intros Heq. apply Hsk. rewrite list_elem_of_singleton. done.
  - done.
Qed.

Lemma location_delete_consistent m i db :
  consistent db → consistent (location_delete m i db).2.
Proof.
  intros Hc. unfold location_delete. destruct m; [done|].
  destruct (get_location (locations db) i) as [l|]; [|done].
  case_decide; [done|]. case_decide as Hch; [done|].
  apply Location_delete_leaf_consistent; [|done].
  destruct (children_of (locations db) l); [done|]. simpl in Hch. lia.
Qed.

Lemma trip_add_consistent k st m post db :
  consistent db → consistent (trip_add_at k st m post db).2.
Proof.
  intros (Hpk & Hac & Hval & Hrefs & Hwf). unfold trip_add_at.
  destruct m; [done|].
  destruct (validate_trip post) as [[[[name s] e] desc]|msg] eqn:Hv; [|done].
  destruct (stores st _); [|done].
  destruct (validate_trip_Ok _ _ _ _ _ Hv) as (_ & Hname & Hs & He & Hle).
  repeat split; try done; cbn [snd sightings trips].
  - eapply Forall_impl; [exact Hrefs|]. intros x. rewrite !refers_keys.
    cbn [birds locations trips]. intros (? & ? & Ht). split; [done|].
    split; [done|]. destruct (trip x) as [t|]; [|done].
    rewrite fmap_app, elem_of_app. by left.
  - apply Forall_app. split; [done|]. by apply Forall_singleton.
Qed.

Lemma trip_edit_consistent st m i post db :
  consistent db → consistent (trip_edit st m i post db).2.
Proof.
  intros (Hpk & Hac & Hval & Hrefs & Hwf). unfold trip_edit.
  destruct (get_trip db i) as [trip_row|]; [|done]. destruct m; [done|].
  destruct (validate_trip post) as [[[[name s] e] desc]|msg] eqn:Hv; [|done].
  destruct (stores st _); [|done].
  destruct (validate_trip_Ok _ _ _ _ _ Hv) as (_ & Hname & Hs & He & Hle).
  repeat split; try done; cbn [snd sightings trips].
  - eapply Forall_impl; [exact Hrefs|]. intros x. rewrite !refers_keys.
    cbn [birds locations trips].
    rewrite fmap_key_replace; [done|]. intros t. by case_decide.
  - apply Forall_fmap. eapply Forall_impl; [exact Hwf|].
    intros t Ht. simpl. by case_decide.
Qed.

Lemma trip_delete_consistent m i db :
  consistent db → consistent (trip_delete m i db).2.
Proof.
  intros (Hpk & Hac & Hval & Hrefs & Hwf). unfold trip_delete.
  destruct (get_trip db i) as [t|]; [|done]. destruct m; [done|].
  repeat split; try done; unfold Trip_delete; cbn [snd sightings trips].
  - apply Forall_forall. intros s' [Hne Hs']%list_elem_of_filter.
    apply list_elem_of_fmap in Hs' as (s & -> & Hs).
    rewrite Forall_forall in Hrefs. specialize (Hrefs s Hs).
    apply refers_keys in Hrefs as (Hb & Hl & Ht). apply refers_keys.
    cbn [birds locations trips].
    destruct (dereference_fields (trip_id t) s) as (? & Hbird & Hloc & ?).
    unfold dereference in *. case_decide as Htrip; simpl in *; [done|].
    split; [done|]. split; [done|].
    destruct (trip s) as [k|]; [|done].
    apply list_elem_of_fmap in Ht as (x & -> & Hx).
    apply elem_of_fmap_filter. exists x. split; [done|]. split; [done|].
    congruence.
  - apply Forall_forall. intros x [_ Hx]%list_elem_of_filter.
    rewrite Forall_forall in Hwf. by apply Hwf.
Qed.

Lemma serves_consistent be kb st db db' :
  serves be kb st db db' → consistent db → consistent db'.
Proof.
  destruct 1; eauto using add_sighting_consistent, bird_delete_consistent,
    bird_bulk_delete_consistent, location_edit_consistent,
    location_delete_consistent, trip_add_consistent, trip_edit_consistent,
    trip_delete_consistent.
Qed.

(** Whatever requests reach these views, in whatever order, and whatever
    keys the database gives the new rows, a consistent database stays
    consistent: the locations stay a forest, every sighting keeps a bird
    and a location that exist (and a trip that exists, if it names one),
    and every trip keeps a name and an end date not before its start
    date.  [add_sighting] and [trip_add] as written, with the successor
    of the greatest key, are steps of the relation. *)
Theorem requests_keep_database_consistent
    (be : backend) (kb : key_backend) (st : storage) (db db' : DB) :
  Requests.consistent db →
  rtc (Requests.serves be kb st) db db' →
  Requests.consistent db'
  ∧ (∀ m post, Requests.serves be kb st db' (add_sighting be m post db').2)
  ∧ (∀ m post, Requests.serves be kb st db' (trip_add st m post db').2).
Proof.
  intros Hc Hsteps. split; [|split].
  - induction Hsteps as [|db1 db2 db3 Hstep _ IH]; [done|].
    apply IH. by eapply serves_consistent.
  - intros m post. rewrite add_sighting_at_next.
    apply serves_add_sighting, next_sighting_id_fresh.
  - intros m post. rewrite trip_add_at_next.
    apply serves_trip_add, next_trip_id_fresh.
Qed.

Lemma requests_keep_database_consistent_witness :
  Requests.consistent db_after_requests
  ∧ (∀ m post,
       Requests.serves int32_backend (mkKeyBackend 1 9223372036854775807 true)
         (mkStorage (λ _, true)) db_after_requests
         (add_sighting int32_backend m post db_after_requests).2)
  ∧ (∀ m post,
       Requests.serves int32_backend (mkKeyBackend 1 9223372036854775807 true)
         (mkStorage (λ _, true)) db_after_requests
         (trip_add (mkStorage (λ _, true)) m post db_after_requests).2).
Proof.
  apply (requests_keep_database_consistent int32_backend
           (mkKeyBackend 1 9223372036854775807 true) (mkStorage (λ _, true))
           sample_db).
  - decide_by_compute.
  - eapply rtc_l; [apply (serves_trip_delete _ _ _ POST 1 sample_db)|].
    eapply rtc_l;
      [apply (serves_add_sighting _ _ _ 10 POST post_lenient);
       decide_by_compute|].
    apply rtc_refl.
Defined.

Example add_sighting_lenient_fields :
  sightings (add_sighting int32_backend POST post_lenient sample_db).2
  = sightings sample_db
    ++ [ mkSighting 4 2 3 None (Date 2023 7 1) false 5 "at dusk" ]
  ∧ parse_date "07/01/2023" = Some (Date 2023 7 1)
  ∧ parse_date "7/1/23" = Some (Date 2023 7 1)
  ∧ parse_date "7/1/69" = Some (Date 1969 7 1)
  ∧ parse_date "2023-02-29" = None
  ∧ parse_date "1 Jul 2023" = None
  ∧ parse_integer "5." = Some 5 ∧ parse_integer " 5.00 " = Some 5
  ∧ parse_integer "5.5" = None ∧ parse_integer ".0" = None
  ∧ parse_integer "1_0" = Some 10.
Proof. by vm_compute. Qed.

End RequestFacts.
(** ** The counts of [location_detail] *)

Section DetailFacts.
Import LocationDetail.

Lemma sightings_in_app db (A B : list Z) :
  (∀ x, x ∈ A → x ∉ B) →
  length (sightings_in db (A ++ B))
  = (length (sightings_in db A) + length (sightings_in db B))%nat.
Proof.
  intros Hdisj. unfold sightings_in.
  induction (sightings db) as [|s ss IH]; [done|].
  rewrite !filter_cons.
  pose proof (elem_of_app A B (location s)) as Happ.
  pose proof (Hdisj (location s)) as Hd.
  repeat case_decide; simpl; rewrite ?IH; try lia; exfalso; tauto.
Qed.

Lemma sightings_in_ext db (A B : list Z) :
  (∀ x, x ∈ A ↔ x ∈ B) → sightings_in db A = sightings_in db B.
Proof. intros Heq. apply filter_ext_in. intros s _. apply Heq. Qed.

Lemma sightings_in_singleton db k :
  sightings_in db [k] = filter (λ s, location s = k) (sightings db).
Proof.
  apply filter_ext_in. intros s _. apply list_elem_of_singleton.
Qed.

(** The keys of the children with their descendants, child by child. *)
Lemma grouped_Permutation (children : list Location)
    (rest : list (list Location)) :
  length children = length rest →
  concat (zip_with (λ c rc, c :: rc) children rest)
  ≡ₚ children ++ concat rest.
Proof.
  revert rest. induction children as [|c cs IH]; intros [|r rs] Hlen;
    try done.
  simpl. constructor. rewrite IH by (simpl in Hlen; lia).
  rewrite !(assoc app). f_equiv. apply Permutation_app_comm.
Qed.

Lemma sum_counts_grouped db (groups : list (list Z)) :
  NoDup (concat groups) →
  sum_list ((λ g, length (sightings_in db g)) <$> groups)
  = length (sightings_in db (concat groups)).
Proof.
  induction groups as [|g gs IH]; cbn [concat].
  - intros _. unfold sightings_in. symmetry. apply length_zero_iff_nil.
    apply filter_none. intros s _. apply not_elem_of_nil.
  - intros (Hg & Hdisj & Hgs)%NoDup_app.
    rewrite sightings_in_app by done. by rewrite <- IH.
Qed.

Lemma mapM_child_with_count fuel db :
  ∀ children rest,
    Forall2 (λ c rc, get_all_child_locations fuel (locations db) c = Some rc)
      children rest →
    mapM (child_with_count fuel db) children
    = Some (zip_with
              (λ c rc, (c, length (sightings_in db (loc_id c :: (loc_id <$> rc)))))
              children rest).
Proof.
  intros children rest Hall. apply mapM_Some.
  induction Hall as [|c rc cs rs Hc _ IH]; simpl; constructor; [|done].
  unfold child_with_count. by rewrite Hc.
Qed.

Lemma descendant_keys_NoDup locs fuel l r :
  pk_unique locs → parent_links_acyclic locs → l ∈ locs →
  get_all_child_locations fuel locs l = Some r →
  NoDup (loc_id <$> (l :: r)).
Proof.
  intros Hpk Hac Hl Hr.
  assert (NoDup r) as Hnd
    by by apply (get_all_child_locations_NoDup locs Hpk Hac fuel l).
  assert (l ∉ r) as Hnotin.
  { intros Hin. destruct (acyclic_depth _ _ Hac Hl) as [dl Hdl].
    destruct (get_all_child_locations_deeper locs Hpk Hac _ _ _ _ _
                Hl Hr Hdl Hin) as (dc & Hdc & Hlt).
    assert (dc = dl) by congruence. lia. }
  apply NoDup_fmap_2_strong; [|by constructor].
  intros x y Hx Hy. apply (pk_unique_inj locs); [done| |].
  - apply elem_of_cons in Hx as [->|Hx]; [done|].
    by apply (get_all_child_locations_sound locs Hpk fuel l r x).
  - apply elem_of_cons in Hy as [->|Hy]; [done|].
    by apply (get_all_child_locations_sound locs Hpk fuel l r y).
Qed.

(** On a forest, [location_detail] returns its page, and its counts add
    up: [total_sightings] is the number of sightings at the location
    itself plus the [sighting_count] of each direct child, no sighting
    counted twice; the children listed are the direct children. *)
Theorem location_detail_counts_add_up (db : DB) (i : Z) (l : Location) :
  Hierarchy.pk_unique (locations db) →
  Hierarchy.parent_links_acyclic (locations db) →
  Paths.parent_links_valid (locations db) →
  Hierarchy.get_location (locations db) i = Some l →
  ∃ ctx,
    (∀ fuel, (length (locations db) < fuel)%nat →
       LocationDetail.location_detail fuel i db = Some (Ok ctx))
    ∧ LocationDetail.total_sightings ctx
      = (length (filter (λ s, location s = loc_id l) (sightings db))
         + sum_list (snd <$> LocationDetail.ctx_child_locations ctx))%nat
    ∧ fst <$> LocationDetail.ctx_child_locations ctx
      = Hierarchy.children_of (locations db) l
    ∧ LocationDetail.direct_children_count ctx
      = length (Hierarchy.children_of (locations db) l)
    ∧ (LocationDetail.direct_children_count ctx
       ≤ LocationDetail.total_child_locations ctx)%nat.
Proof.
  intros Hpk Hac Hval Hget.
  destruct (get_location_Some _ _ _ Hget) as [_ Hl].
  set (locs := locations db) in *.
  destruct (get_all_child_locations_total locs l Hpk Hac) as [r Hr].
  pose proof (Hr (S (length locs)) (Nat.lt_succ_diag_r _)) as Hr1.
  destruct (get_all_child_locations_Some _ _ _ _ Hr1)
    as (f & rest & [= <-] & Hrest & Hr_eq).
  destruct (acyclic_depth _ _ Hac Hl) as [d Hd].
  destruct (get_ancestors_loop_depth locs Hval _ _ _ Hl Hd)
    as (anc & Hlen & Hanc).
  pose proof (depth_lt _ _ _ _ Hd) as Hlt.
  set (counts := zip_with
         (λ c rc, (c, length (sightings_in db (loc_id c :: (loc_id <$> rc)))))
         (children_of locs l) rest).
  assert (length (children_of locs l) = length rest) as Hlen_rest
    by by eapply Forall2_length.
  assert (length counts = length (children_of locs l)) as Hlen_counts.
  { subst counts. rewrite length_zip_with. lia. }
  exists (mkContext l (anc ++ [l]) counts (length counts) (length r)
            (length (sightings_in db (loc_id l :: (loc_id <$> r))))).
  split; [|split; [|split; [|split]]]; cbn [total_sightings ctx_child_locations
    direct_children_count total_child_locations].
  - intros fuel Hfuel. unfold location_detail. fold locs. rewrite Hget.
    unfold breadcrumb_path. rewrite breadcrumb_loop_ancestors.
    rewrite Hanc by lia. cbn [fmap option_fmap option_map result_map mbind
      option_bind].
    rewrite (mapM_child_with_count fuel db (children_of locs l) rest).
    2:{ eapply Forall2_impl; [exact Hrest|]. intros c rc Hc. simpl in Hc.
        apply (get_all_child_locations_mono_le (length locs) fuel); [lia|done]. }
    cbn [mbind option_bind]. fold locs. by rewrite (Hr fuel Hfuel).
  - pose proof (descendant_keys_NoDup locs _ l r Hpk Hac Hl Hr1) as Hnd.
    change (loc_id l :: (loc_id <$> r)) with ([loc_id l] ++ (loc_id <$> r)).
    cbn [fmap list_fmap] in Hnd. apply NoDup_cons in Hnd as [Hl_notin Hnd_r].
    rewrite sightings_in_app.
    2:{ intros x ->%list_elem_of_singleton. done. }
    rewrite sightings_in_singleton. f_equal.
    set (groups := zip_with (λ c rc, loc_id c :: (loc_id <$> rc))
                     (children_of locs l) rest).
    assert (snd <$> counts = (λ g, length (sightings_in db g)) <$> groups)
      as ->.
    { subst counts groups. clear -Hlen_rest. revert rest Hlen_rest.
      induction (children_of locs l) as [|c cs IH]; intros [|rc rs] Hlen;
        try done.
      simpl. f_equal. apply IH. simpl in Hlen. lia. }
    assert (concat groups ≡ₚ loc_id <$> r) as Hperm.
    { rewrite Hr_eq, <- (grouped_Permutation _ rest Hlen_rest).
      subst groups. clear -Hlen_rest. revert rest Hlen_rest.
      induction (children_of locs l) as [|c cs IH]; intros [|rc rs] Hlen;
        try done.
      simpl. constructor. rewrite fmap_app. f_equiv.
      apply IH. simpl in Hlen. lia. }
    rewrite sum_counts_grouped by (by rewrite Hperm).
    f_equal. apply sightings_in_ext. intros x. by rewrite Hperm.
  - subst counts. clear -Hlen_rest. revert rest Hlen_rest.
    induction (children_of locs l) as [|c cs IH]; intros [|rc rs] Hlen;
      try done.
    simpl. f_equal. apply IH. simpl in Hlen. lia.
  - done.
  - rewrite Hlen_counts, Hr_eq, length_app. lia.
Qed.

Lemma location_detail_counts_add_up_witness :
  ∃ ctx,
    (∀ fuel, (length (locations sample_db) < fuel)%nat →
       LocationDetail.location_detail fuel 1 sample_db = Some (Ok ctx))
    ∧ LocationDetail.total_sightings ctx
      = (length (filter (λ s, location s = loc_id (mkLocation 1 "A" None))
                   (sightings sample_db))
         + sum_list (snd <$> LocationDetail.ctx_child_locations ctx))%nat
    ∧ fst <$> LocationDetail.ctx_child_locations ctx
      = Hierarchy.children_of (locations sample_db) (mkLocation 1 "A" None)
    ∧ LocationDetail.direct_children_count ctx
      = length (Hierarchy.children_of (locations sample_db)
                  (mkLocation 1 "A" None))
    ∧ (LocationDetail.direct_children_count ctx
       ≤ LocationDetail.total_child_locations ctx)%nat.
Proof.
  apply (location_detail_counts_add_up sample_db 1 (mkLocation 1 "A" None));
    [decide_by_compute|decide_by_compute|decide_by_compute|reflexivity].
Defined.

Example location_detail_sample :
  LocationDetail.location_detail 5 1 sample_db
  = Some (Ok (LocationDetail.mkContext (mkLocation 1 "A" None)
                [ mkLocation 1 "A" None ]
                [ (mkLocation 2 "B" (Some 1), 3%nat) ] 1 2 3))
  ∧ LocationDetail.location_detail 5 3 sample_db
    = Some (Ok (LocationDetail.mkContext (mkLocation 3 "C" (Some 2))
                  [ mkLocation 1 "A" None; mkLocation 2 "B" (Some 1);
                    mkLocation 3 "C" (Some 2) ]
                  [] 0 0 2))
  ∧ LocationDetail.location_detail 5 9 sample_db
    = Some (Raise LocationDetail.NotFound).
Proof. by vm_compute. Qed.

End DetailFacts.
(** ** Paging through the life list *)

Section PageFacts.
Import ListViews.

Lemma concat_chunks {A} (l : list A) (p : nat) :
  ∀ m, concat ((λ i, take p (drop (i * p) l)) <$> seq 0 m) = take (m * p) l.
Proof.
  induction m as [|m IH]; [done|].
  rewrite seq_S, fmap_app, concat_app, IH. simpl.
  rewrite app_nil_r, take_take_drop. f_equal. lia.
Qed.

Lemma num_pages_cover {A} (l : list A) (per : Z) :
  0 < per →
  (length l
   ≤ Z.to_nat (Paginator.num_pages (Paginator.mk l per)) * Z.to_nat per)%nat.
Proof.
  intros Hper.
  pose proof (num_pages_ge_1 (Paginator.mk l per) Hper) as Hge.
  assert (Z.of_nat (length l)
          ≤ Paginator.num_pages (Paginator.mk l per) * per) as Hle.
  { unfold Paginator.num_pages, Paginator.count. simpl.
    pose proof (Z.mul_div_le (- Z.max 1 (Z.of_nat (length l))) per Hper).
    lia. }
  rewrite <- Z2Nat.inj_mul by lia. lia.
Qed.

(** The pages in order, joined, are the list. *)
Lemma pages_concat {A} (l : list A) (per : Z) :
  0 < per →
  concat ((λ k, take (Z.to_nat per) (drop (Z.to_nat ((k - 1) * per)) l))
            <$> seqZ 1 (Paginator.num_pages (Paginator.mk l per)))
  = l.
Proof.
  intros Hper. unfold seqZ. rewrite <- list_fmap_compose.
  erewrite (list_fmap_ext _ (λ i, take (Z.to_nat per) (drop (i * Z.to_nat per) l))).
  - rewrite concat_chunks. apply take_ge. by apply num_pages_cover.
  - intros _ i _. simpl. do 2 f_equal. nia.
Qed.

Lemma lifelist_page_in_range order_by (q : query) table per s k :
  0 < per →
  Py.int_of_str
    (if decide (default "20" (q !! "page_size") ∈ valid_page_sizes)
     then default "20" (q !! "page_size") else "20") = Some per →
  Py.int_of_str s = Some k →
  1 ≤ k ≤ Paginator.num_pages
            (Paginator.mk (lifelist_entries order_by table) per) →
  ∃ ctx, lifelist order_by (<["page" := s]> q) table = Ok ctx
    ∧ ll_lifelist_entries ctx
      = take (Z.to_nat per)
          (drop (Z.to_nat ((k - 1) * per)) (lifelist_entries order_by table)).
Proof.
  intros Hper Hsize Hs Hk. unfold lifelist.
  rewrite lookup_insert_ne by done.
  set (ps := if decide (default "20" (q !! "page_size") ∈ valid_page_sizes)
             then default "20" (q !! "page_size") else "20") in *.
  destruct (decide (ps = "all")) as [Hall|_];
    [by rewrite Hall in Hsize|].
  rewrite Hsize. unfold get_default. rewrite lookup_insert_eq. cbn [from_option].
  unfold Paginator.get_page.
  rewrite (validate_number_Ok _ (Py.PyStr s) k) by done.
  unfold Paginator.page.
  rewrite (validate_number_Ok _ (Py.PyInt k) k) by done.
  cbn [lift_page Paginator.page_object_list Paginator.object_list
       Paginator.per_page Paginator.count].
  eexists. split; [done|]. cbn [ll_lifelist_entries].
  apply page_slice_take; lia.
Qed.

(** Paging through the life list shows every entry once, in order: for
    a page size of 10, 20 or 50, the entries the view shows for page 1,
    page 2, ... up to the last page, joined, are the entries of the life
    list. *)
Theorem lifelist_pages_cover_entries
    (order_by : list Aggregator.annotated → list Aggregator.annotated)
    (q : ListViews.query) (table : list Sighting) :
  q !! "page_size" ≠ Some "all" →
  ∃ per, per ∈ [10; 20; 50]
    ∧ ∀ strs,
        Py.int_of_str <$> strs
        = Some <$> seqZ 1 (Paginator.num_pages
                             (Paginator.mk
                                (Aggregator.lifelist_entries order_by table) per)) →
        ∃ pages,
          Forall2 (λ s page,
                     ∃ ctx, ListViews.lifelist order_by (<["page" := s]> q) table
                            = Ok ctx
                       ∧ ListViews.ll_lifelist_entries ctx = page)
            strs pages
          ∧ concat pages = Aggregator.lifelist_entries order_by table.
Proof.
  intros Hnot_all.
  set (ps := if decide (default "20" (q !! "page_size") ∈ valid_page_sizes)
             then default "20" (q !! "page_size") else "20").
  assert (∃ per, per ∈ [10; 20; 50] ∧ Py.int_of_str ps = Some per)
    as (per & Hper & Hps).
  { assert (ps ∈ valid_page_sizes ∧ ps ≠ "all") as [Hin Hne].
    { subst ps. case_decide as Hv; [|split; [decide_by_compute|done]].
      split; [done|]. destruct (q !! "page_size") as [raw|]; [|done].
      simpl. congruence. }
    unfold valid_page_sizes in Hin.
    repeat (apply elem_of_cons in Hin as [->|Hin]);
      [exists 10|exists 20|exists 50|done|by apply elem_of_nil in Hin];
      (split; [decide_by_compute|done]). }
  exists per. split; [done|]. intros strs Hstrs.
  assert (0 < per) as Hpos.
  { repeat (apply elem_of_cons in Hper as [->|Hper]); try lia.
    by apply elem_of_nil in Hper. }
  set (entries := lifelist_entries order_by table) in *.
  set (N := Paginator.num_pages (Paginator.mk entries per)) in *.
  exists ((λ k, take (Z.to_nat per) (drop (Z.to_nat ((k - 1) * per)) entries))
            <$> seqZ 1 N).
  split; [|by apply pages_concat].
  apply Forall2_same_length_lookup. split.
  - rewrite length_fmap.
    apply (f_equal length) in Hstrs. by rewrite !length_fmap in Hstrs.
  - intros i s page Hs Hpage.
    apply list_lookup_fmap_Some in Hpage as (k & -> & Hk).
    pose proof Hk as [-> Hi]%lookup_seqZ.
    apply (f_equal (λ l, l !! i)) in Hstrs.
    rewrite !list_lookup_fmap, Hs, Hk in Hstrs. simpl in Hstrs.
    injection Hstrs as Hint.
    apply (lifelist_page_in_range order_by q table per s (1 + Z.of_nat i));
      [done|done|done|subst N entries; lia].
Qed.

Lemma lifelist_pages_cover_entries_witness :
  ∃ per, per ∈ [10; 20; 50]
    ∧ ∀ strs,
        Py.int_of_str <$> strs
        = Some <$> seqZ 1 (Paginator.num_pages
                             (Paginator.mk
                                (Aggregator.lifelist_entries
                                   Aggregator.stable_order_by species_scenario)
                                per)) →
        ∃ pages,
          Forall2 (λ s page,
                     ∃ ctx, ListViews.lifelist Aggregator.stable_order_by
                              (<["page" := s]> {[ "page_size" := "10" ]})
                              species_scenario
                            = Ok ctx
                       ∧ ListViews.ll_lifelist_entries ctx = page)
            strs pages
          ∧ concat pages
            = Aggregator.lifelist_entries Aggregator.stable_order_by
                species_scenario.
Proof.
  apply (lifelist_pages_cover_entries Aggregator.stable_order_by
           {[ "page_size" := "10" ]} species_scenario).
  by vm_compute.
Defined.

Example lifelist_three_pages :
  let shown page :=
    match ListViews.lifelist Aggregator.stable_order_by
            {[ "page_size" := "10"; "page" := page ]} sightings_23 with
    | Ok ctx => Aggregator.entry_bird <$> ListViews.ll_lifelist_entries ctx
    | Raise _ => []
    end in
  shown "1" = [23; 22; 21; 20; 19; 18; 17; 16; 15; 14]
  ∧ shown "2" = [13; 12; 11; 10; 9; 8; 7; 6; 5; 4]
  ∧ shown "3" = [3; 2; 1]
  ∧ shown "4" = shown "3" ∧ shown "x" = shown "1".
Proof. by vm_compute. Qed.

End PageFacts.
